(** * ai-cognitive-nexus-mcp: team registry rebuild and session store

    A shallow embedding of [app_context.py] (the dependency resolver
    [_topological_sort], the member resolution of [_create_team_instance]
    and the full rebuild [reinitialize_teams]) and of [session_manager.py]
    (identifier validation, sweep, create, load and save), with the
    properties of the specification stated over them; then of the team,
    agent, persona and product tools of [main.py], with further
    properties of all three files.  The team and agent tools are
    embedded twice: in [Tools] on definitions and payloads of the classes
    that the schemas name, and in [RawTools] on any JSON value, with the
    exceptions of Python for the values of other classes; [Tools] is
    proved to be the reading of [RawTools] on the former. *)

From stdpp Require Import gmap strings list fin_maps relations.
From Stdlib Require Import ZArith NArith Ascii Lia.

Local Open Scope Z_scope.

(** ** Python dictionaries that keep their insertion order

    [teams_config] is a [dict] read from JSON: its keys are unique and
    [items()] enumerates them in insertion order.  It is modelled as an
    association list; the uniqueness of the keys is the hypothesis
    [NoDup (keys d)] of the theorems that need it. *)

Definition keys {K V} (d : list (K * V)) : list K := d.*1.

Fixpoint dict_get `{EqDecision K} {V} (d : list (K * V)) (k : K) : option V :=
  match d with
  | [] => None
  | (k', v) :: d' => if decide (k' = k) then Some v else dict_get d' k
  end.

(** [d[k] = v]: the value of an existing key is replaced in place, a new
    key is appended. *)
Fixpoint dict_set `{EqDecision K} {V} (d : list (K * V)) (k : K) (v : V)
    : list (K * V) :=
  match d with
  | [] => [(k, v)]
  | (k', v') :: d' =>
      if decide (k' = k) then (k, v) :: d' else (k', v') :: dict_set d' k v
  end.

(** [del d[k]] *)
Definition dict_del `{EqDecision K} {V} (d : list (K * V)) (k : K) : list (K * V) :=
  filter (λ it, it.1 ≠ k) d.

(** [d.update(data)] *)
Definition dict_update `{EqDecision K} {V} (d data : list (K * V)) : list (K * V) :=
  foldl (λ acc it, dict_set acc it.1 it.2) d data.

(** * The team registry ([app_context.py]) *)

Module Teams.

(** A team definition of [teams.json].  [members] is what
    [config.get("members", [])] returns: a missing entry and an empty list
    behave alike in every place the code reads it. *)
Record team_config := TeamConfig {
  team_name : option string;
  description : option string;
  members : list string;
  instructions : option string;
  success_criteria : option string
}.

(** The result of [_topological_sort]: the returned list, or the
    [ValueError] that carries the set [cycle_nodes]. *)
Inductive sort_result :=
  | Sorted (sorted_list : list string)
  | ValueError (cycle_nodes : gset string).

(** The state of the [while queue:] loop. *)
Record kahn_state := KahnState {
  in_degree : gmap string Z;
  queue : list string;
  sorted_list : list string
}.

Section Resolver.

(** [dependencies] is a Python [set] of strings, and the order in which
    [for dep_key in dependencies] visits it depends on the hash seed of
    the process.  [set_order l] is the order in which the set built from
    the elements of [l] is visited: some arrangement of the distinct
    elements of [l], which the theorems assume as
    [∀ l, set_order l ≡ₚ remove_dups l]. *)
Variable set_order : list string → list string.

Variable team_configs : list (string * team_config).

(** [{member for member in config.get("members", []) if member in team_configs}] *)
Definition dependencies (config : team_config) : list string :=
  set_order (filter (λ member, member ∈ keys team_configs) (members config)).

(** [for dep_key in dependencies: adj[dep_key].append(team_key)] *)
Definition add_edges (team_key : string) (deps : list string)
    (adj : gmap string (list string)) : gmap string (list string) :=
  foldl (λ a dep_key, alter (λ l, l ++ [team_key]) dep_key a) adj deps.

Definition graph_step (g : gmap string (list string) * gmap string Z)
    (item : string * team_config) : gmap string (list string) * gmap string Z :=
  let deps := dependencies item.2 in
  (add_edges item.1 deps g.1, <[item.1 := Z.of_nat (length deps)]> g.2).

(** Lines 181-187: the adjacency lists and the in-degrees. *)
Definition build_graph : gmap string (list string) * gmap string Z :=
  foldl graph_step
    (list_to_map ((λ key, (key, [])) <$> keys team_configs),
     list_to_map ((λ key, (key, 0)) <$> keys team_configs))
    team_configs.

(** [in_degree[dependent_team_key] -= 1] and the test that follows it. *)
Definition relax (s : gmap string Z * list string) (dependent_team_key : string)
    : gmap string Z * list string :=
  let deg := alter Z.pred dependent_team_key s.1 in
  if bool_decide (deg !! dependent_team_key = Some 0)
  then (deg, s.2 ++ [dependent_team_key])
  else (deg, s.2).

(** One iteration of the [while queue:] loop; [None] when the queue is
    empty and the loop is left. *)
Definition visit (adj : gmap string (list string)) (st : kahn_state)
    : option kahn_state :=
  match queue st with
  | [] => None
  | current_team_key :: rest =>
      let s := foldl relax (in_degree st, rest) (default [] (adj !! current_team_key)) in
      Some (KahnState s.1 s.2 (sorted_list st ++ [current_team_key]))
  end.

Fixpoint loop (fuel : nat) (adj : gmap string (list string)) (st : kahn_state)
    : kahn_state :=
  match fuel with
  | O => st
  | S fuel' =>
      match visit adj st with
      | None => st
      | Some st' => loop fuel' adj st'
      end
  end.

(** The state before the first iteration: the queue holds the keys of
    in-degree zero in the order of [in_degree.items()]. *)
Definition initial_state (deg : gmap string Z) : kahn_state :=
  KahnState deg
    (filter (λ key, deg !! key = Some 0) (keys team_configs))
    [].

(** The state after the loop.  Every iteration appends one key to
    [sorted_list], so [length team_configs] iterations are enough
    ([loop_fuel_enough]). *)
Definition run_loop : kahn_state :=
  loop (length team_configs) build_graph.1 (initial_state build_graph.2).

Definition positive_degree (deg : gmap string Z) (key : string) : Prop :=
  ∃ d, deg !! key = Some d ∧ 0 < d.

Global Instance positive_degree_dec deg key : Decision (positive_degree deg key).
Proof.
  unfold positive_degree. destruct (deg !! key) as [d|].
  - destruct (decide (0 < d)); [left; eauto | right; intros (? & [= <-] & ?); lia].
  - right. intros (? & [=] & _).
Defined.

Definition _topological_sort : sort_result :=
  let st := run_loop in
  if decide (length (sorted_list st) = length team_configs)
  then Sorted (sorted_list st)
  else ValueError (list_to_set
         (filter (positive_degree (in_degree st)) (keys team_configs))).

End Resolver.

(** *** The team-to-team member graph

    [depends cfg t d]: the definition of team [t] lists [d] as a member
    and [d] is itself a team key. *)

Definition depends (team_configs : list (string * team_config)) (t d : string) : Prop :=
  ∃ c, dict_get team_configs t = Some c ∧ d ∈ members c ∧ d ∈ keys team_configs.

Definition acyclic (team_configs : list (string * team_config)) : Prop :=
  ∀ k, ¬ tc (depends team_configs) k k.

Definition cyclic (team_configs : list (string * team_config)) : Prop :=
  ∃ k, tc (depends team_configs) k k.

(** [k] is on a cycle, or depends (through any number of teams) on a key
    that is on one. *)
Definition behind_cycle (team_configs : list (string * team_config)) (k : string) : Prop :=
  ∃ c, rtc (depends team_configs) k c ∧ tc (depends team_configs) c c.

(** *** The participants built by the agent runtime

    [Agent(...)] and [Team(...)] are constructors of the external runtime;
    a participant is the tree of the arguments it was built from.  Every
    such object is truthy in Python. *)

Inductive tool := ThinkingTools | ExaTools.

Record model := Model { model_id : string }.

#[warnings="-register-all"]
Inductive participant :=
  | Agent (name role descr : string) (agent_tools : list tool) (m : model)
      (instr : option string)
  | Team (name : option string) (team_members : list participant) (m : model)
      (descr instr criteria : option string).

(** An agent definition of [agents.json].  [role] and [description] are
    read with [agent_config["role"]] and [agent_config["description"]]:
    the record has them as mandatory fields, as [agent_required_fields]
    of the tool layer demands. *)
Record agent_config := AgentConfig {
  agent_name : option string;
  role : string;
  agent_description : string;
  tools : list string;
  agent_instructions : option string
}.

Record factory := Factory {
  agent_model : model;
  team_model : model;
  tool_map : gmap string tool
}.

(** The fields of [ApplicationContext] that the rebuild reads and writes. *)
Record ApplicationContext := AppContext {
  app_factory : option factory;
  agents : gmap string agent_config;
  teams_config : list (string * team_config);
  teams : gmap string participant
}.

Definition set_teams (self : ApplicationContext) (t : gmap string participant)
    : ApplicationContext :=
  AppContext (app_factory self) (agents self) (teams_config self) t.

(** Lines 134-140: the agent participant of a member key. *)
Definition make_agent (f : factory) (member_key : string) (agent_config : agent_config)
    : participant :=
  Agent (default member_key (agent_name agent_config))
        (role agent_config) (agent_description agent_config)
        (omap (λ t, tool_map f !! t) (tools agent_config))
        (agent_model f) (agent_instructions agent_config).

(** The [for member_key in ...] loop of [_create_team_instance], lines
    126-143; [None] is the [return None] of line 132. *)
Fixpoint resolve_members (self : ApplicationContext) (f : factory)
    (member_keys : list string) (members : list participant)
    : option (list participant) :=
  match member_keys with
  | [] => Some members
  | member_key :: rest =>
      if decide (member_key ∈ keys (teams_config self)) then
        match teams self !! member_key with
        | Some t => resolve_members self f rest (members ++ [t])
        | None => None
        end
      else
        match agents self !! member_key with
        | Some agent_config =>
            resolve_members self f rest (members ++ [make_agent f member_key agent_config])
        | None => resolve_members self f rest members
        end
  end.

Definition empty_config : team_config := TeamConfig None None [] None None.

Definition _create_team_instance (self : ApplicationContext) (team_key : string)
    : option participant :=
  match app_factory self with
  | None => None
  | Some f =>
      let team_config := default empty_config (dict_get (teams_config self) team_key) in
      match resolve_members self f (members team_config) [] with
      | None => None
      | Some ms =>
          match ms, members team_config with
          | [], _ :: _ => None
          | _, _ =>
              Some (Team (team_name team_config) ms (team_model f)
                         (description team_config) (instructions team_config)
                         (success_criteria team_config))
          end
      end
  end.

(** Lines 170-176: one iteration of the build loop. *)
Definition build_step (self : ApplicationContext) (team_key : string)
    : ApplicationContext :=
  match _create_team_instance self team_key with
  | Some team_instance => set_teams self (<[team_key := team_instance]> (teams self))
  | None => self
  end.

Section Rebuild.

Variable set_order : list string → list string.

(** [reinitialize_teams]: the returned boolean and the context after
    the call. *)
Definition reinitialize_teams (self : ApplicationContext)
    : bool * ApplicationContext :=
  match app_factory self with
  | None => (false, self)
  | Some _ =>
      let self1 := set_teams self ∅ in
      match teams_config self with
      | [] => (true, self1)
      | _ :: _ =>
          match _topological_sort set_order (teams_config self) with
          | ValueError _ => (false, self1)
          | Sorted sorted_team_keys =>
              (true, foldl build_step self1 sorted_team_keys)
          end
      end
  end.

End Rebuild.

(** ** Notions in which the properties of the rebuild are stated *)

(** The distinct team keys among the members of [t]: the elements of the
    set [dependencies] of line 184. *)
Definition deps (team_configs : list (string * team_config)) (t : string) : list string :=
  remove_dups (filter (λ m, m ∈ keys team_configs)
                 (members (default empty_config (dict_get team_configs t)))).

(** The dependencies of [t] that are not among the keys [popped]. *)
Definition pending (team_configs : list (string * team_config))
    (popped : list string) (t : string) : list string :=
  filter (λ d, d ∉ popped) (deps team_configs t).

(** The keys of [items] whose definition lists the team key [d], in the
    order of [items]. *)
Definition dependents_in (team_configs items : list (string * team_config))
    (d : string) : list string :=
  (filter (λ it, d ∈ members it.2 ∧ d ∈ keys team_configs) items).*1.

(** The invariant of the [while queue:] loop: no key is queued or sorted
    twice, [in_degree] counts the dependencies that were not popped yet,
    the keys queued or sorted are those with no such dependency left, and
    every sorted key comes after its dependencies. *)
Record inv (team_configs : list (string * team_config)) (st : kahn_state) : Prop := Inv {
  inv_nodup : NoDup (sorted_list st ++ queue st);
  inv_keys : ∀ k, k ∈ sorted_list st ++ queue st → k ∈ keys team_configs;
  inv_deg : ∀ k, k ∈ keys team_configs →
    in_degree st !! k
    = Some (Z.of_nat (length (pending team_configs (sorted_list st) k)));
  inv_ready : ∀ k, k ∈ keys team_configs →
    k ∈ sorted_list st ++ queue st ↔ pending team_configs (sorted_list st) k = [];
  inv_topo : ∀ l1 k l2, sorted_list st = l1 ++ k :: l2 →
    ∀ d, depends team_configs k d → d ∈ l1
}.

(** Every team of [l] comes after the teams it depends on. *)
Definition topological (team_configs : list (string * team_config)) (l : list string)
    : Prop :=
  ∀ before t after, l = before ++ t :: after →
    ∀ d, depends team_configs t d → d ∈ before.

(** The participant that a member key resolves to, if any. *)
Definition resolve (self : ApplicationContext) (f : factory) (member_key : string)
    : option participant :=
  if decide (member_key ∈ keys (teams_config self))
  then teams self !! member_key
  else make_agent f member_key <$> agents self !! member_key.

(** [member_key] matches a team definition or an agent definition. *)
Definition defined (self : ApplicationContext) (member_key : string) : Prop :=
  member_key ∈ keys (teams_config self) ∨ is_Some (agents self !! member_key).

Global Instance defined_dec self m : Decision (defined self m).
Proof. unfold defined. apply _. Defined.

Definition config_of (self : ApplicationContext) (team_key : string) : team_config :=
  default empty_config (dict_get (teams_config self) team_key).

(** The [Team(...)] of lines 149-153 for the members [ms]. *)
Definition team_of (f : factory) (c : team_config) (ms : list participant) : participant :=
  Team (team_name c) ms (team_model f) (description c) (instructions c)
       (success_criteria c).

(** The team keys among [member_keys] have an entry in the registry. *)
Definition team_members_built (self : ApplicationContext) (member_keys : list string)
    : Prop :=
  ∀ m, m ∈ member_keys → m ∈ keys (teams_config self) → is_Some (teams self !! m).

(** The registry [reg] holds for each team key what
    [_create_team_instance] returns for it on [reg] itself, and nothing
    else. *)
Definition built (self : ApplicationContext) (reg : gmap string participant) : Prop :=
  (∀ k, k ∈ keys (teams_config self) →
     reg !! k = _create_team_instance (set_teams self reg) k)
  ∧ (∀ k, k ∉ keys (teams_config self) → reg !! k = None).

(** A test for acyclicity on a concrete mapping: [rank] decreases along
    every team-to-team member edge. *)
Definition ranked (rank : string → nat) (cfg : list (string * team_config)) : bool :=
  forallb (λ it : string * team_config,
     forallb (λ d, bool_decide (d ∈ keys cfg → (rank d < rank it.1)%nat)) (members it.2))
    cfg.

Definition rank_of (order : list string) (k : string) : nat :=
  default 0%nat (fst <$> list_find (λ x, x = k) order).

(** ** The statements of the specification that the code does not meet *)


(** "On cycle detection leave the previous registry in place and report
    failure." *)
Definition cycle_keeps_registry (set_order : list string → list string)
    (self : ApplicationContext) : Prop :=
  cyclic (teams_config self) →
  (reinitialize_teams set_order self).1 = false
  ∧ teams (reinitialize_teams set_order self).2 = teams self.

(** "If a member key matches neither a team nor an agent definition ...
    do not include a partial team in the registry for that key." *)
Definition missing_member_fails (set_order : list string → list string)
    (self : ApplicationContext) : Prop :=
  ∀ t c m, dict_get (teams_config self) t = Some c → m ∈ members c →
    ¬ defined self m →
    teams (reinitialize_teams set_order self).2 !! t = None.

(** ** Concrete configurations *)

Local Open Scope string_scope.

Definition members_only (ms : list string) : team_config :=
  TeamConfig None None ms None None.

Definition sample_factory : factory :=
  Factory (Model "deepseek-chat") (Model "deepseek-chat")
    (<["ThinkingTools" := ThinkingTools]> (<["ExaTools" := ExaTools]> ∅)).

Definition writer : agent_config :=
  AgentConfig (Some "Writer") "writer" "drafts the text" ["ExaTools"; "Abacus"] None.

Definition chain_configs : list (string * team_config) :=
  [("A", members_only ["B"]); ("B", members_only []); ("C", members_only [])].

Definition loop_configs : list (string * team_config) :=
  [("A", members_only ["B"; "x"; "B"]); ("B", members_only ["C"]);
   ("C", members_only ["B"]); ("D", members_only [])].

Definition nested_configs : list (string * team_config) :=
  [("top", members_only ["mid"; "A1"]); ("mid", members_only ["leaf"]);
   ("leaf", members_only ["ghost"]); ("solo", members_only ["A1"; "ghost"])].

Definition nested_app : ApplicationContext :=
  AppContext (Some sample_factory) (<["A1" := writer]> ∅) nested_configs ∅.

Definition self_loop_app : ApplicationContext :=
  AppContext (Some sample_factory) (<["A1" := writer]> ∅)
    [("T1", members_only ["T1"])]
    (<["T1" := Team None [] (Model "deepseek-chat") None None None]> ∅).

(** [chain_configs] with agents, an undefined key and a repeated member
    added to the definitions. *)
Definition chain_configs_with_agents : list (string * team_config) :=
  [("A", members_only ["A1"; "B"; "ghost"; "B"]); ("B", members_only ["A1"]);
   ("C", members_only ["ghost"])].

Local Close Scope string_scope.

(** A second order of visiting a set: the reverse of the first. *)
Definition reversed_order (l : list string) : list string := reverse (remove_dups l).

End Teams.

(** * The session store ([session_manager.py]) *)

Module Sessions.

(** ** Strings, JSON documents and the session directory

    [_get_path] inspects the characters of the identifier, so a Python
    [str] is here the list of its code points. *)

Abbreviation char := N (only parsing).
Abbreviation str := (list N) (only parsing).

Definition lit (s : string) : str := N_of_ascii <$> String.list_ascii_of_string s.

Definition str_eqb (a b : str) : bool := bool_decide (a = b).

(** [needle in haystack] on two strings. *)
Fixpoint str_prefix (p s : str) : bool :=
  match p, s with
  | [], _ => true
  | a :: p', b :: s' => (a =? b)%N && str_prefix p' s'
  | _ :: _, [] => false
  end.

Fixpoint str_contains (needle haystack : str) : bool :=
  str_prefix needle haystack ||
  match haystack with
  | [] => false
  | _ :: rest => str_contains needle rest
  end.

(** What [json.load] returns.  Of the JSON numbers only the integers
    are represented; no function of the session store computes with
    them. *)
#[warnings="-register-all"]
Inductive json :=
  | JNull
  | JBool (b : bool)
  | JNum (n : Z)
  | JStr (s : str)
  | JArr (items : list json)
  | JObj (fields : list (str * json)).

(** The content of a file of the session directory, as [json.load] sees
    it: a document; bytes that it rejects with [JSONDecodeError]; or a
    JSON text nested deeper than the decoder's recursion limit, for which
    it raises [RecursionError].  [json.dump] followed by [json.load]
    gives back the document. *)
Inductive file :=
  | Document (doc : json)
  | Garbage
  | TooDeep.

Inductive exn :=
  | JSONDecodeError
  | IOError
  | ValueError
  | TypeError
  | KeyError
  | RecursionError.

(** What [datetime.fromisoformat] returns: an instant in microseconds
    since the epoch, with a UTC offset ([Aware]) or without ([Naive]). *)
Inductive datetime :=
  | Aware (t : Z)
  | Naive (t : Z).

(** [timedelta(hours=24)], in microseconds. *)
Definition expiration_duration : Z := 24 * 3600 * 1000000.

(** Truth value of a JSON value in a Python condition. *)
Definition truthy (j : json) : bool :=
  match j with
  | JNull => false
  | JBool b => b
  | JNum n => negb (n =? 0)
  | JStr s => match s with [] => false | _ => true end
  | JArr l => match l with [] => false | _ => true end
  | JObj d => match d with [] => false | _ => true end
  end.

Definition is_str (key : str) (j : json) : bool :=
  match j with
  | JStr s => str_eqb s key
  | _ => false
  end.

(** [key in j] for a string [key]. *)
Definition contains (key : str) (j : json) : exn + bool :=
  match j with
  | JObj d => inr (bool_decide (key ∈ keys d))
  | JArr l => inr (existsb (is_str key) l)
  | JStr s => inr (str_contains key s)
  | _ => inl TypeError
  end.

(** [j[key]] for a string [key]. *)
Definition getitem (key : str) (j : json) : exn + json :=
  match j with
  | JObj d => match dict_get d key with Some v => inr v | None => inl KeyError end
  | _ => inl TypeError
  end.

(** [now - created_at] for the aware [now]. *)
Definition elapsed (now : Z) (created_at : datetime) : exn + Z :=
  match created_at with
  | Aware t => inr (now - t)
  | Naive _ => inl TypeError
  end.

(** ASCII part of [str.isalnum]. *)
Definition ascii_isalnum (c : char) : bool :=
  ((48 <=? c) && (c <=? 57) || (65 <=? c) && (c <=? 90) || (97 <=? c) && (c <=? 122))%N.





(** The number of bytes of a character in UTF-8. *)
Definition utf8_length (c : char) : N :=
  (if c <? 128 then 1 else if c <? 2048 then 2 else if c <? 65536 then 3 else 4)%N.

(** [NAME_MAX], the longest file name of the Linux file systems, in
    bytes: [open] raises [OSError] (file name too long) beyond it. *)
Definition name_max : N := 255.

Definition name_fits (name : str) : bool :=
  (foldr (λ c n, utf8_length c + n) 0 name <=? name_max)%N.

(** The code points that UTF-8 does not encode: the surrogates. *)
Definition surrogate (c : char) : bool := ((55296 <=? c) && (c <=? 57343))%N.

Definition utf8_text (s : str) : bool := forallb (λ c, negb (surrogate c)) s.

(** The documents that [json.dump] with [ensure_ascii=False] can write
    to a file opened with [encoding='utf-8']: no key and no string holds
    a surrogate (the write of one raises [UnicodeEncodeError]). *)
Fixpoint encodable (j : json) : bool :=
  match j with
  | JNull | JBool _ | JNum _ => true
  | JStr s => utf8_text s
  | JArr items => forallb encodable items
  | JObj fields => forallb (λ kv, utf8_text kv.1 && encodable kv.2) fields
  end.

Section SessionManager.

(** [str.isalnum] of one character outside ASCII (a table of the
    Unicode database). *)
Variable unicode_isalnum : char → bool.

(** [datetime.isoformat] of the aware UTC instant [t], and
    [datetime.fromisoformat] ([None]: it raises [ValueError]). *)
Variable isoformat : Z → str.
Variable fromisoformat : str → option datetime.

Definition isalnum (c : char) : bool :=
  if (c <? 128)%N then ascii_isalnum c else unicode_isalnum c.

(** [c.isalnum() or c in '-_'] *)
Definition id_char (c : char) : bool :=
  isalnum c || bool_decide (c ∈ lit "-_").

Definition _get_path (session_id : str) : exn + str :=
  if forallb id_char session_id
  then inr (lit "session-" ++ session_id ++ lit ".json")
  else inl ValueError.

(** [datetime.fromisoformat(v)] for a JSON value [v]. *)
Definition parse_created_at (v : json) : exn + datetime :=
  match v with
  | JStr s => match fromisoformat s with Some d => inr d | None => inl ValueError end
  | _ => inl TypeError
  end.

(** Lines 34-44, the body of the inner [try] for one file: [inr true]
    when the body unlinks the file, [inr false] when it keeps it. *)
Definition inspect (now : Z) (f : option file) : exn + bool :=
  match f with
  | None => inl IOError
  | Some Garbage => inl JSONDecodeError
  | Some TooDeep => inl RecursionError
  | Some (Document session_data) =>
      if truthy session_data then
        match contains (lit "created_at") session_data with
        | inl e => inl e
        | inr false => inr true
        | inr true =>
            match getitem (lit "created_at") session_data with
            | inl e => inl e
            | inr v =>
                match parse_created_at v with
                | inl e => inl e
                | inr created_at =>
                    match elapsed now created_at with
                    | inl e => inl e
                    | inr age => inr (expiration_duration <? age)
                    end
                end
            end
        end
      else inr true
  end.

(** [except (json.JSONDecodeError, IOError, ValueError)] of the sweep. *)
Definition inner_handler (e : exn) : bool :=
  match e with
  | JSONDecodeError | IOError | ValueError => true
  | _ => false
  end.

(** [_cleanup_old_sessions]: [files] is what [glob("session-*.json")]
    yields, in its order; the result is the directory after the sweep.
    An exception that the inner handler does not list reaches the outer
    [except Exception], which ends the sweep.  A listed name with no
    file makes [open] and then [unlink] raise, with the same end. *)
Fixpoint _cleanup_old_sessions (now : Z) (files : list str) (dir : gmap str file)
    : gmap str file :=
  match files with
  | [] => dir
  | session_file :: rest =>
      match inspect now (dir !! session_file) with
      | inr true => _cleanup_old_sessions now rest (delete session_file dir)
      | inr false => _cleanup_old_sessions now rest dir
      | inl e =>
          if inner_handler e && bool_decide (is_Some (dir !! session_file))
          then _cleanup_old_sessions now rest (delete session_file dir)
          else dir
      end
  end.

(** [save_session]: the directory after the call, or the exception that
    the handler logs and raises again.  [open] raises [OSError] for a
    file name over [name_max] bytes.  The write of the document itself
    is taken to succeed, as it does for an [encodable] document within
    the nesting depth that the encoder reaches (for a string with a
    surrogate [json.dump] raises [UnicodeEncodeError] and leaves the
    file cut off): the round trip of a document through [save_session]
    and [load_session] is stated for [encodable] documents only. *)
Definition save_session (dir : gmap str file) (session_id : str) (data : json)
    : exn + gmap str file :=
  match _get_path session_id with
  | inl e => inl e
  | inr path =>
      if name_fits path then inr (<[path := Document data]> dir)
      else inl IOError
  end.

(** The body of the [try] of [load_session].  The value returned is the
    one of [json.load]: for the document [null] this is Python's [None],
    the value that is also returned for a missing file. *)
Definition load_body (dir : gmap str file) (session_id : str) : exn + option json :=
  match _get_path session_id with
  | inl e => inl e
  | inr path =>
      match dir !! path with
      | None => inr None
      | Some Garbage => inl JSONDecodeError
      | Some TooDeep => inl RecursionError
      | Some (Document JNull) => inr None
      | Some (Document d) => inr (Some d)
      end
  end.

(** [load_session]: [except (json.JSONDecodeError, IOError, ValueError)]
    logs and returns [None]; any other exception reaches the caller. *)
Definition load_session (dir : gmap str file) (session_id : str) : exn + option json :=
  match load_body dir session_id with
  | inl JSONDecodeError | inl IOError | inl ValueError => inr None
  | r => r
  end.





End SessionManager.

(** *** A reference instance of the library functions *)



Definition days_from_civil (y m d : Z) : Z :=
  let y := if m <=? 2 then y - 1 else y in
  let era := y / 400 in
  let yoe := y - era * 400 in
  let doy := (153 * (if 2 <? m then m - 3 else m + 9) + 2) / 5 + d - 1 in
  let doe := yoe * 365 + yoe / 4 - yoe / 100 + doy in
  era * 146097 + doe - 719468.


(** The number that a string of decimal digits denotes. *)
Fixpoint number (acc : Z) (s : str) : option Z :=
  match s with
  | [] => Some acc
  | c :: s' =>
      if ((48 <=? c) && (c <=? 57))%N
      then number (10 * acc + (Z.of_N c - 48)) s'
      else None
  end.

Definition field (s : str) (start len : nat) : option Z :=
  let part := take len (drop start s) in
  if decide (length part = len) then number 0 part else None.

(** The instant of the date and time at the front of [s], and what
    follows them. *)
Definition parse_instant (s : str) : option (Z * str) :=
  y ← field s 0 4; m ← field s 5 2; d ← field s 8 2;
  h ← field s 11 2; mi ← field s 14 2; sec ← field s 17 2;
  if negb (str_eqb (take 1 (drop 4 s)) (lit "-") && str_eqb (take 1 (drop 7 s)) (lit "-")
           && str_eqb (take 1 (drop 10 s)) (lit "T")
           && str_eqb (take 1 (drop 13 s)) (lit ":")
           && str_eqb (take 1 (drop 16 s)) (lit ":")
           && (1 <=? m) && (m <=? 12) && (1 <=? d) && (d <=? 31)
           && (h <? 24) && (mi <? 60) && (sec <? 60))
  then None
  else
    let whole := (days_from_civil y m d * 86400 + h * 3600 + mi * 60 + sec) * 1000000 in
    if str_eqb (take 1 (drop 19 s)) (lit ".")
    then us ← field s 20 6; Some (whole + us, drop 26 s)
    else Some (whole, drop 19 s).

(** [datetime.fromisoformat] on the strings that [isoformat] emits for a
    UTC or a naive datetime; other strings are rejected. *)
Definition utc_fromisoformat (s : str) : option datetime :=
  '(t, rest) ← parse_instant s;
  if str_eqb rest (lit "+00:00") then Some (Aware t)
  else if str_eqb rest [] then Some (Naive t)
  else None.

Definition ascii_only (c : char) : bool := false.

(** ** The statements of the specification that the code does not meet,
    and concrete directories *)

Definition load_rejects_invalid_id (unicode_isalnum : char → bool) : Prop :=
  ∀ dir session_id c, c ∈ session_id → id_char unicode_isalnum c = false →
    load_session unicode_isalnum dir session_id = inl ValueError.

Definition empty_id_not_found (unicode_isalnum : char → bool) : Prop :=
  ∀ dir, load_session unicode_isalnum dir [] = inr None.



Definition null_timestamp : json := JObj [(lit "created_at", JNull)].

Definition old_session : json :=
  JObj [(lit "session_id", JStr (lit "b")); (lit "status", JStr (lit "active"));
        (lit "created_at", JStr (lit "2020-01-01T00:00:00+00:00"));
        (lit "history", JArr [])].

Definition naive_session : json :=
  JObj [(lit "created_at", JStr (lit "2020-01-01T00:00:00"))].

Definition sample_dir : gmap str file :=
  <[lit "session-a.json" := Document null_timestamp]>
    (<[lit "session-b.json" := Document old_session]>
       (<[lit "session-c.json" := Document naive_session]> ∅)).

(** 2024-11-03T17:26:00.123456+00:00 *)
Definition sample_now : Z := 1730654760123456.

(** The file of a valid identifier. *)
Definition session_path (session_id : str) : str :=
  lit "session-" ++ session_id ++ lit ".json".

(** A session created one minute before [sample_now]. *)
Definition fresh_session : json :=
  JObj [(lit "session_id", JStr (lit "d")); (lit "status", JStr (lit "active"));
        (lit "created_at", JStr (lit "2024-11-03T17:25:00.123456+00:00"));
        (lit "history", JArr [])].

(** [sample_dir] with the fresh session [session-d.json] and an
    unreadable [session-e.json]. *)
Definition busy_dir : gmap str file :=
  <[lit "session-d.json" := Document fresh_session]>
    (<[lit "session-e.json" := Garbage]> sample_dir).

(** The body of the sweep handles the file: it decides to keep or to
    unlink it, or raises an exception of the inner handler. *)
Definition handled (fromisoformat : str → option datetime) (now : Z) (f : option file)
    : Prop :=
  is_Some f ∧ ∀ e, inspect fromisoformat now f = inl e → inner_handler e = true.

End Sessions.

(** * The team and agent tools ([main.py]) on data of the classes of the schemas

    The tools return a JSON text with either an [error] or a [status]
    entry; [reply] keeps which of the return statements was taken.  The
    files [teams.json] and [agents.json] are what [_save_data_to_file]
    wrote last; writing is taken to succeed.

    In this module the stored definitions are the records of [Teams]
    and a payload is a record over the keys of its schema: the tools are
    followed on the calls whose values are of the classes that
    [team_schema] and [agent_schema] name.  The code does not check
    these classes; module [RawTools] below follows the tools on any
    payload, and on payloads of the classes of the schemas its tools are
    proved to be the ones of this module. *)

Module Tools.
Import Teams.

Inductive reply :=
  | Success
  | AlreadyExists
  | MissingFields
  | NotFound
  | RolledBack.

Record server := Server {
  app : ApplicationContext;
  teams_json : list (string * team_config);
  agents_json : gmap string agent_config
}.

(** The [data] argument of [create_team] and [update_team] when its
    values are of the classes of [team_schema]: for each key of the
    schema, [None] when the key is absent; a string entry may be [null].
    Entries with other keys, which no function reads, are left out.  A
    payload with a value of another class ([members] that is [null], a
    number, a string) has no [team_data]: see [RawTools]. *)
Record team_data := TeamData {
  given_team_name : option (option string);
  given_description : option (option string);
  given_members : option (list string);
  given_instructions : option (option string);
  given_success_criteria : option (option string)
}.

(** The [data] argument of [create_agent] and [update_agent], in the
    same way over [agent_schema]; a payload with [tools] of another class
    than a list of strings has no [agent_data]. *)
Record agent_data := AgentData {
  given_name : option string;
  given_role : option string;
  given_agent_description : option string;
  given_tools : option (list string);
  given_agent_instructions : option (option string)
}.

(** The definition that [teams_config[team_key] = data] stores. *)
Definition team_of_data (data : team_data) : team_config :=
  TeamConfig (mjoin (given_team_name data)) (mjoin (given_description data))
    (default [] (given_members data)) (mjoin (given_instructions data))
    (mjoin (given_success_criteria data)).

(** [config.update(data)] *)
Definition update_team_config (c : team_config) (data : team_data) : team_config :=
  TeamConfig (default (team_name c) (given_team_name data))
    (default (description c) (given_description data))
    (default (members c) (given_members data))
    (default (instructions c) (given_instructions data))
    (default (success_criteria c) (given_success_criteria data)).

(** [agent_config.update(data)] *)
Definition update_agent_config (a : agent_config) (data : agent_data) : agent_config :=
  AgentConfig (match given_name data with Some n => Some n | None => agent_name a end)
    (default (role a) (given_role data))
    (default (agent_description a) (given_agent_description data))
    (default (tools a) (given_tools data))
    (default (agent_instructions a) (given_agent_instructions data)).

Definition set_teams_config (self : ApplicationContext)
    (cfg : list (string * team_config)) : ApplicationContext :=
  AppContext (app_factory self) (agents self) cfg (teams self).

Definition set_agents (self : ApplicationContext) (a : gmap string agent_config)
    : ApplicationContext :=
  AppContext (app_factory self) a (teams_config self) (teams self).

(** [app.save_teams_config()] and [app.save_agents()] *)
Definition save_teams_config (self : ApplicationContext) (s : server) : server :=
  Server self (teams_config self) (agents_json s).

Definition save_agents (self : ApplicationContext) (s : server) : server :=
  Server self (teams_json s) (agents self).

(** [app.get_running_team(team_key)] *)
Definition get_running_team (self : ApplicationContext) (team_key : string)
    : option participant :=
  teams self !! team_key.

Section TeamTools.

Variable set_order : list string → list string.

(** [create_team], lines 271-291. *)
Definition create_team (s : server) (team_key : string) (data : team_data)
    : reply * server :=
  if decide (team_key ∈ keys (teams_config (app s))) then (AlreadyExists, s)
  else
    match given_team_name data, given_members data with
    | Some _, Some _ =>
        let app1 := set_teams_config (app s)
                      (dict_set (teams_config (app s)) team_key (team_of_data data)) in
        let s1 := save_teams_config app1 s in
        let r := reinitialize_teams set_order app1 in
        if r.1 then (Success, Server r.2 (teams_json s1) (agents_json s1))
        else
          let app2 := set_teams_config r.2 (dict_del (teams_config r.2) team_key) in
          (RolledBack, save_teams_config app2 s1)
    | _, _ => (MissingFields, s)
    end.

(** [update_team], lines 318-333. *)
Definition update_team (s : server) (team_key : string) (data : team_data)
    : reply * server :=
  match dict_get (teams_config (app s)) team_key with
  | None => (NotFound, s)
  | Some original_config =>
      let app1 := set_teams_config (app s)
                    (dict_set (teams_config (app s)) team_key
                       (update_team_config original_config data)) in
      let s1 := save_teams_config app1 s in
      let r := reinitialize_teams set_order app1 in
      if r.1 then (Success, save_teams_config r.2 s1)
      else
        let app2 := set_teams_config r.2
                      (dict_set (teams_config r.2) team_key original_config) in
        let s2 := save_teams_config app2 s1 in
        let r' := reinitialize_teams set_order app2 in
        (RolledBack, Server r'.2 (teams_json s2) (agents_json s2))
  end.

(** [delete_team], lines 336-344. *)
Definition delete_team (s : server) (team_key : string) : reply * server :=
  if decide (team_key ∈ keys (teams_config (app s))) then
    let app1 := set_teams_config (app s) (dict_del (teams_config (app s)) team_key) in
    let s1 := save_teams_config app1 s in
    let r := reinitialize_teams set_order app1 in
    (Success, Server r.2 (teams_json s1) (agents_json s1))
  else (NotFound, s).

(** [create_agent], lines 216-231. *)
Definition create_agent (s : server) (agent_key : string) (data : agent_data)
    : reply * server :=
  match agents (app s) !! agent_key with
  | Some _ => (AlreadyExists, s)
  | None =>
      match given_name data, given_role data, given_agent_description data with
      | Some n, Some r, Some d =>
          let agent := AgentConfig (Some n) r d (default [] (given_tools data))
                         (mjoin (given_agent_instructions data)) in
          let app1 := set_agents (app s) (<[agent_key := agent]> (agents (app s))) in
          let s1 := save_agents app1 s in
          let r := reinitialize_teams set_order app1 in
          (Success, Server r.2 (teams_json s1) (agents_json s1))
      | _, _, _ => (MissingFields, s)
      end
  end.

(** [update_agent], lines 249-257. *)
Definition update_agent (s : server) (agent_key : string) (data : agent_data)
    : reply * server :=
  match agents (app s) !! agent_key with
  | None => (NotFound, s)
  | Some a =>
      let app1 := set_agents (app s)
                    (<[agent_key := update_agent_config a data]> (agents (app s))) in
      let s1 := save_agents app1 s in
      let r := reinitialize_teams set_order app1 in
      (Success, Server r.2 (teams_json s1) (agents_json s1))
  end.

(** [delete_agent], lines 260-268. *)
Definition delete_agent (s : server) (agent_key : string) : reply * server :=
  match agents (app s) !! agent_key with
  | None => (NotFound, s)
  | Some _ =>
      let app1 := set_agents (app s) (delete agent_key (agents (app s))) in
      let s1 := save_agents app1 s in
      let r := reinitialize_teams set_order app1 in
      (Success, Server r.2 (teams_json s1) (agents_json s1))
  end.


(** A call of one of the tools. *)
Inductive call :=
  | CreateTeam (team_key : string) (data : team_data)
  | UpdateTeam (team_key : string) (data : team_data)
  | DeleteTeam (team_key : string)
  | CreateAgent (agent_key : string) (data : agent_data)
  | UpdateAgent (agent_key : string) (data : agent_data)
  | DeleteAgent (agent_key : string).

Definition run (s : server) (c : call) : reply * server :=
  match c with
  | CreateTeam k d => create_team s k d
  | UpdateTeam k d => update_team s k d
  | DeleteTeam k => delete_team s k
  | CreateAgent k d => create_agent s k d
  | UpdateAgent k d => update_agent s k d
  | DeleteAgent k => delete_agent s k
  end.

(** The server after a sequence of calls. *)
Definition run_all (s : server) (calls : list call) : server :=
  foldl (λ s c, (run s c).2) s calls.

End TeamTools.

Local Open Scope string_scope.

(** The server after start-up on [nested_app]. *)
Definition sample_server : server :=
  Server (reinitialize_teams remove_dups nested_app).2 nested_configs
    (agents nested_app).

Definition review_team : team_data :=
  TeamData (Some (Some "Review")) None (Some ["solo"; "A1"]) None None.

(** New members for [leaf] that close the cycle [leaf, top, mid]. *)
Definition leaf_on_top : team_data :=
  TeamData None None (Some ["top"]) None None.

Definition ghost_agent : agent_data :=
  AgentData (Some "Ghost") (Some "reviewer") (Some "reads the drafts") None None.


Local Close Scope string_scope.

End Tools.

(** * The team and agent tools on unchecked data ([main.py], [app_context.py])

    [create_team], [update_team], [create_agent] and [update_agent]
    store the dictionary they are given without a look at its values,
    and the rebuild computes with what is stored.  In this module a
    definition is any JSON value, and an operation of Python on a value
    of another class than the code expects raises as Python does; the
    exception leaves [reinitialize_teams] and the tool (only the
    [ValueError] of the resolver is caught).  Module [Tools] is the
    reading of this module on definitions and payloads of the classes of
    the schemas of [main.py].  The [data] argument is a dictionary (the
    annotation [data: dict]) with string keys; a [string] stands for the
    Python string of its characters (code points below 256), so that the
    iteration of a string yields its characters; of the JSON numbers
    only the integers are represented; the constructors of the agent
    runtime keep the values they are given; writing the two files is
    taken to succeed. *)

Module RawTools.

#[warnings="-register-all"]
Inductive value :=
  | VNull
  | VBool (b : bool)
  | VNum (n : Z)
  | VStr (s : string)
  | VList (items : list value)
  | VDict (entries : list (string * value)).

Inductive error := TypeError | AttributeError | KeyError.

Definition bind {A B} (m : error + A) (k : A → error + B) : error + B :=
  match m with
  | inl e => inl e
  | inr a => k a
  end.

Notation "'let*' x := m 'in' k" := (bind m (λ x, k))
  (at level 10, x name, m at level 100, k at level 200, only parsing).

(** Truth value in a condition. *)
Definition truthy (v : value) : bool :=
  match v with
  | VNull => false
  | VBool b => b
  | VNum n => negb (n =? 0)
  | VStr s => negb (String.eqb s "")
  | VList items => match items with [] => false | _ => true end
  | VDict entries => match entries with [] => false | _ => true end
  end.

(** [d.get(key, default)]: [get] is a method of [dict] only. *)
Definition get (d : value) (key : string) (default : value) : error + value :=
  match d with
  | VDict entries => inr (from_option id default (dict_get entries key))
  | _ => inl AttributeError
  end.

(** [d[key]] for a string [key]. *)
Definition getitem (d : value) (key : string) : error + value :=
  match d with
  | VDict entries =>
      match dict_get entries key with
      | Some v => inr v
      | None => inl KeyError
      end
  | _ => inl TypeError
  end.

(** The values that [for x in v] yields: the items of a list, the
    characters of a string, the keys of a dictionary. *)
Definition iterate (v : value) : error + list value :=
  match v with
  | VList items => inr items
  | VStr s => inr ((λ c, VStr (String c EmptyString)) <$> String.list_ascii_of_string s)
  | VDict entries => inr (VStr <$> keys entries)
  | VNull | VBool _ | VNum _ => inl TypeError
  end.

(** [v in d] and [d.get(v)] for a dictionary [d] with string keys hash
    [v]: a list or a dictionary is unhashable, a string may be a key,
    any other value is a key of no such dictionary. *)
Definition as_key (v : value) : error + option string :=
  match v with
  | VStr s => inr (Some s)
  | VList _ | VDict _ => inl TypeError
  | VNull | VBool _ | VNum _ => inr None
  end.

(** What [Agent(...)] and [Team(...)] were built from. *)
#[warnings="-register-all"]
Inductive object :=
  | RawAgent (name role description : value) (tools : list Teams.tool)
      (m : Teams.model) (instructions : value)
  | RawTeam (name : value) (members : list object) (m : Teams.model)
      (description instructions success_criteria : value).

Record context := Context {
  app_factory : option Teams.factory;
  agents : gmap string value;
  teams_config : list (string * value);
  teams : gmap string object
}.

Definition set_teams (self : context) (t : gmap string object) : context :=
  Context (app_factory self) (agents self) (teams_config self) t.

Definition set_teams_config (self : context) (cfg : list (string * value)) : context :=
  Context (app_factory self) (agents self) cfg (teams self).

Definition set_agents (self : context) (a : gmap string value) : context :=
  Context (app_factory self) a (teams_config self) (teams self).

(** ** [_topological_sort] *)

(** The comprehension of line 184 on the members that are left: the
    members that are team keys, in the order of the iteration. *)
Fixpoint team_keys_among (team_keys : list string) (members : list value)
    : error + list string :=
  match members with
  | [] => inr []
  | member :: rest =>
      let* key := as_key member in
      let* dependencies := team_keys_among team_keys rest in
      inr match key with
          | Some k => if decide (k ∈ team_keys) then k :: dependencies else dependencies
          | None => dependencies
          end
  end.

(** Line 184 for one definition. *)
Definition dependencies_of (team_keys : list string) (config : value)
    : error + list string :=
  let* members := get config "members" (VList []) in
  let* members := iterate members in
  team_keys_among team_keys members.

(** Lines 183-187 for the definitions in their order: the first
    exception ends the loop. *)
Fixpoint collect_dependencies (team_keys : list string) (items : list (string * value))
    : error + list (string * Teams.team_config) :=
  match items with
  | [] => inr []
  | (team_key, config) :: rest =>
      let* dependencies := dependencies_of team_keys config in
      let* graph := collect_dependencies team_keys rest in
      inr ((team_key, Teams.TeamConfig None None dependencies None None) :: graph)
  end.

Section RawRebuild.

Variable set_order : list string → list string.

(** [_topological_sort]: line 184 is evaluated for every definition;
    what follows reads the collected team keys only, and is
    [Teams._topological_sort] on them. *)
Definition _topological_sort (team_configs : list (string * value))
    : error + Teams.sort_result :=
  let* graph := collect_dependencies (keys team_configs) team_configs in
  inr (Teams._topological_sort set_order graph).

(** ** [_create_team_instance] *)

(** The comprehension of line 135. *)
Fixpoint tool_objects (f : Teams.factory) (tools : list value)
    : error + list Teams.tool :=
  match tools with
  | [] => inr []
  | t :: rest =>
      let* key := as_key t in
      let* objects := tool_objects f rest in
      inr match key ≫= (Teams.tool_map f !!.) with
          | Some tool => tool :: objects
          | None => objects
          end
  end.

(** Lines 134-140. *)
Definition make_agent (f : Teams.factory) (member_key : string) (agent_config : value)
    : error + object :=
  let* tools := get agent_config "tools" (VList []) in
  let* tools := iterate tools in
  let* tools := tool_objects f tools in
  let* name := get agent_config "name" (VStr member_key) in
  let* role := getitem agent_config "role" in
  let* description := getitem agent_config "description" in
  let* instructions := get agent_config "instructions" VNull in
  inr (RawAgent name role description tools (Teams.agent_model f) instructions).

(** The loop of lines 126-143; [inr None] is the [return None] of line
    132. *)
Fixpoint resolve_members (self : context) (f : Teams.factory)
    (member_keys : list value) (members : list object) : error + option (list object) :=
  match member_keys with
  | [] => inr (Some members)
  | member_key :: rest =>
      let* key := as_key member_key in
      match key with
      | None => resolve_members self f rest members
      | Some k =>
          if decide (k ∈ keys (teams_config self)) then
            match teams self !! k with
            | Some t => resolve_members self f rest (members ++ [t])
            | None => inr None
            end
          else
            match agents self !! k with
            | Some agent_config =>
                let* agent := make_agent f k agent_config in
                resolve_members self f rest (members ++ [agent])
            | None => resolve_members self f rest members
            end
      end
  end.

Definition _create_team_instance (self : context) (team_key : string)
    : error + option object :=
  match app_factory self with
  | None => inr None
  | Some f =>
      let team_config := default (VDict []) (dict_get (teams_config self) team_key) in
      let* member_keys := get team_config "members" (VList []) in
      let* member_keys := iterate member_keys in
      let* members := resolve_members self f member_keys [] in
      match members with
      | None => inr None
      | Some members =>
          let* listed := get team_config "members" VNull in
          if bool_decide (members = []) && truthy listed then inr None
          else
            let* name := get team_config "team_name" VNull in
            let* description := get team_config "description" VNull in
            let* instructions := get team_config "instructions" VNull in
            let* success_criteria := get team_config "success_criteria" VNull in
            inr (Some (RawTeam name members (Teams.team_model f)
                         description instructions success_criteria))
      end
  end.

(** ** [reinitialize_teams] *)

(** The loop of lines 170-176: an exception of
    [_create_team_instance] ends it, with the teams built so far in the
    registry. *)
Fixpoint build_teams (self : context) (sorted_team_keys : list string)
    : (error + bool) * context :=
  match sorted_team_keys with
  | [] => (inr true, self)
  | team_key :: rest =>
      match _create_team_instance self team_key with
      | inl e => (inl e, self)
      | inr (Some team_instance) =>
          build_teams (set_teams self (<[team_key := team_instance]> (teams self))) rest
      | inr None => build_teams self rest
      end
  end.

(** [reinitialize_teams]: the returned boolean or the exception that
    leaves the function, and the context after the call. *)
Definition reinitialize_teams (self : context) : (error + bool) * context :=
  match app_factory self with
  | None => (inr false, self)
  | Some _ =>
      let self1 := set_teams self ∅ in
      match teams_config self with
      | [] => (inr true, self1)
      | _ :: _ =>
          match _topological_sort (teams_config self) with
          | inl e => (inl e, self1)
          | inr (Teams.ValueError _) => (inr false, self1)
          | inr (Teams.Sorted sorted_team_keys) => build_teams self1 sorted_team_keys
          end
      end
  end.

End RawRebuild.

(** ** The tools *)

(** What a call gives: the reply of one of the [return] statements, or
    the exception that leaves the tool. *)
Inductive outcome :=
  | Answer (r : Tools.reply)
  | Raises (e : error).

Record server := Server {
  app : context;
  teams_json : list (string * value);
  agents_json : gmap string value
}.

(** [app.save_teams_config()] and [app.save_agents()] *)
Definition save_teams_config (self : context) (s : server) : server :=
  Server self (teams_config self) (agents_json s).

Definition save_agents (self : context) (s : server) : server :=
  Server self (teams_json s) (agents self).

Definition with_app (s : server) (self : context) : server :=
  Server self (teams_json s) (agents_json s).

Section RawTeamTools.

Variable set_order : list string → list string.

(** [create_team], lines 271-291. *)
Definition create_team (s : server) (team_key : string) (data : list (string * value))
    : outcome * server :=
  if decide (team_key ∈ keys (teams_config (app s))) then (Answer Tools.AlreadyExists, s)
  else if decide ("team_name" ∈ keys data ∧ "members" ∈ keys data) then
    let app1 := set_teams_config (app s)
                  (dict_set (teams_config (app s)) team_key (VDict data)) in
    let s1 := save_teams_config app1 s in
    match reinitialize_teams set_order app1 with
    | (inl e, app2) => (Raises e, with_app s1 app2)
    | (inr true, app2) => (Answer Tools.Success, with_app s1 app2)
    | (inr false, app2) =>
        let app3 := set_teams_config app2 (dict_del (teams_config app2) team_key) in
        (Answer Tools.RolledBack, save_teams_config app3 s1)
    end
  else (Answer Tools.MissingFields, s).

(** [update_team], lines 318-333.  [copy] and [update] of line 323 and
    324 are methods of [dict]: on another stored value one of them
    raises [AttributeError], before anything is changed. *)
Definition update_team (s : server) (team_key : string) (data : list (string * value))
    : outcome * server :=
  match dict_get (teams_config (app s)) team_key with
  | None => (Answer Tools.NotFound, s)
  | Some (VDict original_config) =>
      let app1 := set_teams_config (app s)
                    (dict_set (teams_config (app s)) team_key
                       (VDict (dict_update original_config data))) in
      let s1 := save_teams_config app1 s in
      match reinitialize_teams set_order app1 with
      | (inl e, app2) => (Raises e, with_app s1 app2)
      | (inr true, app2) => (Answer Tools.Success, save_teams_config app2 s1)
      | (inr false, app2) =>
          let app3 := set_teams_config app2
                        (dict_set (teams_config app2) team_key (VDict original_config)) in
          let s3 := save_teams_config app3 s1 in
          match reinitialize_teams set_order app3 with
          | (inl e, app4) => (Raises e, with_app s3 app4)
          | (inr _, app4) => (Answer Tools.RolledBack, with_app s3 app4)
          end
      end
  | Some _ => (Raises AttributeError, s)
  end.

(** [delete_team], lines 336-344. *)
Definition delete_team (s : server) (team_key : string) : outcome * server :=
  if decide (team_key ∈ keys (teams_config (app s))) then
    let app1 := set_teams_config (app s) (dict_del (teams_config (app s)) team_key) in
    let s1 := save_teams_config app1 s in
    match reinitialize_teams set_order app1 with
    | (inl e, app2) => (Raises e, with_app s1 app2)
    | (inr _, app2) => (Answer Tools.Success, with_app s1 app2)
    end
  else (Answer Tools.NotFound, s).

(** [create_agent], lines 216-231. *)
Definition create_agent (s : server) (agent_key : string) (data : list (string * value))
    : outcome * server :=
  match agents (app s) !! agent_key with
  | Some _ => (Answer Tools.AlreadyExists, s)
  | None =>
      if decide ("name" ∈ keys data ∧ "role" ∈ keys data ∧ "description" ∈ keys data)
      then
        let app1 := set_agents (app s) (<[agent_key := VDict data]> (agents (app s))) in
        let s1 := save_agents app1 s in
        match reinitialize_teams set_order app1 with
        | (inl e, app2) => (Raises e, with_app s1 app2)
        | (inr _, app2) => (Answer Tools.Success, with_app s1 app2)
        end
      else (Answer Tools.MissingFields, s)
  end.

(** [update_agent], lines 249-257. *)
Definition update_agent (s : server) (agent_key : string) (data : list (string * value))
    : outcome * server :=
  match agents (app s) !! agent_key with
  | None => (Answer Tools.NotFound, s)
  | Some (VDict agent_config) =>
      let app1 := set_agents (app s)
                    (<[agent_key := VDict (dict_update agent_config data)]>
                       (agents (app s))) in
      let s1 := save_agents app1 s in
      match reinitialize_teams set_order app1 with
      | (inl e, app2) => (Raises e, with_app s1 app2)
      | (inr _, app2) => (Answer Tools.Success, with_app s1 app2)
      end
  | Some _ => (Raises AttributeError, s)
  end.

(** [delete_agent], lines 260-268. *)
Definition delete_agent (s : server) (agent_key : string) : outcome * server :=
  match agents (app s) !! agent_key with
  | None => (Answer Tools.NotFound, s)
  | Some _ =>
      let app1 := set_agents (app s) (delete agent_key (agents (app s))) in
      let s1 := save_agents app1 s in
      match reinitialize_teams set_order app1 with
      | (inl e, app2) => (Raises e, with_app s1 app2)
      | (inr _, app2) => (Answer Tools.Success, with_app s1 app2)
      end
  end.

(** A call of one of the tools. *)
Inductive call :=
  | CreateTeam (team_key : string) (data : list (string * value))
  | UpdateTeam (team_key : string) (data : list (string * value))
  | DeleteTeam (team_key : string)
  | CreateAgent (agent_key : string) (data : list (string * value))
  | UpdateAgent (agent_key : string) (data : list (string * value))
  | DeleteAgent (agent_key : string).

Definition run (s : server) (c : call) : outcome * server :=
  match c with
  | CreateTeam k d => create_team s k d
  | UpdateTeam k d => update_team s k d
  | DeleteTeam k => delete_team s k
  | CreateAgent k d => create_agent s k d
  | UpdateAgent k d => update_agent s k d
  | DeleteAgent k => delete_agent s k
  end.

(** The server after a sequence of calls, each of which the framework
    answers, with the reply or with the exception. *)
Definition run_all (s : server) (calls : list call) : server :=
  foldl (λ s c, (run s c).2) s calls.

End RawTeamTools.

(** ** Definitions and payloads of the classes of the schemas

    The reading of a stored definition and of a payload as the records
    of [Teams] and [Tools]: strings where [team_schema] and
    [agent_schema] say [str] (or [null], where the code reads the entry
    with [get]), lists of strings for [members] and [tools].  [None]:
    the value is of another class. *)

Definition read_string (v : value) : option string :=
  match v with
  | VStr s => Some s
  | _ => None
  end.

(** An entry that is read with [get(key)]: absent and [null] are both
    [None] for the code. *)
Definition read_optional (v : option value) : option (option string) :=
  match v with
  | None | Some VNull => Some None
  | Some (VStr s) => Some (Some s)
  | Some _ => None
  end.

(** An entry that is read with [get(key, [])]. *)
Definition read_strings (v : option value) : option (list string) :=
  match v with
  | None => Some []
  | Some (VList items) => mapM read_string items
  | Some _ => None
  end.

Definition read_team_config (v : value) : option Teams.team_config :=
  match v with
  | VDict d =>
      team_name ← read_optional (dict_get d "team_name");
      description ← read_optional (dict_get d "description");
      members ← read_strings (dict_get d "members");
      instructions ← read_optional (dict_get d "instructions");
      success_criteria ← read_optional (dict_get d "success_criteria");
      Some (Teams.TeamConfig team_name description members instructions success_criteria)
  | _ => None
  end.

(** An entry that is read with [d[key]]. *)
Definition read_required (v : option value) : option string := v ≫= read_string.

(** The entry that is read with [get("name", member_key)]. *)
Definition read_name (v : option value) : option (option string) :=
  match v with
  | None => Some None
  | Some v => Some <$> read_string v
  end.

Definition read_agent_config (v : value) : option Teams.agent_config :=
  match v with
  | VDict d =>
      name ← read_name (dict_get d "name");
      role ← read_required (dict_get d "role");
      description ← read_required (dict_get d "description");
      tools ← read_strings (dict_get d "tools");
      instructions ← read_optional (dict_get d "instructions");
      Some (Teams.AgentConfig name role description tools instructions)
  | _ => None
  end.

(** An entry of a payload: [None] when the key is absent. *)
Definition read_given {A} (read : option value → option A) (v : option value)
    : option (option A) :=
  match v with
  | None => Some None
  | Some v => Some <$> read (Some v)
  end.

Definition read_team_data (data : list (string * value)) : option Tools.team_data :=
  team_name ← read_given read_optional (dict_get data "team_name");
  description ← read_given read_optional (dict_get data "description");
  members ← read_given read_strings (dict_get data "members");
  instructions ← read_given read_optional (dict_get data "instructions");
  success_criteria ← read_given read_optional (dict_get data "success_criteria");
  Some (Tools.TeamData team_name description members instructions success_criteria).

Definition read_agent_data (data : list (string * value)) : option Tools.agent_data :=
  name ← read_given read_required (dict_get data "name");
  role ← read_given read_required (dict_get data "role");
  description ← read_given read_required (dict_get data "description");
  tools ← read_given read_strings (dict_get data "tools");
  instructions ← read_given read_optional (dict_get data "instructions");
  Some (Tools.AgentData name role description tools instructions).

(** The object that the constructors build from typed arguments. *)
Definition optional (o : option string) : value := from_option VStr VNull o.

Fixpoint object_of (p : Teams.participant) : object :=
  match p with
  | Teams.Agent name role descr tools m instr =>
      RawAgent (VStr name) (VStr role) (VStr descr) tools m (optional instr)
  | Teams.Team name members m descr instr criteria =>
      RawTeam (optional name) (object_of <$> members) m
        (optional descr) (optional instr) (optional criteria)
  end.

(** The definitions of [self] are of the classes of the schemas and
    read as those of [typed]; the registries hold the same objects. *)
Definition reads_as_teams (raw : list (string * value))
    (typed : list (string * Teams.team_config)) : Prop :=
  Forall2 (λ r t, r.1 = t.1 ∧ read_team_config r.2 = Some t.2) raw typed.

Definition reads_as_agents (raw : gmap string value)
    (typed : gmap string Teams.agent_config) : Prop :=
  ∀ k, option_Forall2 (λ v c, read_agent_config v = Some c) (raw !! k) (typed !! k).

Definition reads_as_context (self : context) (typed : Teams.ApplicationContext) : Prop :=
  app_factory self = Teams.app_factory typed
  ∧ reads_as_agents (agents self) (Teams.agents typed)
  ∧ reads_as_teams (teams_config self) (Teams.teams_config typed)
  ∧ teams self = object_of <$> Teams.teams typed.

Definition reads_as (s : server) (typed : Tools.server) : Prop :=
  reads_as_context (app s) (Tools.app typed)
  ∧ reads_as_teams (teams_json s) (Tools.teams_json typed)
  ∧ reads_as_agents (agents_json s) (Tools.agents_json typed).

(** The dictionary that a call carries, and the call as one of
    [Tools]. *)
Definition payload (c : call) : list (string * value) :=
  match c with
  | CreateTeam _ data | UpdateTeam _ data | CreateAgent _ data | UpdateAgent _ data =>
      data
  | DeleteTeam _ | DeleteAgent _ => []
  end.

Definition read_call (c : call) : option Tools.call :=
  match c with
  | CreateTeam k data => Tools.CreateTeam k <$> read_team_data data
  | UpdateTeam k data => Tools.UpdateTeam k <$> read_team_data data
  | DeleteTeam k => Some (Tools.DeleteTeam k)
  | CreateAgent k data => Tools.CreateAgent k <$> read_agent_data data
  | UpdateAgent k data => Tools.UpdateAgent k <$> read_agent_data data
  | DeleteAgent k => Some (Tools.DeleteAgent k)
  end.

(** The files hold the mappings of the context. *)
Definition in_sync (s : server) : Prop :=
  teams_json s = teams_config (app s) ∧ agents_json s = agents (app s).

(** The registry is the one that a rebuild of the definitions leaves. *)
Definition up_to_date (set_order : list string → list string) (s : server) : Prop :=
  (reinitialize_teams set_order (app s)).2 = app s.

(** The definitions with the members that line 184 collects. *)
Definition graph_of (ks : list string) (typed : list (string * Teams.team_config))
    : list (string * Teams.team_config) :=
  (λ t, (t.1, Teams.members_only (filter (λ m, m ∈ ks) (Teams.members t.2)))) <$> typed.

(** The context holds [data] under [agent_key]; the other definitions
    are of the classes of the schemas. *)
Definition one_unchecked_agent (f : Teams.factory)
    (typed : list (string * Teams.team_config)) (agent_key : string)
    (data : list (string * value)) (self : context) : Prop :=
  app_factory self = Some f
  ∧ reads_as_teams (teams_config self) typed
  ∧ agents self !! agent_key = Some (VDict data)
  ∧ ∀ m v, m ≠ agent_key → agents self !! m = Some v →
      ∃ c, read_agent_config v = Some c.

(** ** Concrete definitions and payloads *)

Local Open Scope string_scope.

Definition strings (l : list string) : value := VList (VStr <$> l).

(** The content of [agents.json] and [teams.json] that is read as
    [Teams.nested_app]. *)
Definition writer : value :=
  VDict [("name", VStr "Writer"); ("role", VStr "writer");
         ("description", VStr "drafts the text");
         ("tools", strings ["ExaTools"; "Abacus"])].

Definition nested_configs : list (string * value) :=
  [("top", VDict [("members", strings ["mid"; "A1"])]);
   ("mid", VDict [("members", strings ["leaf"])]);
   ("leaf", VDict [("members", strings ["ghost"])]);
   ("solo", VDict [("members", strings ["A1"; "ghost"])])].

Definition nested_app : context :=
  Context (Some Teams.sample_factory) (<["A1" := writer]> ∅) nested_configs ∅.

(** The server after start-up on [nested_app]. *)
Definition sample_server : server :=
  Server (reinitialize_teams remove_dups nested_app).2 nested_configs
    (agents nested_app).

Definition review_team : list (string * value) :=
  [("team_name", VStr "Review"); ("members", strings ["solo"; "A1"])].

(** New members for [leaf] that close the cycle [leaf, top, mid]. *)
Definition leaf_on_top : list (string * value) := [("members", strings ["top"])].

Definition ghost_agent : list (string * value) :=
  [("name", VStr "Ghost"); ("role", VStr "reviewer");
   ("description", VStr "reads the drafts")].

(** Payloads that pass the check of the required fields with a value of
    another class than the schema names. *)
Definition broken_team : list (string * value) :=
  [("team_name", VStr "Broken"); ("members", VNull)].

Definition broken_agent : list (string * value) :=
  [("name", VStr "Broken"); ("role", VStr "reviewer");
   ("description", VStr "reads the drafts"); ("tools", VNull)].

Local Close Scope string_scope.

End RawTools.

(** * The persona tools ([main.py])

    [app.personas] maps a persona key to the document stored for it;
    [personas.json] is what [save_personas] wrote last. *)

Module Personas.
Import Sessions.

(** The classes that [json.load] produces. *)
Inductive pytype := PStr | PList | PDict | PInt | PBool | PNone.

#[global] Instance pytype_eq_dec : EqDecision pytype.
Proof. solve_decision. Defined.

(** [type(value)] *)
Definition type_of (value : json) : pytype :=
  match value with
  | JNull => PNone
  | JBool _ => PBool
  | JNum _ => PInt
  | JStr _ => PStr
  | JArr _ => PList
  | JObj _ => PDict
  end.

(** [isinstance(value, t)]; [bool] is a subclass of [int]. *)
Definition isinstance (value : json) (t : pytype) : bool :=
  match value, t with
  | JBool _, PInt => true
  | _, _ => bool_decide (type_of value = t)
  end.

Definition persona_schema : list (str * pytype) :=
  [(lit "name", PStr); (lit "role", PStr); (lit "goals", PList);
   (lit "background", PStr)].

Definition persona_required_fields : gset str :=
  {[lit "name"; lit "role"; lit "goals"]}.

(** The two messages of [validate_data]: the set of missing fields, or
    the first entry of the wrong type with the expected and the actual
    class. *)
Inductive validation_error :=
  | MissingFields (missing_fields : gset str)
  | WrongType (key : str) (expected actual : pytype).

(** The loop of lines 44-46. *)
Fixpoint check_types (items : list (str * json)) (schema : list (str * pytype))
    : option validation_error :=
  match items with
  | [] => None
  | (key, value) :: rest =>
      match dict_get schema key with
      | Some t =>
          if isinstance value t then check_types rest schema
          else Some (WrongType key t (type_of value))
      | None => check_types rest schema
      end
  end.

(** [validate_data], lines 38-47. *)
Definition validate_data (data : list (str * json)) (schema : list (str * pytype))
    (required_fields : gset str) : option validation_error :=
  let missing_fields := required_fields ∖ list_to_set (keys data) in
  if decide (missing_fields = ∅) then check_types data schema
  else Some (MissingFields missing_fields).

Inductive persona_reply :=
  | Success
  | AlreadyExists
  | Invalid (error_msg : validation_error)
  | NotFound
  | InvalidField (key : str)
  | FieldType (key : str) (expected actual : pytype)
  | AttributeError.

Record persona_store := Store {
  personas : list (str * json);
  personas_json : list (str * json)
}.

(** [app.save_personas()] *)
Definition save_personas (personas : list (str * json)) : persona_store :=
  Store personas personas.

(** [create_persona], lines 68-84. *)
Definition create_persona (s : persona_store) (persona_key : str) (data : list (str * json))
    : persona_reply * persona_store :=
  if decide (persona_key ∈ keys (personas s)) then (AlreadyExists, s)
  else
    match validate_data data persona_schema persona_required_fields with
    | Some error_msg => (Invalid error_msg, s)
    | None => (Success, save_personas (dict_set (personas s) persona_key (JObj data)))
    end.

(** [get_persona], lines 112-117: the document that is returned as JSON
    text, [None] for the error reply. *)
Definition get_persona (s : persona_store) (persona_key : str) : option json :=
  match dict_get (personas s) persona_key with
  | Some persona_data => if truthy persona_data then Some persona_data else None
  | None => None
  end.

(** The loop of lines 128-133. *)
Fixpoint check_persona_update (items : list (str * json)) : option persona_reply :=
  match items with
  | [] => None
  | (key, value) :: rest =>
      match dict_get persona_schema key with
      | None => Some (InvalidField key)
      | Some t =>
          if isinstance value t then check_persona_update rest
          else Some (FieldType key t (type_of value))
      end
  end.

(** [update_persona], lines 120-137.  [update] is a method of [dict]
    only: on another stored value line 135 raises [AttributeError]. *)
Definition update_persona (s : persona_store) (persona_key : str) (data : list (str * json))
    : persona_reply * persona_store :=
  match dict_get (personas s) persona_key with
  | None => (NotFound, s)
  | Some persona =>
      match check_persona_update data with
      | Some error => (error, s)
      | None =>
          match persona with
          | JObj fields =>
              (Success,
               save_personas
                 (dict_set (personas s) persona_key (JObj (dict_update fields data))))
          | _ => (AttributeError, s)
          end
      end
  end.

(** [delete_persona], lines 140-147. *)
Definition delete_persona (s : persona_store) (persona_key : str) : persona_reply * persona_store :=
  if decide (persona_key ∈ keys (personas s)) then
    (Success, save_personas (dict_del (personas s) persona_key))
  else (NotFound, s).

(** [data.get(key, "N/A")] *)
Definition get_or_na (data : list (str * json)) (key : str) : json :=
  default (JStr (lit "N/A")) (dict_get data key).

(** One entry of the list of [list_personas]: the values of
    [persona_key], [name], [role], [goals] and [profile_summary]. *)
Record summary := Summary {
  summary_key : str;
  summary_name : json;
  summary_role : json;
  summary_goals : json;
  profile_summary : json
}.

(** [list_personas], lines 87-109: [None] is the error reply of the
    handler, taken when a stored value has no [get]; the empty list
    stands for the message of line 93. *)
Definition list_personas (s : persona_store) : option (list summary) :=
  mapM (λ it : str * json,
          match it.2 with
          | JObj data =>
              Some (Summary it.1 (get_or_na data (lit "name"))
                      (get_or_na data (lit "role")) (get_or_na data (lit "goals"))
                      (get_or_na data (lit "background")))
          | _ => None
          end) (personas s).

Inductive persona_call :=
  | CreatePersona (persona_key : str) (data : list (str * json))
  | UpdatePersona (persona_key : str) (data : list (str * json))
  | DeletePersona (persona_key : str).

Definition run_persona_tool (s : persona_store) (c : persona_call) : persona_reply * persona_store :=
  match c with
  | CreatePersona k d => create_persona s k d
  | UpdatePersona k d => update_persona s k d
  | DeletePersona k => delete_persona s k
  end.

Definition run_persona_tools (s : persona_store) (calls : list persona_call) : persona_store :=
  foldl (λ s c, (run_persona_tool s c).2) s calls.

(** A stored persona that [validate_data] accepts. *)
Definition valid_persona (value : json) : Prop :=
  ∃ data, value = JObj data
    ∧ validate_data data persona_schema persona_required_fields = None.

(** The data that the loop of [update_persona] lets through. *)
Definition accepted (data : list (str * json)) : Prop :=
  ∀ f v, (f, v) ∈ data →
    ∃ t, dict_get persona_schema f = Some t ∧ isinstance v t = true.

Definition valid_store (s : persona_store) : Prop :=
  personas_json s = personas s
  ∧ NoDup (keys (personas s))
  ∧ ∀ k v, dict_get (personas s) k = Some v → valid_persona v.

Definition ada : list (str * json) :=
  [(lit "name", JStr (lit "Ada")); (lit "role", JStr (lit "engineer"));
   (lit "goals", JArr [JStr (lit "ship")]); (lit "team", JNum 7)].

Definition sample_store : persona_store :=
  save_personas [(lit "ada", JObj ada)].

Definition bob : list (str * json) :=
  [(lit "goals", JArr []); (lit "name", JStr (lit "Bob"));
   (lit "role", JStr (lit "analyst")); (lit "background", JStr (lit "finance"))].

Definition promotion : list (str * json) :=
  [(lit "background", JStr (lit "compilers")); (lit "role", JStr (lit "lead"))].

Definition demotion : list (str * json) :=
  [(lit "role", JNull)].

End Personas.

(** * The product tools ([main.py])

    As for the personas, with [app.products] and [products.json];
    [create_product] checks the required fields only. *)

Module Products.
Import Sessions Personas.

Definition product_schema : list (str * pytype) :=
  [(lit "product_name", PStr); (lit "description", PStr);
   (lit "knowledge_base", PStr)].

Definition product_required_fields : gset str :=
  {[lit "product_name"; lit "description"; lit "knowledge_base"]}.

Inductive product_reply :=
  | Success
  | AlreadyExists
  | Missing (missing_fields : gset str)
  | NotFound
  | InvalidField (key : str)
  | FieldType (key : str) (expected : pytype)
  | AttributeError.

Record product_store := Store {
  products : list (str * json);
  products_json : list (str * json)
}.

(** [app.save_products()] *)
Definition save_products (products : list (str * json)) : product_store :=
  Store products products.

(** [create_product], lines 152-166. *)
Definition create_product (s : product_store) (product_key : str) (data : list (str * json))
    : product_reply * product_store :=
  if decide (product_key ∈ keys (products s)) then (AlreadyExists, s)
  else
    let missing_fields := product_required_fields ∖ list_to_set (keys data) in
    if decide (missing_fields = ∅) then
      (Success, save_products (dict_set (products s) product_key (JObj data)))
    else (Missing missing_fields, s).

(** [get_product], lines 180-185. *)
Definition get_product (s : product_store) (product_key : str) : option json :=
  match dict_get (products s) product_key with
  | Some product_data => if truthy product_data then Some product_data else None
  | None => None
  end.

(** The loop of lines 193-197. *)
Fixpoint check_product_update (items : list (str * json)) : option product_reply :=
  match items with
  | [] => None
  | (key, value) :: rest =>
      match dict_get product_schema key with
      | None => Some (InvalidField key)
      | Some t =>
          if isinstance value t then check_product_update rest
          else Some (FieldType key t)
      end
  end.

(** [update_product], lines 188-201. *)
Definition update_product (s : product_store) (product_key : str) (data : list (str * json))
    : product_reply * product_store :=
  match dict_get (products s) product_key with
  | None => (NotFound, s)
  | Some product =>
      match check_product_update data with
      | Some error => (error, s)
      | None =>
          match product with
          | JObj fields =>
              (Success,
               save_products
                 (dict_set (products s) product_key (JObj (dict_update fields data))))
          | _ => (AttributeError, s)
          end
      end
  end.

(** [delete_product], lines 204-211. *)
Definition delete_product (s : product_store) (product_key : str) : product_reply * product_store :=
  if decide (product_key ∈ keys (products s)) then
    (Success, save_products (dict_del (products s) product_key))
  else (NotFound, s).

Inductive product_call :=
  | CreateProduct (product_key : str) (data : list (str * json))
  | UpdateProduct (product_key : str) (data : list (str * json))
  | DeleteProduct (product_key : str).

Definition run_product_tool (s : product_store) (c : product_call) : product_reply * product_store :=
  match c with
  | CreateProduct k d => create_product s k d
  | UpdateProduct k d => update_product s k d
  | DeleteProduct k => delete_product s k
  end.

Definition run_product_tools (s : product_store) (calls : list product_call) : product_store :=
  foldl (λ s c, (run_product_tool s c).2) s calls.

(** A stored product with the three required fields. *)
Definition complete_product (value : json) : Prop :=
  ∃ data, value = JObj data ∧ ∀ f, f ∈ product_required_fields → f ∈ keys data.

Definition complete_store (s : product_store) : Prop :=
  products_json s = products s
  ∧ NoDup (keys (products s))
  ∧ ∀ k v, dict_get (products s) k = Some v → complete_product v.

Definition kettle : list (str * json) :=
  [(lit "product_name", JStr (lit "Kettle")); (lit "description", JNum 3);
   (lit "knowledge_base", JStr (lit "boils water")); (lit "price", JNum 25)].

Definition sample_catalog : product_store :=
  save_products [(lit "kettle", JObj kettle)].

Definition lamp : list (str * json) :=
  [(lit "knowledge_base", JNull); (lit "description", JArr []);
   (lit "product_name", JStr (lit "Lamp"))].

Definition relabel : list (str * json) :=
  [(lit "description", JStr (lit "a kettle"))].

End Products.

(** * Proofs *)

(** ** Lookup in a dictionary *)

Section DictFacts.
Context `{EqDecision K} {V : Type}.
Implicit Types (d : list (K * V)) (k : K) (v : V).

Lemma dict_get_Some_elem d k v : dict_get d k = Some v → (k, v) ∈ d.
Proof.
  induction d as [|[k' v'] d IH]; simpl; [done|].
  case_decide; [intros [= <-]; subst; left | intros; right; auto].
Qed.

Lemma dict_get_None d k : dict_get d k = None ↔ k ∉ keys d.
Proof.
  unfold keys. induction d as [|[k' v'] d IH]; simpl.
  - split; [intros _; apply not_elem_of_nil | done].
  - case_decide; subst.
    + split; [done | intros []; left].
    + rewrite IH, not_elem_of_cons. split; [intros ?; split; [congruence | done] | tauto].
Qed.

Lemma dict_get_elem d k v : NoDup (keys d) → (k, v) ∈ d → dict_get d k = Some v.
Proof.
  unfold keys. induction d as [|[k' v'] d IH]; simpl; intros Hnd Hin.
  - by apply elem_of_nil in Hin.
  - apply NoDup_cons in Hnd as [Hk' Hnd].
    apply elem_of_cons in Hin as [[= <- <-]|Hin].
    + by rewrite decide_True.
    + rewrite decide_False; [auto|].
      intros ->. apply Hk'. apply list_elem_of_fmap. by exists (k, v).
Qed.

Lemma dict_get_is_Some d k : is_Some (dict_get d k) ↔ k ∈ keys d.
Proof.
  rewrite <- not_eq_None_Some, dict_get_None.
  split; [apply dec_stable | auto].
Qed.
End DictFacts.

Module TeamsProofs.
Import Teams.

(** ** The graph of lines 181-187

    The adjacency list of a key holds its dependents in the order of the
    mapping, and the in-degree of a key is the number of its distinct
    team members, whatever the order in which the sets are visited. *)

Section GraphFacts.
Variable set_order : list string → list string.
Variable cfg : list (string * team_config).
Hypothesis set_order_perm : ∀ l, set_order l ≡ₚ remove_dups l.
Hypothesis cfg_nodup : NoDup (keys cfg).

Lemma elem_of_dependencies c d :
  d ∈ dependencies set_order cfg c ↔ d ∈ members c ∧ d ∈ keys cfg.
Proof.
  unfold dependencies. rewrite set_order_perm, elem_of_remove_dups, list_elem_of_filter.
  tauto.
Qed.

Lemma NoDup_dependencies c : NoDup (dependencies set_order cfg c).
Proof. unfold dependencies. rewrite set_order_perm. apply NoDup_remove_dups. Qed.

Lemma length_dependencies c :
  length (dependencies set_order cfg c)
  = length (remove_dups (filter (λ m, m ∈ keys cfg) (members c))).
Proof. unfold dependencies. by rewrite set_order_perm. Qed.

Lemma add_edges_lookup t deps (adj : gmap string (list string)) d :
  NoDup deps →
  add_edges t deps adj !! d
  = if decide (d ∈ deps) then (λ l, l ++ [t]) <$> adj !! d else adj !! d.
Proof.
  unfold add_edges. revert adj.
  induction deps as [|a deps IH]; intros adj Hnd; simpl.
  - done.
  - apply NoDup_cons in Hnd as [Ha Hnd]. rewrite IH by done.
    destruct (decide (d = a)) as [->|Hne].
    + rewrite decide_False by done. rewrite decide_True by left.
      by rewrite lookup_alter_eq.
    + rewrite lookup_alter_ne by done.
      destruct (decide (d ∈ deps)).
      * rewrite decide_True; [done | by right].
      * rewrite decide_False; [done | rewrite not_elem_of_cons; tauto].
Qed.

Lemma graph_fold_adj items g d :
  (foldl (graph_step set_order cfg) g items).1 !! d
  = (λ l, l ++ dependents_in cfg items d) <$> g.1 !! d.
Proof.
  revert g. induction items as [|[t c] items IH]; intros g; simpl.
  - unfold dependents_in. simpl. destruct (g.1 !! d); simpl; [|done].
    by rewrite app_nil_r.
  - rewrite IH. simpl. rewrite add_edges_lookup by apply NoDup_dependencies.
    unfold dependents_in. rewrite filter_cons. simpl.
    destruct (decide (d ∈ dependencies set_order cfg c)) as [Hd|Hd].
    + rewrite decide_True by by apply elem_of_dependencies.
      destruct (g.1 !! d); simpl; [|done]. by rewrite <- app_assoc.
    + rewrite decide_False; [done|]. by rewrite <- elem_of_dependencies.
Qed.

Lemma graph_fold_deg items g t :
  NoDup (keys items) →
  (foldl (graph_step set_order cfg) g items).2 !! t
  = match dict_get items t with
    | Some c => Some (Z.of_nat (length (remove_dups
                  (filter (λ m, m ∈ keys cfg) (members c)))))
    | None => g.2 !! t
    end.
Proof.
  revert g. induction items as [|[t' c] items IH]; intros g Hnd; simpl; [done|].
  apply NoDup_cons in Hnd as [Ht' Hnd]. rewrite IH by done. simpl.
  case_decide; subst.
  - assert (dict_get items t = None) as -> by by apply dict_get_None.
    by rewrite lookup_insert_eq, length_dependencies.
  - destruct (dict_get items t); [done|]. by rewrite lookup_insert_ne.
Qed.

Lemma init_map_lookup {A} (x : A) (l : list string) k :
  (list_to_map ((λ key, (key, x)) <$> l) : gmap string A) !! k
  = if decide (k ∈ l) then Some x else None.
Proof.
  induction l as [|a l IH].
  - rewrite fmap_nil, list_to_map_nil, lookup_empty. by case_decide; [set_solver|].
  - rewrite fmap_cons, list_to_map_cons. destruct (decide (a = k)) as [->|Hne].
    + by rewrite lookup_insert_eq, decide_True by left.
    + rewrite lookup_insert_ne, IH by done.
      destruct (decide (k ∈ l)).
      * rewrite decide_True; [done | by right].
      * rewrite decide_False; [done | rewrite not_elem_of_cons; naive_solver].
Qed.

Lemma build_graph_adj d :
  (build_graph set_order cfg).1 !! d
  = if decide (d ∈ keys cfg) then Some (dependents_in cfg cfg d) else None.
Proof.
  unfold build_graph. rewrite graph_fold_adj. simpl. rewrite init_map_lookup.
  by case_decide.
Qed.

Lemma build_graph_deg t :
  (build_graph set_order cfg).2 !! t
  = (λ c, Z.of_nat (length (remove_dups
            (filter (λ m, m ∈ keys cfg) (members c))))) <$> dict_get cfg t.
Proof.
  unfold build_graph. rewrite graph_fold_deg by done. simpl.
  destruct (dict_get cfg t) eqn:E; [done|].
  rewrite init_map_lookup, decide_False; [done | by apply dict_get_None].
Qed.
End GraphFacts.

Lemma filter_iff_elem {A} (P1 P2 : A → Prop)
    `{!∀ x, Decision (P1 x), !∀ x, Decision (P2 x)} (l : list A) :
  (∀ x, x ∈ l → P1 x ↔ P2 x) → filter P1 l = filter P2 l.
Proof.
  induction l as [|a l IH]; intros Hiff; [done|].
  rewrite !filter_cons, IH by (intros; apply Hiff; by right).
  apply decide_ext, Hiff. left.
Qed.

Lemma relax_fold_deg l s k :
  NoDup l →
  (foldl relax s l).1 !! k
  = if decide (k ∈ l) then Z.pred <$> s.1 !! k else s.1 !! k.
Proof.
  revert s. induction l as [|a l IH]; intros s Hnd.
  - done.
  - apply NoDup_cons in Hnd as [Ha Hnd]. cbn [foldl]. rewrite IH by done.
    assert ((relax s a).1 = alter Z.pred a s.1) as ->.
    { unfold relax. by case_bool_decide. }
    destruct (decide (k = a)) as [->|Hne].
    + rewrite decide_False by done. rewrite decide_True by left.
      by rewrite lookup_alter_eq.
    + rewrite lookup_alter_ne by done.
      destruct (decide (k ∈ l)).
      * rewrite decide_True; [done | by right].
      * rewrite decide_False; [done | rewrite not_elem_of_cons; tauto].
Qed.

Lemma relax_fold_queue l s :
  NoDup l →
  (foldl relax s l).2 = s.2 ++ filter (λ d, s.1 !! d = Some 1) l.
Proof.
  revert s. induction l as [|a l IH]; intros s Hnd.
  - simpl. by rewrite app_nil_r.
  - apply NoDup_cons in Hnd as [Ha Hnd]. cbn [foldl]. rewrite IH by done.
    assert (filter (λ d, (relax s a).1 !! d = Some 1) l
            = filter (λ d, s.1 !! d = Some 1) l) as ->.
    { apply filter_iff_elem. intros d Hd.
      assert ((relax s a).1 = alter Z.pred a s.1) as ->.
      { unfold relax. by case_bool_decide. }
      rewrite lookup_alter_ne; [done | by intros ->]. }
    rewrite filter_cons. unfold relax. rewrite lookup_alter_eq.
    destruct (s.1 !! a) as [z|] eqn:E; simpl.
    + case_bool_decide as H0; case_decide as H1; simpl.
      * by rewrite <- app_assoc.
      * exfalso. apply H1. f_equal. injection H0. lia.
      * exfalso. apply H0. f_equal. injection H1. lia.
      * done.
    + done.
Qed.

Lemma length_filter_ne (c : string) (l : list string) :
  NoDup l →
  length (filter (λ d, d ≠ c) l)
  = if decide (c ∈ l) then Nat.pred (length l) else length l.
Proof.
  induction l as [|a l IH]; intros Hnd.
  - done.
  - apply NoDup_cons in Hnd as [Ha Hnd]. rewrite filter_cons.
    destruct (decide (a = c)) as [->|Hne].
    + rewrite decide_False by (intros H; by apply H).
      rewrite decide_True by left. rewrite IH by done.
      by rewrite decide_False.
    + rewrite decide_True by done. simpl. rewrite IH by done.
      destruct (decide (c ∈ l)) as [Hc|Hc].
      * rewrite decide_True by by right.
        destruct l; [by apply elem_of_nil in Hc | done].
      * rewrite decide_False; [done | rewrite not_elem_of_cons; naive_solver].
Qed.

(** ** The loop of lines 190-196 *)

Section Kahn.
Variable set_order : list string → list string.
Variable cfg : list (string * team_config).
Hypothesis set_order_perm : ∀ l, set_order l ≡ₚ remove_dups l.
Hypothesis cfg_nodup : NoDup (keys cfg).

Lemma elem_of_deps t d : d ∈ deps cfg t ↔ depends cfg t d.
Proof.
  unfold deps, depends. rewrite elem_of_remove_dups, list_elem_of_filter.
  destruct (dict_get cfg t) as [c|]; simpl.
  - split; [intros []; eauto | intros (? & [= <-] & ? & ?); done].
  - split; [intros [_ H]; by apply elem_of_nil in H | intros (? & [=] & _)].
Qed.

Lemma NoDup_deps t : NoDup (deps cfg t).
Proof. apply NoDup_remove_dups. Qed.

Lemma depends_keys t d : depends cfg t d → t ∈ keys cfg ∧ d ∈ keys cfg.
Proof.
  intros (c & Hc & _ & Hd). split; [|done].
  apply dict_get_is_Some. eauto.
Qed.

Lemma graph_deg t :
  t ∈ keys cfg →
  (build_graph set_order cfg).2 !! t = Some (Z.of_nat (length (deps cfg t))).
Proof.
  intros Ht. rewrite build_graph_deg by done. unfold deps.
  apply dict_get_is_Some in Ht as [c ->]. done.
Qed.

Lemma elem_of_dependents_in t d : t ∈ dependents_in cfg cfg d ↔ depends cfg t d.
Proof.
  unfold dependents_in, depends. rewrite list_elem_of_fmap. split.
  - intros ([t' c] & -> & Hin). apply list_elem_of_filter in Hin as [[? ?] Hin].
    exists c. split; [by apply dict_get_elem | done].
  - intros (c & Hc & ? & ?). exists (t, c). split; [done|].
    apply list_elem_of_filter. split; [done | by apply dict_get_Some_elem].
Qed.

Lemma NoDup_dependents_in d : NoDup (dependents_in cfg cfg d).
Proof.
  unfold dependents_in. apply (sublist_NoDup _ (keys cfg)); [exact cfg_nodup|].
  unfold keys. apply fmap_sublist, sublist_filter.
Qed.

Lemma pending_snoc done c t :
  pending cfg (done ++ [c]) t = filter (λ d, d ≠ c) (pending cfg done t).
Proof.
  unfold pending. rewrite list_filter_filter. apply list_filter_iff.
  intros d. rewrite not_elem_of_app, list_elem_of_singleton. tauto.
Qed.

Lemma NoDup_pending done t : NoDup (pending cfg done t).
Proof. apply NoDup_filter, NoDup_deps. Qed.

Lemma elem_of_pending done t d : d ∈ pending cfg done t ↔ depends cfg t d ∧ d ∉ done.
Proof. unfold pending. rewrite list_elem_of_filter, elem_of_deps. tauto. Qed.

Lemma pending_nil done t : pending cfg done t = [] ↔ ∀ d, depends cfg t d → d ∈ done.
Proof.
  split.
  - intros H d Hd. destruct (decide (d ∈ done)) as [|Hn]; [done|].
    assert (d ∈ pending cfg done t) as Hin by by apply elem_of_pending.
    rewrite H in Hin. by apply elem_of_nil in Hin.
  - intros H. destruct (pending cfg done t) as [|d l] eqn:E; [done|].
    assert (d ∈ pending cfg done t) as Hin by (rewrite E; left).
    apply elem_of_pending in Hin as [Hd Hn]. by apply H in Hd.
Qed.

Lemma pending_empty_done t : pending cfg [] t = deps cfg t.
Proof.
  unfold pending. induction (deps cfg t) as [|a l IH]; [done|].
  rewrite filter_cons_True by apply not_elem_of_nil. by rewrite IH.
Qed.

Lemma inv_initial : inv cfg (initial_state cfg (build_graph set_order cfg).2).
Proof.
  unfold initial_state. split; simpl.
  - apply NoDup_filter, cfg_nodup.
  - intros k Hk. by apply list_elem_of_filter in Hk as [_ Hk].
  - intros k Hk. by rewrite graph_deg, pending_empty_done.
  - intros k Hk. rewrite list_elem_of_filter, graph_deg, pending_empty_done by done.
    split.
    + intros [[= H] _]. destruct (deps cfg k); [done | simpl in H; lia].
    + intros ->. done.
  - intros l1 k l2 H. by destruct l1.
Qed.

Lemma inv_visit st st' :
  inv cfg st →
  visit (build_graph set_order cfg).1 st = Some st' →
  inv cfg st' ∧ length (sorted_list st') = S (length (sorted_list st)).
Proof.
  intros [Hnd Hkeys Hdeg Hready Htopo]. unfold visit.
  destruct st as [deg qu done]; simpl in *.
  destruct qu as [|c q]; [done|]. intros [= <-].
  assert (Hc : c ∈ keys cfg) by (apply Hkeys, elem_of_app; right; left).
  rewrite build_graph_adj by done. rewrite decide_True by done.
  cbn [default]. set (A := dependents_in cfg cfg c).
  assert (HA : NoDup A) by apply NoDup_dependents_in.
  apply NoDup_app in Hnd as (Hnd1 & Hnd2 & Hnd3).
  apply NoDup_cons in Hnd3 as [Hcq Hndq].
  assert (Hcdone : c ∉ done) by (intros H; apply (Hnd2 c H); left).
  assert (HinA : ∀ k, k ∈ A ↔ c ∈ pending cfg done k).
  { intros k. unfold A. rewrite elem_of_dependents_in, elem_of_pending. tauto. }
  assert (Hlen : ∀ k, length (pending cfg (done ++ [c]) k)
            = if decide (k ∈ A) then Nat.pred (length (pending cfg done k))
              else length (pending cfg done k)).
  { intros k. rewrite pending_snoc, length_filter_ne by apply NoDup_pending.
    apply decide_ext. symmetry. apply HinA. }
  assert (Hpos : ∀ k, k ∈ A → (1 ≤ length (pending cfg done k))%nat).
  { intros k Hk. apply HinA in Hk. destruct (pending cfg done k); [|simpl; lia].
    by apply elem_of_nil in Hk. }
  assert (Hsub : ∀ k, k ∈ A → k ∈ keys cfg).
  { intros k Hk. unfold A in Hk. apply elem_of_dependents_in in Hk.
    by apply depends_keys in Hk as [? _]. }
  set (F := filter (λ d, deg !! d = Some 1) A).
  assert (HF : ∀ k, k ∈ F ↔ k ∈ A ∧ length (pending cfg done k) = 1%nat).
  { intros k. unfold F. rewrite list_elem_of_filter. split.
    - intros [Hd Hk]. split; [done|]. rewrite Hdeg in Hd by auto.
      injection Hd. lia.
    - intros [Hk Hl]. split; [|done]. rewrite Hdeg by auto. by rewrite Hl. }
  assert (Hready' : ∀ k, k ∈ keys cfg →
            (k ∈ done ∨ k = c ∨ k ∈ q) ∨ k ∈ F
            ↔ pending cfg (done ++ [c]) k = []).
  { intros k Hk. rewrite <- length_zero_iff_nil, Hlen, HF.
    specialize (Hready k Hk). rewrite <- length_zero_iff_nil in Hready.
    rewrite elem_of_app, elem_of_cons in Hready.
    destruct (decide (k ∈ A)) as [HkA|HkA].
    - specialize (Hpos k HkA). split.
      + intros [H|[_ H]]; [apply Hready in H|]; lia.
      + intros H. right. split; [done | lia].
    - split.
      + intros [H|[H _]]; [by apply Hready | done].
      + intros H. left. by apply Hready. }
  split; [split|]; simpl.
  - rewrite relax_fold_queue by done. simpl. fold F.
    rewrite <- app_assoc. simpl.
    apply NoDup_app. split; [done|]. split.
    + intros x Hx. rewrite elem_of_cons, elem_of_app, HF.
      intros [->|[Hxq|[HxA Hl]]]; [done | apply (Hnd2 x Hx); by right |].
      assert (pending cfg done x = []) as E; [|rewrite E in Hl; done].
      apply Hready; [auto|]. apply elem_of_app. by left.
    + apply NoDup_cons. split.
      * rewrite elem_of_app, HF. intros [?|[HcA Hl]]; [done|].
        assert (pending cfg done c = []) as E; [|rewrite E in Hl; done].
        apply Hready; [done|]. apply elem_of_app. right. left.
      * apply NoDup_app. split; [done|]. split; [|by apply NoDup_filter].
        intros x Hxq. rewrite HF. intros [HxA Hl].
        assert (pending cfg done x = []) as E; [|rewrite E in Hl; done].
        apply Hready; [auto|]. apply elem_of_app. right. by right.
  - intros k. rewrite relax_fold_queue by done. simpl. fold F.
    rewrite !elem_of_app, list_elem_of_singleton, HF.
    intros [[H | ->] | [H | [H _]]]; auto.
    + apply Hkeys, elem_of_app. by left.
    + apply Hkeys, elem_of_app. right. by right.
  - intros k Hk. rewrite relax_fold_deg by done. simpl.
    rewrite Hdeg, Hlen by done. destruct (decide (k ∈ A)) as [HkA|HkA]; [|done].
    simpl. f_equal. specialize (Hpos k HkA). lia.
  - intros k Hk. rewrite relax_fold_queue by done. simpl. fold F.
    rewrite <- Hready' by done.
    rewrite !elem_of_app, list_elem_of_singleton. tauto.
  - intros l1 k l2 E d Hd.
    destruct l2 as [|x l2 _] using rev_ind.
    + apply app_inj_tail in E as [<- <-].
      destruct (decide (d ∈ done)) as [|Hn]; [done|].
      assert (pending cfg done c = []) as E.
      { apply Hready; [done|]. apply elem_of_app. right. left. }
      apply (proj1 (pending_nil done c) E). done.
    + rewrite app_comm_cons, app_assoc in E.
      apply app_inj_tail in E as [E _]. by apply (Htopo l1 k l2).
  - rewrite length_app. simpl. lia.
Qed.

Lemma inv_length st :
  inv cfg st → (length (sorted_list st) + length (queue st) ≤ length cfg)%nat.
Proof.
  intros [Hnd Hkeys _ _ _]. rewrite <- length_app.
  replace (length cfg) with (length (keys cfg)) by apply length_fmap.
  apply submseteq_length, NoDup_submseteq; auto.
Qed.

Lemma visit_None adj st : visit adj st = None ↔ queue st = [].
Proof. unfold visit. destruct (queue st); split; done. Qed.

Lemma loop_inv fuel st :
  inv cfg st →
  (length cfg ≤ fuel + length (sorted_list st))%nat →
  inv cfg (loop fuel (build_graph set_order cfg).1 st)
  ∧ queue (loop fuel (build_graph set_order cfg).1 st) = [].
Proof.
  revert st. induction fuel as [|fuel IH]; intros st Hinv Hfuel; simpl.
  - split; [done|]. apply inv_length in Hinv.
    destruct (queue st); [done | simpl in Hinv; lia].
  - destruct (visit _ st) as [st'|] eqn:E.
    + apply inv_visit in E as [Hinv' Hlen]; [|done].
      apply IH; [done | lia].
    + split; [done | by apply visit_None in E].
Qed.

Lemma loop_more adj fuel extra st :
  queue (loop fuel adj st) = [] → loop (fuel + extra) adj st = loop fuel adj st.
Proof.
  revert st. induction fuel as [|fuel IH]; intros st Hq; simpl in *.
  - destruct extra; [done|]. simpl. by rewrite (proj2 (visit_None adj st)).
  - destruct (visit adj st); [by apply IH | done].
Qed.

(** The state in which the loop is left. *)
Lemma run_loop_inv :
  inv cfg (run_loop set_order cfg) ∧ queue (run_loop set_order cfg) = [].
Proof. apply loop_inv; [apply inv_initial | simpl; lia]. Qed.

Lemma final_sorted st k :
  inv cfg st → queue st = [] → k ∈ keys cfg →
  k ∈ sorted_list st ↔ ∀ d, depends cfg k d → d ∈ sorted_list st.
Proof.
  intros Hinv Hq Hk. rewrite <- pending_nil, <- (inv_ready cfg _ Hinv) by done.
  by rewrite Hq, app_nil_r.
Qed.

Lemma final_degree st k :
  inv cfg st → queue st = [] → k ∈ keys cfg →
  positive_degree (in_degree st) k ↔ k ∉ sorted_list st.
Proof.
  intros Hinv Hq Hk. unfold positive_degree. rewrite (inv_deg cfg _ Hinv) by done.
  pose proof (inv_ready cfg _ Hinv k Hk) as Hr. rewrite Hq, app_nil_r in Hr.
  rewrite Hr. destruct (pending cfg (sorted_list st) k); simpl.
  - split; [intros (d & [= <-] & ?); lia | done].
  - split; [done | intros _; eexists; split; [done | lia]].
Qed.

Lemma sorted_before st l1 k l2 d :
  inv cfg st → sorted_list st = l1 ++ k :: l2 → tc (depends cfg) k d → d ∈ l1.
Proof.
  intros Hinv E Htc. revert l1 l2 E.
  induction Htc as [k d Hd | k y d Hy _ IH]; intros l1 l2 E.
  - by apply (inv_topo cfg _ Hinv l1 k l2).
  - apply (inv_topo cfg _ Hinv l1 k l2 E) in Hy.
    apply list_elem_of_split in Hy as (l1' & l2' & ->).
    rewrite <- app_assoc in E. simpl in E. apply IH in E.
    apply elem_of_app. by left.
Qed.

Lemma sorted_closed st k d :
  inv cfg st → k ∈ sorted_list st → rtc (depends cfg) k d → d ∈ sorted_list st.
Proof.
  intros Hinv Hk Hrtc. induction Hrtc as [|k y d Hy _ IH]; [done|].
  apply IH. apply list_elem_of_split in Hk as (l1 & l2 & E).
  rewrite E. apply elem_of_app. left. by apply (inv_topo cfg _ Hinv l1 k l2).
Qed.

Lemma sorted_not_on_cycle st c :
  inv cfg st → c ∈ sorted_list st → ¬ tc (depends cfg) c c.
Proof.
  intros Hinv Hc Htc. apply list_elem_of_split in Hc as (l1 & l2 & E).
  pose proof (sorted_before _ _ _ _ _ Hinv E Htc) as Hin.
  pose proof (inv_nodup cfg _ Hinv) as Hnd. rewrite E in Hnd.
  apply NoDup_app in Hnd as [Hnd _]. apply NoDup_app in Hnd as (_ & Hnd & _).
  apply (Hnd c Hin). left.
Qed.

Lemma sorted_not_behind_cycle st k :
  inv cfg st → k ∈ sorted_list st → ¬ behind_cycle cfg k.
Proof.
  intros Hinv Hk (c & Hrtc & Htc).
  eapply sorted_not_on_cycle; [done | | done]. by eapply sorted_closed.
Qed.

(** In a set of keys each of which depends on a key of the set, every
    key leads to a cycle. *)
Lemma find_cycle (R : gset string) :
  (∀ k, k ∈ R → ∃ d, d ∈ R ∧ depends cfg k d) →
  ∀ n (seen : gset string) k,
    (size (R ∖ seen) ≤ n)%nat → k ∈ R →
    (∀ s, s ∈ seen → tc (depends cfg) s k) →
    behind_cycle cfg k.
Proof.
  intros Hsucc n. induction n as [|n IH]; intros seen k Hsize Hk Hreach.
  - destruct (decide (k ∈ seen)) as [HkS|HkS].
    + exists k. split; [done | auto].
    + assert (R ∖ seen ≡ ∅) as E by (apply size_empty_iff; lia).
      exfalso. apply (not_elem_of_empty (C:=gset string) k). rewrite <- E.
      by apply elem_of_difference.
  - destruct (decide (k ∈ seen)) as [HkS|HkS].
    + exists k. split; [done | auto].
    + destruct (Hsucc k Hk) as (d & Hd & Hkd).
      destruct (IH (seen ∪ {[k]}) d) as (c & Hrtc & Htc); [|done| |].
      * assert (R ∖ (seen ∪ {[k]}) ⊂ R ∖ seen) as Hsub.
        { split.
          - intros x. rewrite !elem_of_difference, elem_of_union. tauto.
          - intros Hsub. specialize (Hsub k).
            rewrite !elem_of_difference, elem_of_union, elem_of_singleton in Hsub.
            tauto. }
        apply subset_size in Hsub. lia.
      * intros s [Hs| ->%elem_of_singleton]%elem_of_union.
        -- eapply tc_r; [by apply Hreach | done].
        -- by apply tc_once.
      * exists c. split; [by eapply rtc_l | done].
Qed.

Lemma unsorted_behind_cycle st k :
  inv cfg st → queue st = [] → k ∈ keys cfg → k ∉ sorted_list st →
  behind_cycle cfg k.
Proof.
  intros Hinv Hq Hk Hn.
  set (R := list_to_set (filter (λ x, x ∉ sorted_list st) (keys cfg)) : gset string).
  assert (HR : ∀ x, x ∈ R ↔ x ∈ keys cfg ∧ x ∉ sorted_list st).
  { intros x. unfold R. rewrite elem_of_list_to_set, list_elem_of_filter. tauto. }
  apply (find_cycle R) with (n := size R) (seen := ∅).
  - intros x [Hx Hxn]%HR.
    destruct (pending cfg (sorted_list st) x) as [|d l] eqn:E.
    + exfalso. apply Hxn. pose proof (inv_ready cfg _ Hinv x Hx) as Hr.
      rewrite Hq, app_nil_r in Hr. by apply Hr.
    + assert (d ∈ pending cfg (sorted_list st) x) as Hd by (rewrite E; left).
      apply elem_of_pending in Hd as [Hd Hdn].
      exists d. split; [|done]. apply HR. split; [|done].
      by apply depends_keys in Hd as [_ ?].
  - apply subseteq_size. intros x. rewrite elem_of_difference. tauto.
  - by apply HR.
  - intros s Hs. by apply not_elem_of_empty in Hs.
Qed.
End Kahn.

(** ** The two results of [_topological_sort] *)

Section SortResult.
Variable set_order : list string → list string.
Variable cfg : list (string * team_config).
Hypothesis set_order_perm : ∀ l, set_order l ≡ₚ remove_dups l.
Hypothesis cfg_nodup : NoDup (keys cfg).

Lemma sort_Sorted l :
  _topological_sort set_order cfg = Sorted l →
  l = sorted_list (run_loop set_order cfg) ∧ l ≡ₚ keys cfg ∧ topological cfg l.
Proof.
  unfold _topological_sort. cbv zeta.
  destruct (run_loop_inv set_order cfg set_order_perm cfg_nodup) as [Hinv Hq].
  case_decide as Hlen; [|done]. intros [= <-]. split; [done|]. split.
  - pose proof (inv_nodup _ _ Hinv) as Hnd. rewrite Hq, app_nil_r in Hnd.
    apply submseteq_length_Permutation.
    + apply NoDup_submseteq; [done|]. intros k Hk.
      apply (inv_keys _ _ Hinv). rewrite Hq, app_nil_r. done.
    + unfold keys. rewrite length_fmap. lia.
  - intros before t after E. by apply (inv_topo _ _ Hinv before t after).
Qed.

Lemma sort_ValueError nodes :
  _topological_sort set_order cfg = ValueError nodes →
  ∀ k, k ∈ nodes ↔ k ∈ keys cfg ∧ k ∉ sorted_list (run_loop set_order cfg).
Proof.
  unfold _topological_sort. cbv zeta.
  destruct (run_loop_inv set_order cfg set_order_perm cfg_nodup) as [Hinv Hq].
  case_decide as Hlen; [done|]. intros [= <-] k.
  rewrite elem_of_list_to_set, list_elem_of_filter. split.
  - intros [Hd Hk]. split; [done|]. by eapply final_degree in Hd.
  - intros [Hk Hn]. split; [|done]. by eapply final_degree.
Qed.

Lemma sort_acyclic :
  acyclic cfg → ∃ l, _topological_sort set_order cfg = Sorted l.
Proof.
  intros Hac. unfold _topological_sort. cbv zeta.
  destruct (run_loop_inv set_order cfg set_order_perm cfg_nodup) as [Hinv Hq].
  case_decide as Hlen; [eauto|]. exfalso. apply Hlen.
  pose proof (inv_nodup _ _ Hinv) as Hnd. rewrite Hq, app_nil_r in Hnd.
  replace (length cfg) with (length (keys cfg)) by apply length_fmap.
  apply Permutation_length, NoDup_Permutation; [done..|]. intros k. split.
  - intros Hk. apply (inv_keys _ _ Hinv). by rewrite Hq, app_nil_r.
  - intros Hk. destruct (decide (k ∈ sorted_list (run_loop set_order cfg)))
      as [|Hn]; [done|].
    destruct (unsorted_behind_cycle cfg _ k Hinv Hq Hk Hn) as (c & _ & Hc).
    by apply Hac in Hc.
Qed.

Lemma tc_depends_keys k d : tc (depends cfg) k d → k ∈ keys cfg.
Proof.
  intros H. destruct H as [k d H|k y d H _]; by apply depends_keys in H as [? _].
Qed.

Lemma sort_cyclic :
  cyclic cfg → ∃ nodes, _topological_sort set_order cfg = ValueError nodes.
Proof.
  intros [c Hc]. destruct (_topological_sort set_order cfg) as [l|nodes] eqn:E;
    [|eauto].
  exfalso. apply sort_Sorted in E as (-> & Hperm & _).
  destruct (run_loop_inv set_order cfg set_order_perm cfg_nodup) as [Hinv Hq].
  apply (sorted_not_on_cycle cfg _ c Hinv); [|done].
  rewrite Hperm. by apply tc_depends_keys in Hc.
Qed.

Lemma behind_cycle_keys k : behind_cycle cfg k → k ∈ keys cfg.
Proof.
  intros (c & Hrtc & Hc). destruct Hrtc as [|k y c H _].
  - by apply tc_depends_keys in Hc.
  - by apply depends_keys in H as [? _].
Qed.

Lemma unsorted_iff_behind_cycle k :
  k ∈ keys cfg ∧ k ∉ sorted_list (run_loop set_order cfg) ↔ behind_cycle cfg k.
Proof.
  destruct (run_loop_inv set_order cfg set_order_perm cfg_nodup) as [Hinv Hq].
  split.
  - intros [Hk Hn]. by eapply unsorted_behind_cycle.
  - intros Hb. split; [by apply behind_cycle_keys|].
    intros Hk. by eapply sorted_not_behind_cycle.
Qed.
End SortResult.



(** ** [_create_team_instance] *)

Section Members.
Variable self : ApplicationContext.
Variable f : factory.

Lemma resolve_members_Some member_keys acc :
  team_members_built self member_keys →
  resolve_members self f member_keys acc
  = Some (acc ++ omap (resolve self f) member_keys).
Proof.
  revert acc. induction member_keys as [|m ms IH]; intros acc Hb; simpl.
  - by rewrite app_nil_r.
  - assert (team_members_built self ms) as Hms.
    { intros x Hx. apply Hb. by right. }
    unfold resolve at 1. case_decide as Hm.
    + destruct (Hb m) as [t Ht]; [left | done |]. rewrite Ht.
      rewrite IH by done. by rewrite <- app_assoc.
    + destruct (agents self !! m); simpl.
      * rewrite IH by done. by rewrite <- app_assoc.
      * by apply IH.
Qed.

Lemma resolve_members_None member_keys acc m :
  m ∈ member_keys → m ∈ keys (teams_config self) → teams self !! m = None →
  resolve_members self f member_keys acc = None.
Proof.
  revert acc. induction member_keys as [|m' ms IH]; intros acc Hin Hm Hn.
  - by apply elem_of_nil in Hin.
  - simpl. apply elem_of_cons in Hin as [<-|Hin].
    + rewrite decide_True by done. by rewrite Hn.
    + case_decide.
      * destruct (teams self !! m'); [by apply IH | done].
      * destruct (agents self !! m'); by apply IH.
Qed.

Lemma omap_resolve_nil member_keys :
  team_members_built self member_keys →
  omap (resolve self f) member_keys = [] ↔ ∀ m, m ∈ member_keys → ¬ defined self m.
Proof.
  intros Hb. induction member_keys as [|m ms IH]; simpl.
  - split; [intros _ m H; by apply elem_of_nil in H | done].
  - assert (team_members_built self ms) as Hms.
    { intros x Hx. apply Hb. by right. }
    unfold resolve at 1, defined. case_decide as Hm.
    + destruct (Hb m) as [t Ht]; [left | done |]. rewrite Ht. split; [done|].
      intros H. exfalso. apply (H m); [left | by left].
    + destruct (agents self !! m) as [a|] eqn:Ea; simpl.
      * split; [done|]. intros H. exfalso. apply (H m); [left | right; eauto].
      * rewrite IH by done. split.
        -- intros H x [->|Hx]%elem_of_cons; [|by apply H].
           rewrite Ea. intros [?|[? ?]]; done.
        -- intros H x Hx. apply H. by right.
Qed.
End Members.

Lemma create_team_instance_Some self f team_key :
  app_factory self = Some f →
  team_members_built self (members (config_of self team_key)) →
  (members (config_of self team_key) = []
   ∨ ∃ m, m ∈ members (config_of self team_key) ∧ defined self m) →
  _create_team_instance self team_key
  = Some (team_of f (config_of self team_key)
            (omap (resolve self f) (members (config_of self team_key)))).
Proof.
  intros Hf Hb Hsome. unfold _create_team_instance. rewrite Hf. cbv zeta.
  fold (config_of self team_key).
  rewrite (resolve_members_Some self f) by done. simpl.
  destruct (omap _ _) as [|p ps] eqn:E; [|done].
  destruct (members (config_of self team_key)) as [|m ms] eqn:Em; [done|].
  exfalso. destruct Hsome as [|(x & Hx & Hd)]; [done|].
  rewrite <- Em in *.
  by apply (proj1 (omap_resolve_nil self f _ Hb) E x Hx).
Qed.

Lemma create_team_instance_missing_team self team_key m :
  m ∈ members (config_of self team_key) →
  m ∈ keys (teams_config self) → teams self !! m = None →
  _create_team_instance self team_key = None.
Proof.
  intros Hin Hm Hn. unfold _create_team_instance.
  destruct (app_factory self) as [f|]; [|done]. cbv zeta.
  fold (config_of self team_key).
  by rewrite (resolve_members_None self f _ _ m).
Qed.

Lemma create_team_instance_no_member self team_key :
  members (config_of self team_key) ≠ [] →
  (∀ m, m ∈ members (config_of self team_key) → ¬ defined self m) →
  _create_team_instance self team_key = None.
Proof.
  intros Hne Hnone. unfold _create_team_instance.
  destruct (app_factory self) as [f|]; [|done]. cbv zeta.
  fold (config_of self team_key).
  assert (team_members_built self (members (config_of self team_key))) as Hb.
  { intros m Hm Hk. exfalso. apply (Hnone m Hm). by left. }
  rewrite (resolve_members_Some self f) by done. simpl.
  rewrite (proj2 (omap_resolve_nil self f _ Hb) Hnone).
  by destruct (members (config_of self team_key)).
Qed.

Lemma set_teams_fields self t :
  app_factory (set_teams self t) = app_factory self
  ∧ agents (set_teams self t) = agents self
  ∧ teams_config (set_teams self t) = teams_config self
  ∧ teams (set_teams self t) = t.
Proof. done. Qed.

Lemma set_teams_set_teams self t1 t2 : set_teams (set_teams self t1) t2 = set_teams self t2.
Proof. done. Qed.

Lemma build_step_set_teams self team_key :
  build_step (set_teams self (teams self)) team_key
  = set_teams self (teams (build_step self team_key)).
Proof.
  destruct self as [f a c t]. unfold build_step, set_teams. simpl.
  by destruct (_create_team_instance _ team_key).
Qed.

Lemma set_teams_id self : set_teams self (teams self) = self.
Proof. by destruct self. Qed.

Lemma foldl_build_step_set_teams self l :
  foldl build_step self l = set_teams self (teams (foldl build_step self l)).
Proof.
  revert self. induction l as [|k l IH]; intros self; simpl.
  - by rewrite set_teams_id.
  - rewrite IH. rewrite <- (set_teams_id self) at 1.
    rewrite build_step_set_teams, set_teams_set_teams. done.
Qed.

(** [_create_team_instance] reads the registry only at the team keys
    among the members of [team_key]. *)
Lemma resolve_members_agree self f t1 t2 member_keys acc :
  (∀ m, m ∈ member_keys → m ∈ keys (teams_config self) → t1 !! m = t2 !! m) →
  resolve_members (set_teams self t1) f member_keys acc
  = resolve_members (set_teams self t2) f member_keys acc.
Proof.
  revert acc. induction member_keys as [|m ms IH]; intros acc H; [done|].
  assert (∀ x, x ∈ ms → x ∈ keys (teams_config self) → t1 !! x = t2 !! x) as Hms.
  { intros x Hx. apply H. by right. }
  simpl. case_decide as Hm.
  - rewrite (H m) by (done || left). destruct (t2 !! m); [by apply IH | done].
  - destruct (agents self !! m); by apply IH.
Qed.

Lemma create_team_instance_agree self t1 t2 team_key :
  (∀ d, depends (teams_config self) team_key d → t1 !! d = t2 !! d) →
  _create_team_instance (set_teams self t1) team_key
  = _create_team_instance (set_teams self t2) team_key.
Proof.
  intros H. unfold _create_team_instance. simpl.
  destruct (app_factory self) as [f|]; [|done]. cbv zeta.
  rewrite (resolve_members_agree self f t1 t2); [done|].
  intros m Hm Hk. apply H. unfold depends.
  destruct (dict_get (teams_config self) team_key) as [c|]; simpl in *.
  - by exists c.
  - by apply elem_of_nil in Hm.
Qed.

Lemma build_step_teams self team_key k :
  teams (build_step self team_key) !! k
  = if decide (k = team_key)
    then match _create_team_instance self team_key with
         | Some t => Some t
         | None => teams self !! team_key
         end
    else teams self !! k.
Proof.
  unfold build_step. destruct (_create_team_instance self team_key) as [t|]; simpl.
  - case_decide as E; [subst; by rewrite lookup_insert_eq | by rewrite lookup_insert_ne].
  - case_decide; by subst.
Qed.

Lemma foldl_build_step_other self l k :
  k ∉ l → teams (foldl build_step self l) !! k = teams self !! k.
Proof.
  revert self. induction l as [|a l IH]; intros self Hk; [done|].
  apply not_elem_of_cons in Hk as [Hne Hk]. simpl.
  rewrite IH by done. rewrite build_step_teams. by rewrite decide_False.
Qed.

(** The registry after the build loop over a duplicate-free order in which
    every team comes after its team members, started from a registry with
    no entry for the keys of the order: every key of the order holds what
    [_create_team_instance] returns for it on the final registry. *)
Lemma build_loop_registry self l :
  NoDup l →
  (∀ before t after, l = before ++ t :: after →
     ∀ d, depends (teams_config self) t d → d ∈ before) →
  (∀ k, k ∈ l → teams self !! k = None) →
  ∀ k, k ∈ l →
    teams (foldl build_step self l) !! k
    = _create_team_instance (set_teams self (teams (foldl build_step self l))) k.
Proof.
  induction l as [|x l IH] using rev_ind; intros Hnd Htopo Hnone k Hk.
  - by apply elem_of_nil in Hk.
  - apply NoDup_app in Hnd as (Hnd & Hx & _).
    assert (x ∉ l) as Hxl by (intros H; apply (Hx x H); left).
    assert (Htopo' : ∀ before t after, l = before ++ t :: after →
              ∀ d, depends (teams_config self) t d → d ∈ before).
    { intros before t after E. apply (Htopo before t (after ++ [x])).
      rewrite E, <- app_assoc. done. }
    assert (Hdeps : ∀ t d, t ∈ l ++ [x] → depends (teams_config self) t d → d ∈ l ∧ d ≠ x).
    { intros t d Ht Hd. apply list_elem_of_split in Ht as (before & after & E).
      pose proof (Htopo before t after E d Hd) as Hin.
      destruct after as [|y after _] using rev_ind.
      - apply app_inj_tail in E as [-> _]. split; [done | by intros ->].
      - rewrite app_comm_cons, app_assoc in E. apply app_inj_tail in E as [-> _].
        split; [apply elem_of_app; by left|]. intros ->. apply Hxl.
        apply elem_of_app. by left. }
    rewrite foldl_snoc.
    set (s' := foldl build_step self l).
    assert (Hs' : s' = set_teams self (teams s')) by apply foldl_build_step_set_teams.
    assert (Hagree : ∀ t, t ∈ l ++ [x] →
              _create_team_instance (set_teams self (teams (build_step s' x))) t
              = _create_team_instance s' t).
    { intros t Ht. rewrite Hs' at 2. apply create_team_instance_agree.
      intros d Hd. destruct (Hdeps t d Ht Hd) as [_ Hne].
      rewrite build_step_teams. by rewrite decide_False. }
    rewrite Hagree by done. rewrite build_step_teams.
    case_decide as E.
    + subst k. destruct (_create_team_instance s' x) eqn:Ec; [done|].
      unfold s'. rewrite foldl_build_step_other by done.
      apply Hnone. apply elem_of_app. right. left.
    + apply elem_of_app in Hk as [Hk|Hk%list_elem_of_singleton]; [|done].
      unfold s' at 1. rewrite IH; [|done..| |done].
      * fold s'. by rewrite <- Hs'.
      * intros y Hy. apply Hnone. apply elem_of_app. by left.
Qed.

Lemma ranked_acyclic rank cfg : ranked rank cfg = true → acyclic cfg.
Proof.
  intros Hr.
  assert (Hstep : ∀ t d, depends cfg t d → (rank d < rank t)%nat).
  { intros t d (c & Hc & Hd & Hk). apply dict_get_Some_elem in Hc.
    unfold ranked in Hr. rewrite forallb_forall in Hr.
    apply list_elem_of_In, Hr in Hc. rewrite forallb_forall in Hc.
    apply list_elem_of_In, Hc in Hd. apply bool_decide_eq_true in Hd. auto. }
  assert (Htc : ∀ t d, tc (depends cfg) t d → (rank d < rank t)%nat).
  { intros t d H. induction H as [t d H|t y d H _ IH]; [by apply Hstep|].
    apply Hstep in H. lia. }
  intros k Hk. apply Htc in Hk. lia.
Qed.

(** ** The registry after [reinitialize_teams] *)

Section Registry.
Variable set_order : list string → list string.
Variable self : ApplicationContext.
Variable f : factory.
Hypothesis set_order_perm : ∀ l, set_order l ≡ₚ remove_dups l.
Hypothesis cfg_nodup : NoDup (keys (teams_config self)).
Hypothesis factory_ready : app_factory self = Some f.

Lemma reinitialize_teams_Sorted l :
  _topological_sort set_order (teams_config self) = Sorted l →
  ∃ reg, reinitialize_teams set_order self = (true, set_teams self reg) ∧ built self reg.
Proof.
  intros Hs. unfold reinitialize_teams. rewrite factory_ready.
  destruct (teams_config self) as [|it cfg] eqn:E.
  - exists ∅. split; [done|]. split; [|done]. rewrite E.
    intros k Hk. by apply elem_of_nil in Hk.
  - rewrite <- E in *. rewrite Hs.
    apply sort_Sorted in Hs as (_ & Hperm & Htopo); [|done..].
    exists (teams (foldl build_step (set_teams self ∅) l)). split.
    + f_equal. by rewrite foldl_build_step_set_teams at 1.
    + split.
      * intros k Hk. rewrite <- Hperm in Hk.
        rewrite (build_loop_registry (set_teams self ∅) l); [done| | |done|done].
        -- rewrite Hperm. done.
        -- apply Htopo.
      * intros k Hk. rewrite <- Hperm in Hk.
        by rewrite foldl_build_step_other.
Qed.

Lemma reinitialize_teams_ValueError nodes :
  _topological_sort set_order (teams_config self) = ValueError nodes →
  reinitialize_teams set_order self = (false, set_teams self ∅).
Proof.
  intros Hs. unfold reinitialize_teams. rewrite factory_ready, Hs.
  destruct (teams_config self); [|done]. done.
Qed.

Lemma built_missing_dependency reg k d :
  built self reg → depends (teams_config self) k d → reg !! d = None → reg !! k = None.
Proof.
  intros [Hb _] Hd Hn. pose proof Hd as (c & Hc & Hm & Hk).
  rewrite Hb by by apply depends_keys in Hd as [? _].
  apply (create_team_instance_missing_team _ _ d); [|done..].
  unfold config_of. simpl. by rewrite Hc.
Qed.

Lemma built_failure_propagates reg k d :
  built self reg → tc (depends (teams_config self)) k d → reg !! d = None →
  reg !! k = None.
Proof.
  intros Hb Htc Hn. induction Htc as [k d Hd|k y d Hd _ IH].
  - by eapply built_missing_dependency.
  - eapply built_missing_dependency; [done..|]. by apply IH.
Qed.

Lemma built_no_member reg t c :
  built self reg → dict_get (teams_config self) t = Some c →
  members c ≠ [] → (∀ m, m ∈ members c → ¬ defined self m) →
  reg !! t = None.
Proof.
  intros [Hb _] Hc Hne Hnone.
  rewrite Hb by (apply dict_get_is_Some; eauto).
  apply create_team_instance_no_member; unfold config_of; simpl; rewrite Hc; done.
Qed.

Lemma built_status reg k c :
  built self reg → dict_get (teams_config self) k = Some c →
  is_Some (reg !! k)
  ↔ (∀ d, depends (teams_config self) k d → is_Some (reg !! d))
    ∧ (members c = [] ∨ ∃ m, m ∈ members c ∧ defined self m).
Proof.
  intros Hb Hc. split.
  - intros Hk. split.
    + intros d Hd. destruct (reg !! d) eqn:E; [eauto|].
      rewrite (built_missing_dependency reg k d) in Hk by done.
      by destruct Hk.
    + destruct (decide (members c = [])) as [|Hne]; [by left|]. right.
      destruct (decide (Exists (defined self) (members c))) as [He|He].
      * apply Exists_exists in He. done.
      * rewrite (built_no_member reg k c) in Hk; [by destruct Hk|done..|].
        intros m Hm Hd. apply He, Exists_exists. eauto.
  - intros [Hdeps Hsome]. destruct Hb as [Hb _].
    rewrite Hb by (apply dict_get_is_Some; eauto).
    assert (config_of (set_teams self reg) k = c) as Ec.
    { unfold config_of. simpl. by rewrite Hc. }
    rewrite (create_team_instance_Some _ f); [eauto|done| |by rewrite Ec].
    rewrite Ec. intros m Hm Hk. apply Hdeps. by exists c.
Qed.

Lemma built_members reg t c p :
  built self reg → dict_get (teams_config self) t = Some c → reg !! t = Some p →
  p = team_of f c (omap (resolve (set_teams self reg) f) (members c)).
Proof.
  intros Hb Hc Hp.
  assert (is_Some (reg !! t)) as Hs by eauto.
  apply (built_status reg t c Hb Hc) in Hs as [Hdeps Hsome].
  destruct Hb as [Hb _]. rewrite Hb in Hp by (apply dict_get_is_Some; eauto).
  assert (config_of (set_teams self reg) t = c) as Ec.
  { unfold config_of. simpl. by rewrite Hc. }
  rewrite (create_team_instance_Some _ f) in Hp; [|done| |by rewrite Ec].
  - rewrite Ec in Hp. by injection Hp.
  - rewrite Ec. intros m Hm Hk. apply Hdeps. by exists c.
Qed.
End Registry.

(** ** The claims about the resolver and the rebuild *)

(** Closed decidable side conditions are settled by evaluation. *)
Ltac by_computation := apply (bool_decide_unpack _); vm_compute; exact I.

Lemma remove_dups_order (l : list string) : remove_dups l ≡ₚ remove_dups l.
Proof. reflexivity. Defined.

(** ** The dependency resolver *)

(** The loop has stopped by itself within [length team_configs]
    iterations: more fuel gives the same state. *)
Lemma loop_fuel_enough set_order cfg extra :
  (∀ l, set_order l ≡ₚ remove_dups l) → NoDup (keys cfg) →
  loop (length cfg + extra) (build_graph set_order cfg).1
    (initial_state cfg (build_graph set_order cfg).2)
  = run_loop set_order cfg.
Proof.
  intros Hso Hnd. apply loop_more.
  by destruct (run_loop_inv set_order cfg Hso Hnd) as [_ Hq].
Qed.

(** C4.  For every team-definition mapping (a dictionary: its keys are
    distinct) whose team-to-team member graph is acyclic, and whatever
    order the dependency sets are visited in, [_topological_sort] returns
    a list: it holds each team key exactly once, and every team stands in
    it after every member of its definition that is itself a team key. *)
Theorem topological_sort_acyclic set_order cfg :
  (∀ l, set_order l ≡ₚ remove_dups l) → NoDup (keys cfg) → acyclic cfg →
  ∃ l, _topological_sort set_order cfg = Sorted l
     ∧ NoDup l
     ∧ l ≡ₚ keys cfg
     ∧ ∀ before t after, l = before ++ t :: after →
         ∀ d, depends cfg t d → d ∈ before.
Proof.
  intros Hso Hnd Hac. destruct (sort_acyclic set_order cfg Hso Hnd Hac) as [l Hl].
  exists l. split; [done|]. apply sort_Sorted in Hl as (_ & Hperm & Htopo); [|done..].
  split; [by rewrite Hperm | done].
Qed.

Lemma topological_sort_acyclic_witness :
  ∃ l, _topological_sort remove_dups chain_configs = Sorted l
     ∧ NoDup l
     ∧ l ≡ₚ keys chain_configs
     ∧ ∀ before t after, l = before ++ t :: after →
         ∀ d, depends chain_configs t d → d ∈ before.
Proof.
  apply (topological_sort_acyclic remove_dups chain_configs).
  - exact remove_dups_order.
  - by_computation.
  - apply (ranked_acyclic (rank_of ["B"; "C"; "A"]%string)). vm_compute. reflexivity.
Defined.

(** C5.  For every team-definition mapping with a team-to-team cycle,
    [_topological_sort] raises the [ValueError]; the set of keys it names
    is the set of keys whose in-degree is still positive when the loop is
    left, and these are exactly the team keys that are on a cycle or
    depend, directly or through other teams, on a key of a cycle. *)
Theorem topological_sort_cycle_error set_order cfg :
  (∀ l, set_order l ≡ₚ remove_dups l) → NoDup (keys cfg) → cyclic cfg →
  ∃ nodes, _topological_sort set_order cfg = ValueError nodes
     ∧ (∀ k, k ∈ nodes ↔
          k ∈ keys cfg ∧ positive_degree (in_degree (run_loop set_order cfg)) k)
     ∧ (∀ k, k ∈ nodes ↔ behind_cycle cfg k).
Proof.
  intros Hso Hnd Hcyc. destruct (sort_cyclic set_order cfg Hso Hnd Hcyc) as [nodes Hn].
  exists nodes. split; [done|].
  destruct (run_loop_inv set_order cfg Hso Hnd) as [Hinv Hq].
  pose proof (sort_ValueError set_order cfg Hso Hnd nodes Hn) as Hiff.
  split; intros k; rewrite Hiff.
  - split; intros [Hk H]; (split; [done|]); by eapply final_degree.
  - by apply unsorted_iff_behind_cycle.
Qed.

Lemma loop_configs_cyclic : cyclic loop_configs.
Proof.
  exists "B"%string. apply tc_l with "C"%string; [|apply tc_once].
  - exists (members_only ["C"%string]). split; [reflexivity|]. split; by_computation.
  - exists (members_only ["B"%string]). split; [reflexivity|]. split; by_computation.
Defined.

Lemma topological_sort_cycle_error_witness :
  ∃ nodes, _topological_sort remove_dups loop_configs = ValueError nodes
     ∧ (∀ k, k ∈ nodes ↔
          k ∈ keys loop_configs
          ∧ positive_degree (in_degree (run_loop remove_dups loop_configs)) k)
     ∧ (∀ k, k ∈ nodes ↔ behind_cycle loop_configs k).
Proof.
  apply (topological_sort_cycle_error remove_dups loop_configs).
  - exact remove_dups_order.
  - by_computation.
  - exact loop_configs_cyclic.
Defined.


Lemma visit_fifo set_order cfg st c rest :
  (∀ l, set_order l ≡ₚ remove_dups l) → NoDup (keys cfg) →
  queue st = c :: rest →
  ∃ released,
    visit (build_graph set_order cfg).1 st
    = Some (KahnState (foldl relax (in_degree st, rest)
                         (default [] ((build_graph set_order cfg).1 !! c))).1
                      (rest ++ released) (sorted_list st ++ [c]))
    ∧ released `sublist_of` keys cfg.
Proof.
  intros Hso Hnd Hq. unfold visit. rewrite Hq.
  set (A := default [] ((build_graph set_order cfg).1 !! c)).
  assert (A `sublist_of` keys cfg) as Hsub.
  { unfold A. rewrite build_graph_adj by done. case_decide; simpl.
    - unfold dependents_in, keys. apply fmap_sublist, sublist_filter.
    - apply sublist_nil_l. }
  exists (filter (λ d, in_degree st !! d = Some 1) A). split.
  - rewrite relax_fold_queue; [done|]. by eapply sublist_NoDup.
  - etrans; [apply sublist_filter | done].
Qed.




(** ** The rebuild of the registry *)


Lemma nested_configs_acyclic : acyclic nested_configs.
Proof.
  apply (ranked_acyclic (rank_of ["leaf"; "mid"; "top"; "solo"]%string)).
  vm_compute. reflexivity.
Defined.


(** C2, as amended.  A member key that matches neither a team nor an
    agent definition is left out of the team, which is built from the
    members that resolve: an entry of the registry is the team of exactly
    the resolved members of its definition, and, the mapping being
    acyclic, a team whose team members are all built and that has at
    least one defined member is in the registry.  A team whose definition
    lists members none of which is defined has no entry, and neither has
    any team that depends on a key without entry. *)
Theorem missing_member_is_left_out set_order self f :
  (∀ l, set_order l ≡ₚ remove_dups l) →
  NoDup (keys (teams_config self)) →
  app_factory self = Some f →
  ∃ ok reg, reinitialize_teams set_order self = (ok, set_teams self reg)
    ∧ (∀ t c, dict_get (teams_config self) t = Some c →
         members c ≠ [] → (∀ m, m ∈ members c → ¬ defined self m) →
         reg !! t = None
         ∧ ∀ k, tc (depends (teams_config self)) k t → reg !! k = None)
    ∧ (∀ t d, tc (depends (teams_config self)) t d → reg !! d = None →
         reg !! t = None)
    ∧ (∀ t c p, dict_get (teams_config self) t = Some c → reg !! t = Some p →
         p = team_of f c (omap (resolve (set_teams self reg) f) (members c)))
    ∧ (acyclic (teams_config self) →
       ∀ t c, dict_get (teams_config self) t = Some c →
         (∀ d, depends (teams_config self) t d → is_Some (reg !! d)) →
         (∃ m, m ∈ members c ∧ defined self m) →
         is_Some (reg !! t)).
Proof.
  intros Hso Hnd Hf.
  destruct (_topological_sort set_order (teams_config self)) as [l|nodes] eqn:Hs.
  - destruct (reinitialize_teams_Sorted set_order self f Hso Hnd Hf l Hs)
      as (reg & Hr & Hb).
    exists true, reg. split; [done|]. split; [|split; [|split]].
    + intros t c Hc Hne Hnone.
      assert (reg !! t = None) as Ht by by eapply built_no_member.
      split; [done|]. intros k Hk. by eapply built_failure_propagates.
    + intros t d. by apply built_failure_propagates.
    + intros t c p. by apply built_members.
    + intros _ t c Hc Hdeps Hsome. apply (built_status self f Hf reg t c); auto.
  - exists false, ∅. split; [by eapply reinitialize_teams_ValueError|].
    split; [|split; [|split]].
    + intros. split; [done | intros; done].
    + done.
    + intros t c p _ Hp. by rewrite lookup_empty in Hp.
    + intros Hac. destruct (sort_acyclic set_order _ Hso Hnd Hac) as [l Hl].
      by rewrite Hl in Hs.
Qed.

Lemma missing_member_is_left_out_witness :
  ∃ ok reg, reinitialize_teams remove_dups nested_app = (ok, set_teams nested_app reg)
    ∧ (∀ t c, dict_get nested_configs t = Some c →
         members c ≠ [] → (∀ m, m ∈ members c → ¬ defined nested_app m) →
         reg !! t = None
         ∧ ∀ k, tc (depends nested_configs) k t → reg !! k = None)
    ∧ (∀ t d, tc (depends nested_configs) t d → reg !! d = None →
         reg !! t = None)
    ∧ (∀ t c p, dict_get nested_configs t = Some c → reg !! t = Some p →
         p = team_of sample_factory c
               (omap (resolve (set_teams nested_app reg) sample_factory) (members c)))
    ∧ (acyclic nested_configs →
       ∀ t c, dict_get nested_configs t = Some c →
         (∀ d, depends nested_configs t d → is_Some (reg !! d)) →
         (∃ m, m ∈ members c ∧ defined nested_app m) →
         is_Some (reg !! t)).
Proof.
  apply (missing_member_is_left_out remove_dups nested_app sample_factory).
  - exact remove_dups_order.
  - by_computation.
  - reflexivity.
Defined.

(** C2 as stated fails: team [solo] lists the agent [A1] and the
    undefined key [ghost], and the rebuild inserts it with [A1] alone. *)
Lemma partial_team_is_inserted : ¬ missing_member_fails remove_dups nested_app.
Proof.
  intros H.
  specialize (H "solo"%string (members_only ["A1"; "ghost"]%string) "ghost"%string).
  assert (teams (reinitialize_teams remove_dups nested_app).2 !! "solo"%string = None)
    as Hn.
  { apply H; [reflexivity | by_computation | by_computation]. }
  vm_compute in Hn. discriminate Hn.
Qed.

(** C1, as amended.  For every mapping with a team-to-team cycle the
    rebuild returns [False].  With a factory, the registry was emptied
    before the resolver ran and stays empty; without one, the context is
    left as it was. *)
Theorem cycle_rebuild_fails_and_clears set_order self :
  (∀ l, set_order l ≡ₚ remove_dups l) →
  NoDup (keys (teams_config self)) →
  cyclic (teams_config self) →
  reinitialize_teams set_order self
  = (false, match app_factory self with
            | Some _ => set_teams self ∅
            | None => self
            end).
Proof.
  intros Hso Hnd Hcyc. destruct (app_factory self) as [f|] eqn:Hf.
  - destruct (sort_cyclic set_order _ Hso Hnd Hcyc) as [nodes Hn].
    by eapply reinitialize_teams_ValueError.
  - unfold reinitialize_teams. by rewrite Hf.
Qed.

Lemma self_loop_cyclic : cyclic (teams_config self_loop_app).
Proof.
  exists "T1"%string. apply tc_once. exists (members_only ["T1"%string]).
  split; [reflexivity|]. split; by_computation.
Defined.

Lemma cycle_rebuild_fails_and_clears_witness :
  reinitialize_teams remove_dups self_loop_app
  = (false, match app_factory self_loop_app with
            | Some _ => set_teams self_loop_app ∅
            | None => self_loop_app
            end).
Proof.
  apply (cycle_rebuild_fails_and_clears remove_dups self_loop_app).
  - exact remove_dups_order.
  - by_computation.
  - exact self_loop_cyclic.
Defined.

(** C1 as stated fails: the registry holds [T1], the definition of [T1]
    now lists [T1] itself, and after the rebuild the registry is empty. *)
Lemma cycle_discards_previous_registry :
  ¬ cycle_keeps_registry remove_dups self_loop_app.
Proof.
  intros H. destruct (H self_loop_cyclic) as [_ Ht].
  assert (teams (reinitialize_teams remove_dups self_loop_app).2 !! "T1"%string
          = teams self_loop_app !! "T1"%string) as E by by rewrite Ht.
  vm_compute in E. discriminate E.
Qed.

End TeamsProofs.

Module SessionsProofs.
Import Sessions.

(** ** Identifiers *)





Lemma get_path_invalid u session_id c :
  c ∈ session_id → id_char u c = false → _get_path u session_id = inl ValueError.
Proof.
  intros Hc Hbad. unfold _get_path.
  destruct (forallb (id_char u) session_id) eqn:E; [|done].
  rewrite forallb_forall in E. apply list_elem_of_In, E in Hc. congruence.
Qed.

(** C3, as amended.  For an identifier with a character that is neither
    alphanumeric nor a hyphen nor an underscore, [_get_path] raises
    [ValueError]; [load_session] catches it and returns [None], the
    result it also gives for an absent or unparsable document;
    [save_session] raises it to the caller. *)
Theorem load_invalid_id_returns_none unicode_isalnum dir session_id c :
  c ∈ session_id → id_char unicode_isalnum c = false →
  _get_path unicode_isalnum session_id = inl ValueError
  ∧ load_session unicode_isalnum dir session_id = inr None
  ∧ ∀ data, save_session unicode_isalnum dir session_id data = inl ValueError.
Proof.
  intros Hc Hbad. pose proof (get_path_invalid _ _ _ Hc Hbad) as E.
  split; [done|]. split.
  - unfold load_session, load_body. by rewrite E.
  - intros data. unfold save_session. by rewrite E.
Qed.

Lemma load_invalid_id_returns_none_witness :
  _get_path ascii_only (lit "a/b") = inl ValueError
  ∧ load_session ascii_only ∅ (lit "a/b") = inr None
  ∧ ∀ data, save_session ascii_only ∅ (lit "a/b") data = inl ValueError.
Proof.
  apply (load_invalid_id_returns_none ascii_only ∅ (lit "a/b") 47%N).
  - apply (bool_decide_unpack _). vm_compute. exact I.
  - reflexivity.
Defined.

(** C3 as stated fails: [load_session] of the identifier [a/b] returns
    [None], it does not raise. *)
Lemma load_swallows_invalid_id : ¬ load_rejects_invalid_id ascii_only.
Proof.
  intros H. specialize (H ∅ (lit "a/b") 47%N).
  assert (load_session ascii_only ∅ (lit "a/b") = inl ValueError) as E.
  { apply H; [apply (bool_decide_unpack _); vm_compute; exact I | reflexivity]. }
  vm_compute in E. discriminate E.
Qed.

(** C10, as amended.  The empty identifier passes the check of
    [_get_path], so no invalid-identifier error is raised.  A
    [save_session] of a document that UTF-8 can encode, when it returns,
    has stored the document in [session-.json], and [load_session] reads
    that file: it returns the document of the file when there is one
    other than [null], it returns [None] when the file is absent,
    unparsable or holds [null], and it raises [RecursionError] when the
    file is nested too deep. *)
Theorem empty_id_is_accepted unicode_isalnum dir data :
  _get_path unicode_isalnum [] = inr (lit "session-.json")
  ∧ (encodable data = true →
     ∀ dir', save_session unicode_isalnum dir [] data = inr dir' →
       dir' = <[lit "session-.json" := Document data]> dir
       ∧ load_session unicode_isalnum dir' []
         = inr (match data with JNull => None | _ => Some data end))
  ∧ load_session unicode_isalnum dir []
    = match dir !! lit "session-.json" with
      | Some (Document JNull) => inr None
      | Some (Document d) => inr (Some d)
      | Some TooDeep => inl RecursionError
      | Some Garbage | None => inr None
      end.
Proof.
  split; [done|]. split.
  - intros _ dir'. unfold save_session. simpl. intros [= <-]. split; [done|].
    unfold load_session, load_body. simpl. rewrite lookup_insert_eq.
    by destruct data.
  - unfold load_session, load_body. simpl.
    by destruct (dir !! _) as [[[]| |]|].
Qed.

(** C10 as stated fails: once a session document is stored in
    [session-.json], [load_session] of the empty identifier returns it,
    not [None]. *)
Lemma empty_id_finds_saved_document : ¬ empty_id_not_found ascii_only.
Proof.
  intros H. specialize (H (<[lit "session-.json" := Document old_session]> ∅)).
  unfold load_session, load_body in H. simpl in H.
  rewrite lookup_insert_eq in H. discriminate H.
Qed.

(** ** Creation and lookup *)











(** ** The sweep *)

(** A file that the body of the sweep keeps is still there, unchanged,
    after the sweep. *)
Lemma sweep_keeps_fresh_session fromiso now files dir f :
  inspect fromiso now (dir !! f) = inr false →
  _cleanup_old_sessions fromiso now files dir !! f = dir !! f.
Proof.
  revert dir. induction files as [|g files IH]; intros dir Hf; [done|].
  simpl. destruct (decide (g = f)) as [->|Hne].
  - rewrite Hf. by apply IH.
  - assert (Hdel : inspect fromiso now (delete g dir !! f) = inr false)
      by by rewrite lookup_delete_ne.
    destruct (inspect fromiso now (dir !! g)) as [e|[]].
    + destruct (inner_handler e && bool_decide (is_Some (dir !! g))); [|done].
      rewrite IH by done. by rewrite lookup_delete_ne.
    + rewrite IH by done. by rewrite lookup_delete_ne.
    + by apply IH.
Qed.

(** A valid session whose timestamp is at most 24 hours old is kept. *)
Lemma inspect_fresh fromiso now fields ts t :
  dict_get fields (lit "created_at") = Some (JStr ts) →
  fromiso ts = Some (Aware t) → now - t ≤ expiration_duration →
  inspect fromiso now (Some (Document (JObj fields))) = inr false.
Proof.
  intros Hget Hts Hage. unfold inspect.
  assert (lit "created_at" ∈ keys fields) as Hin.
  { clear -Hget. induction fields as [|[k v] fields IH]; [done|].
    simpl in Hget. unfold keys. rewrite fmap_cons. simpl. case_decide; subst.
    - left.
    - right. by apply IH. }
  destruct fields as [|kv fields']; [done|]. cbn [truthy contains].
  rewrite bool_decide_true by done. cbn [getitem]. rewrite Hget.
  cbn [parse_created_at]. rewrite Hts. cbn [elapsed].
  f_equal. apply Z.ltb_ge. done.
Qed.

(** Whatever the parser, a file whose [created_at] is [null] ends the
    sweep: [fromisoformat] raises [TypeError], which the inner handler
    does not list. *)
Lemma sweep_stops_at_null_timestamp fromisoformat now files dir f :
  dir !! f = Some (Document null_timestamp) →
  _cleanup_old_sessions fromisoformat now (f :: files) dir = dir.
Proof. intros Hf. simpl. by rewrite Hf. Qed.

(** C9, the code at the failing input.  The directory holds
    [session-a.json] with a [null] timestamp, [session-b.json] created
    in 2020 and [session-c.json] with a timestamp of 2020 without UTC
    offset, and the sweep runs in 2024.  The body of the sweep unlinks
    [session-b.json] when it reaches it; but a sweep that meets
    [session-a.json] or [session-c.json] first deletes nothing, and one
    that meets [session-b.json] first still leaves [session-a.json]. *)
Theorem sweep_stops_at_type_error :
  inspect utc_fromisoformat sample_now (Some (Document old_session)) = inr true
  ∧ _cleanup_old_sessions utc_fromisoformat sample_now
      [lit "session-a.json"; lit "session-b.json"] sample_dir = sample_dir
  ∧ _cleanup_old_sessions utc_fromisoformat sample_now
      [lit "session-b.json"; lit "session-a.json"] sample_dir
    = delete (lit "session-b.json") sample_dir
  ∧ _cleanup_old_sessions utc_fromisoformat sample_now
      [lit "session-c.json"; lit "session-b.json"] sample_dir = sample_dir.
Proof.
  split; [reflexivity|]. split; [|split].
  - vm_compute. reflexivity.
  - vm_compute. reflexivity.
  - vm_compute. reflexivity.
Qed.

End SessionsProofs.

(** * Further properties of the code *)

(** ** Assignment, deletion and update in a dictionary *)

Section DictUpdates.
Context `{EqDecision K} {V : Type}.
Implicit Types (d : list (K * V)) (k : K) (v : V).

Lemma dict_set_absent d k v : k ∉ keys d → dict_set d k v = d ++ [(k, v)].
Proof.
  unfold keys. induction d as [|[k' v'] d IH]; intros Hk; [done|].
  rewrite fmap_cons in Hk. apply not_elem_of_cons in Hk as [Hne Hk]. simpl in *.
  rewrite decide_False by done. by rewrite IH.
Qed.

Lemma dict_get_set d k v t :
  dict_get (dict_set d k v) t = if decide (k = t) then Some v else dict_get d t.
Proof.
  induction d as [|[k' v'] d IH]; simpl.
  - by case_decide.
  - destruct (decide (k' = k)) as [->|Hne]; simpl.
    + by case_decide.
    + destruct (decide (k' = t)) as [->|Hne'].
      * by rewrite decide_False.
      * done.
Qed.

Lemma keys_dict_set d k v :
  keys (dict_set d k v) = if decide (k ∈ keys d) then keys d else keys d ++ [k].
Proof.
  unfold keys. induction d as [|[k' v'] d IH]; [done|].
  simpl. destruct (decide (k' = k)) as [->|Hne].
  - rewrite decide_True by left. done.
  - rewrite fmap_cons, IH. simpl. destruct (decide (k ∈ d.*1)) as [Hin|Hout].
    + rewrite decide_True by by right. done.
    + rewrite decide_False; [done|]. rewrite not_elem_of_cons. split; [done|done].
Qed.

Lemma dict_set_set_get d k v o :
  dict_get d k = Some o → dict_set (dict_set d k v) k o = d.
Proof.
  induction d as [|[k' v'] d IH]; simpl; [done|].
  destruct (decide (k' = k)) as [->|Hne]; simpl.
  - intros [= ->]. by rewrite decide_True.
  - intros H. rewrite decide_False by done. by rewrite IH.
Qed.


Lemma NoDup_dict_del d k : NoDup (keys d) → NoDup (keys (dict_del d k)).
Proof.
  intros Hnd. apply (sublist_NoDup _ (keys d)); [done|].
  unfold keys, dict_del. apply fmap_sublist, sublist_filter.
Qed.

Lemma NoDup_dict_set d k v : NoDup (keys d) → NoDup (keys (dict_set d k v)).
Proof.
  intros Hnd. rewrite keys_dict_set. case_decide as Hk; [done|].
  apply NoDup_app. split; [done|]. split; [|apply NoDup_singleton].
  intros x Hx ->%list_elem_of_singleton. done.
Qed.

Lemma dict_get_del d k t :
  dict_get (dict_del d k) t = if decide (t = k) then None else dict_get d t.
Proof.
  unfold dict_del. induction d as [|[k' v'] d IH].
  - simpl. by case_decide.
  - rewrite filter_cons. simpl. destruct (decide (k' ≠ k)) as [Hne|Heq%dec_stable].
    + simpl. destruct (decide (k' = t)) as [->|Hne'].
      * by rewrite decide_False.
      * done.
    + subst k'. rewrite IH. destruct (decide (t = k)) as [->|Hne]; [done|].
      by rewrite decide_False.
Qed.

Lemma dict_del_set_absent d k v : k ∉ keys d → dict_del (dict_set d k v) k = d.
Proof.
  intros Hk. rewrite dict_set_absent by done. unfold dict_del.
  rewrite filter_app, filter_cons_False, filter_nil, app_nil_r by (simpl; tauto).
  clear v. unfold keys in Hk. induction d as [|[k' v'] d IH]; [done|].
  rewrite fmap_cons in Hk. apply not_elem_of_cons in Hk as [Hne Hk].
  rewrite filter_cons_True by (simpl; intros E; by subst). by rewrite IH.
Qed.
End DictUpdates.

Section DictUpdate.
Context `{EqDecision K} {V : Type}.
Implicit Types (d data : list (K * V)) (k : K) (v : V).

Lemma elem_of_dict_set d k v x : x ∈ dict_set d k v → x ∈ d ∨ x = (k, v).
Proof.
  induction d as [|[k' v'] d IH]; simpl.
  - intros ->%list_elem_of_singleton. by right.
  - case_decide; subst.
    + intros [->|Hx]%elem_of_cons; [by right|left; by right].
    + intros [->|Hx]%elem_of_cons; [left; by left|].
      destruct (IH Hx); [left; by right|by right].
Qed.

Lemma elem_of_dict_update d data x : x ∈ dict_update d data → x ∈ d ∨ x ∈ data.
Proof.
  unfold dict_update. revert d. induction data as [|[k v] data IH]; intros d; simpl.
  - by left.
  - intros [[Hx| ->]%elem_of_dict_set|Hx]%IH.
    + by left.
    + right; by left.
    + right; by right.
Qed.

Lemma keys_dict_set_mono d k v x : x ∈ keys d → x ∈ keys (dict_set d k v).
Proof.
  rewrite keys_dict_set. case_decide; [done|]. intros; apply elem_of_app; by left.
Qed.

Lemma keys_dict_update_mono d data x : x ∈ keys d → x ∈ keys (dict_update d data).
Proof.
  unfold dict_update. revert d. induction data as [|[k v] data IH]; intros d; simpl.
  - done.
  - intros Hx. by apply IH, keys_dict_set_mono.
Qed.

Lemma dict_get_update d data k :
  NoDup (keys data) →
  dict_get (dict_update d data) k
  = match dict_get data k with Some v => Some v | None => dict_get d k end.
Proof.
  unfold dict_update, keys. revert d.
  induction data as [|[k' v'] data IH]; intros d Hnd; [done|].
  rewrite fmap_cons in Hnd. apply NoDup_cons in Hnd as [Hk' Hnd]. simpl.
  rewrite (IH _ Hnd), dict_get_set. case_decide as Hk; [subst|done].
  by rewrite (proj2 (dict_get_None data k) Hk').
Qed.

Lemma filter_notin_snoc (l ks : list K) k :
  k ∉ l → filter (λ x, x ∉ ks ++ [k]) l = filter (λ x, x ∉ ks) l.
Proof.
  induction l as [|x l IH]; [done|].
  intros [Hne Hk]%not_elem_of_cons. rewrite !filter_cons, (IH Hk).
  destruct (decide (x ∉ ks)) as [Hn|Hn].
  - rewrite decide_True; [done|].
    rewrite elem_of_app, list_elem_of_singleton. intros [?|?]; [done|by subst].
  - rewrite decide_False; [done|].
    rewrite elem_of_app. intros Hx. apply Hn. tauto.
Qed.

Lemma keys_dict_update d data :
  NoDup (keys data) →
  keys (dict_update d data) = keys d ++ filter (λ k, k ∉ keys d) (keys data).
Proof.
  unfold dict_update, keys. revert d.
  induction data as [|[k v] data IH]; intros d Hnd.
  - simpl. by rewrite app_nil_r.
  - rewrite fmap_cons in Hnd. apply NoDup_cons in Hnd as [Hk Hnd].
    simpl. rewrite (IH _ Hnd). fold (keys (dict_set d k v)).
    rewrite keys_dict_set. unfold keys. rewrite filter_cons. simpl.
    destruct (decide (k ∈ d.*1)) as [Hin|Hout].
    + rewrite decide_False by tauto. done.
    + rewrite decide_True by done. rewrite <- app_assoc. simpl. do 2 f_equal.
      by apply filter_notin_snoc.
Qed.
End DictUpdate.

(** ** The session store *)

Module SessionStore.
Import Sessions SessionsProofs.

Lemma session_path_inj a b : session_path a = session_path b → a = b.
Proof.
  unfold session_path. intros H. apply app_inv_head in H.
  by apply app_inv_tail in H.
Qed.


Lemma get_path_cases u session_id :
  (forallb (id_char u) session_id = true
   ∧ _get_path u session_id = inr (session_path session_id))
  ∨ (forallb (id_char u) session_id = false
     ∧ _get_path u session_id = inl ValueError).
Proof. unfold _get_path. destruct (forallb _ _); auto. Qed.

(** X1. [save_session] then [load_session]: when [save_session] of a
    document that UTF-8 can encode returns, the identifier was made of
    alphanumerics, hyphens and underscores and the file name was within
    the limit of the file system, the file of the identifier holds the
    document, and [load_session] of the same identifier returns the
    document ([None] for the document [null]). *)
Theorem save_then_load unicode_isalnum dir session_id data dir' :
  encodable data = true →
  save_session unicode_isalnum dir session_id data = inr dir' →
  forallb (id_char unicode_isalnum) session_id = true
  ∧ name_fits (session_path session_id) = true
  ∧ dir' !! session_path session_id = Some (Document data)
  ∧ load_session unicode_isalnum dir' session_id
    = inr (match data with JNull => None | _ => Some data end).
Proof.
  intros _. unfold save_session.
  destruct (get_path_cases unicode_isalnum session_id) as [[Hid E]|[_ E]];
    rewrite E; [|done].
  destruct (name_fits (session_path session_id)) eqn:Hfit; [|done].
  intros [= <-]. split; [done|]. split; [done|].
  split; [apply lookup_insert_eq|].
  unfold load_session, load_body. rewrite E, lookup_insert_eq.
  by destruct data.
Qed.

Lemma save_then_load_witness :
  forallb (id_char ascii_only) (lit "run-7_b") = true
  ∧ name_fits (session_path (lit "run-7_b")) = true
  ∧ <[session_path (lit "run-7_b") := Document old_session]> sample_dir
      !! session_path (lit "run-7_b") = Some (Document old_session)
  ∧ load_session ascii_only
      (<[session_path (lit "run-7_b") := Document old_session]> sample_dir)
      (lit "run-7_b")
    = inr (Some old_session).
Proof.
  apply (save_then_load ascii_only sample_dir (lit "run-7_b") old_session).
  - reflexivity.
  - reflexivity.
Defined.

(** [open] refuses a file name of 256 bytes: [save_session] of an
    identifier of 243 letters raises [OSError]. *)
Lemma save_long_name_raises dir data :
  save_session ascii_only dir (replicate 243 97%N) data = inl IOError.
Proof. reflexivity. Qed.

(** X2. [save_session] writes one file only: after a successful save under
    one identifier, [load_session] gives for every other identifier what
    it gave before. *)
Theorem save_leaves_other_sessions unicode_isalnum dir id1 id2 data dir' :
  id1 ≠ id2 →
  save_session unicode_isalnum dir id1 data = inr dir' →
  load_session unicode_isalnum dir' id2 = load_session unicode_isalnum dir id2.
Proof.
  intros Hne Hsave. unfold save_session in Hsave.
  destruct (get_path_cases unicode_isalnum id1) as [[_ E1]|[_ E1]];
    rewrite E1 in Hsave; [|done].
  destruct (name_fits (session_path id1)); [|done].
  injection Hsave as <-. unfold load_session, load_body.
  destruct (get_path_cases unicode_isalnum id2) as [[_ E2]|[_ E2]];
    rewrite E2; [|done].
  rewrite lookup_insert_ne; [done|]. intros H. by apply session_path_inj in H.
Qed.

Lemma save_leaves_other_sessions_witness :
  load_session ascii_only (<[session_path (lit "a") := Document JNull]> sample_dir)
    (lit "b")
  = load_session ascii_only sample_dir (lit "b").
Proof.
  apply (save_leaves_other_sessions ascii_only sample_dir (lit "a") (lit "b") JNull).
  - apply (bool_decide_unpack _). vm_compute. exact I.
  - reflexivity.
Defined.

(** X3. [load_session] raises in one case only: the identifier is
    valid and its file is nested deeper than the decoder's recursion
    limit, and the exception is [RecursionError].  It returns a document
    exactly when the identifier is valid and the file
    [session-<id>.json] holds that document and the document is not
    [null]; for an invalid identifier, a missing file, an unparsable
    file and the document [null] it returns [None]. *)
Theorem load_session_result unicode_isalnum dir session_id :
  (∀ e, load_session unicode_isalnum dir session_id = inl e
        ↔ e = RecursionError
          ∧ forallb (id_char unicode_isalnum) session_id = true
          ∧ dir !! session_path session_id = Some TooDeep)
  ∧ (∀ d, load_session unicode_isalnum dir session_id = inr (Some d)
          ↔ forallb (id_char unicode_isalnum) session_id = true
            ∧ dir !! session_path session_id = Some (Document d)
            ∧ d ≠ JNull)
  ∧ (load_session unicode_isalnum dir session_id = inr None
     ↔ forallb (id_char unicode_isalnum) session_id = false
       ∨ dir !! session_path session_id = None
       ∨ dir !! session_path session_id = Some Garbage
       ∨ dir !! session_path session_id = Some (Document JNull)).
Proof.
  unfold load_session, load_body.
  destruct (get_path_cases unicode_isalnum session_id) as [[Hv E]|[Hv E]]; rewrite E.
  - destruct (dir !! session_path session_id) as [[[]| |]|] eqn:Ef;
      (split; [|split]); [intros e|intros d|..];
      (split; [intros ?|intros ?]);
      destruct_and?; destruct_or?; simplify_eq; try done;
      try (split_and!; done); auto; congruence.
  - (split; [|split]); [intros e|intros d|];
      (split; [intros ?|intros ?]);
      destruct_and?; destruct_or?; simplify_eq; try done; auto; congruence.
Qed.

(** The sweep has no way to bring a file back. *)
Lemma sweep_absent fromiso now files dir f :
  dir !! f = None → _cleanup_old_sessions fromiso now files dir !! f = None.
Proof.
  revert dir. induction files as [|g files IH]; intros dir Hf; [done|].
  simpl.
  assert (delete g dir !! f = None) as Hdel.
  { destruct (decide (g = f)) as [->|Hne];
      [apply lookup_delete_eq | by rewrite lookup_delete_ne]. }
  destruct (inspect fromiso now (dir !! g)) as [e|[]]; auto.
  destruct (inner_handler e && bool_decide (is_Some (dir !! g))); auto.
Qed.

(** X4. [_cleanup_old_sessions] never creates or changes a file: after the
    sweep every file is as it was or is gone, and a file that is gone was
    in the listing and was not found to be younger than 24 hours. *)
Theorem sweep_only_deletes fromisoformat now files dir f :
  _cleanup_old_sessions fromisoformat now files dir !! f = dir !! f
  ∨ (_cleanup_old_sessions fromisoformat now files dir !! f = None
     ∧ f ∈ files
     ∧ inspect fromisoformat now (dir !! f) ≠ inr false).
Proof.
  revert dir. induction files as [|g files IH]; intros dir; [by left|].
  simpl.
  assert (Hkeep : _cleanup_old_sessions fromisoformat now files dir !! f = dir !! f
            ∨ _cleanup_old_sessions fromisoformat now files dir !! f = None
              ∧ f ∈ g :: files ∧ inspect fromisoformat now (dir !! f) ≠ inr false).
  { destruct (IH dir) as [?|(? & ? & ?)]; [by left|]. right.
    split; [done|]. split; [by right | done]. }
  assert (Hdel : inspect fromisoformat now (dir !! g) ≠ inr false →
            _cleanup_old_sessions fromisoformat now files (delete g dir) !! f = dir !! f
            ∨ _cleanup_old_sessions fromisoformat now files (delete g dir) !! f = None
              ∧ f ∈ g :: files ∧ inspect fromisoformat now (dir !! f) ≠ inr false).
  { intros Hg. destruct (decide (g = f)) as [->|Hne].
    - right. split; [apply sweep_absent, lookup_delete_eq|]. split; [left | done].
    - destruct (IH (delete g dir)) as [E|(E & Hin & Hi)];
        rewrite lookup_delete_ne in * by done; [by left|].
      right. split; [done|]. split; [by right | done]. }
  destruct (inspect fromisoformat now (dir !! g)) as [e|[]] eqn:Eg.
  - destruct (inner_handler e && bool_decide (is_Some (dir !! g))); [|by left].
    by apply Hdel.
  - by apply Hdel.
  - done.
Qed.

(** X5. [_cleanup_old_sessions] on a listing without repetitions in which
    every file exists and raises, if anything, an exception of the inner
    handler: every listed file is handled; the sessions younger than 24
    hours stay as they are, the expired and the unreadable files are
    deleted. *)
Theorem sweep_complete fromisoformat now files dir :
  NoDup files →
  (∀ f, f ∈ files → handled fromisoformat now (dir !! f)) →
  ∀ f, f ∈ files →
    _cleanup_old_sessions fromisoformat now files dir !! f
    = match inspect fromisoformat now (dir !! f) with
      | inr false => dir !! f
      | _ => None
      end.
Proof.
  revert dir. induction files as [|g files IH]; intros dir Hnd Hh f Hf.
  - by apply elem_of_nil in Hf.
  - apply NoDup_cons in Hnd as [Hg Hnd]. simpl.
    assert (Hrest : ∀ dir1, (∀ x, x ≠ g → dir1 !! x = dir !! x) → f ≠ g →
              _cleanup_old_sessions fromisoformat now files dir1 !! f
              = match inspect fromisoformat now (dir !! f) with
                | inr false => dir !! f
                | _ => None
                end).
    { intros dir1 H1 Hne. apply elem_of_cons in Hf as [?|Hf]; [done|].
      rewrite IH; [by rewrite H1 | done | | done].
      intros x Hx. rewrite H1; [apply Hh; by right | by intros ->]. }
    destruct (Hh g) as [Hsome Hexn]; [left|].
    destruct (decide (f = g)) as [->|Hne].
    + destruct (inspect fromisoformat now (dir !! g)) as [e|[]] eqn:Eg.
      * rewrite (Hexn e eq_refl), bool_decide_true by done. simpl.
        apply sweep_absent, lookup_delete_eq.
      * apply sweep_absent, lookup_delete_eq.
      * apply sweep_keeps_fresh_session. done.
    + destruct (inspect fromisoformat now (dir !! g)) as [e|[]] eqn:Eg.
      * rewrite (Hexn e eq_refl), bool_decide_true by done. simpl.
        apply Hrest; [|done]. intros x Hx. by rewrite lookup_delete_ne.
      * apply Hrest; [|done]. intros x Hx. by rewrite lookup_delete_ne.
      * by apply Hrest.
Qed.

Lemma sweep_complete_witness :
  let files := [lit "session-e.json"; lit "session-b.json"; lit "session-d.json"] in
  let swept := _cleanup_old_sessions utc_fromisoformat sample_now files busy_dir in
  swept !! lit "session-e.json" = None
  ∧ swept !! lit "session-b.json" = None
  ∧ swept !! lit "session-d.json" = Some (Document fresh_session).
Proof.
  intros files swept.
  assert (H : ∀ f, f ∈ files →
            swept !! f = match inspect utc_fromisoformat sample_now (busy_dir !! f) with
                         | inr false => busy_dir !! f
                         | _ => None
                         end).
  { apply (sweep_complete utc_fromisoformat sample_now files busy_dir).
    - apply (bool_decide_unpack _). vm_compute. exact I.
    - intros f Hf.
      repeat (apply elem_of_cons in Hf as [->|Hf]); [..|by apply elem_of_nil in Hf];
        (split; [vm_compute; eauto | intros e; vm_compute; intros H;
           first [discriminate H | injection H as <-; reflexivity]]). }
  split; [|split]; (rewrite H; [vm_compute; reflexivity|]);
    apply (bool_decide_unpack _); vm_compute; exact I.
Defined.

(** X6. A session document whose [created_at] parses to an instant with UTC
    offset at most 24 hours before [now] is in the directory, unchanged,
    after [_cleanup_old_sessions], whatever else the directory holds, in
    whatever order the files are listed, and also when the sweep is ended
    by an exception. *)
Theorem fresh_session_survives_sweep fromisoformat now files dir f fields ts t :
  dir !! f = Some (Document (JObj fields)) →
  dict_get fields (lit "created_at") = Some (JStr ts) →
  fromisoformat ts = Some (Aware t) →
  now - t ≤ expiration_duration →
  _cleanup_old_sessions fromisoformat now files dir !! f
  = Some (Document (JObj fields)).
Proof.
  intros Hf Hget Hts Hage. rewrite <- Hf. apply sweep_keeps_fresh_session.
  rewrite Hf. by eapply inspect_fresh.
Qed.

Lemma fresh_session_survives_sweep_witness :
  _cleanup_old_sessions utc_fromisoformat sample_now
    [lit "session-e.json"; lit "session-d.json"; lit "session-a.json";
     lit "session-b.json"] busy_dir !! lit "session-d.json"
  = Some (Document fresh_session).
Proof.
  apply (fresh_session_survives_sweep utc_fromisoformat sample_now _ busy_dir
           (lit "session-d.json") _ (lit "2024-11-03T17:25:00.123456+00:00")
           (sample_now - 60000000)).
  - reflexivity.
  - reflexivity.
  - vm_compute. reflexivity.
  - vm_compute. discriminate.
Defined.



End SessionStore.

(** ** The dependency resolver and the rebuild *)

Module TeamRegistry.
Import Teams TeamsProofs.

(** The keys that wait in the queue are popped before any key that is
    queued later. *)
Lemma loop_pops_queue set_order cfg n st :
  (∀ l, set_order l ≡ₚ remove_dups l) → NoDup (keys cfg) →
  ∃ rest, sorted_list (loop n (build_graph set_order cfg).1 st)
          = sorted_list st ++ take n (queue st) ++ rest.
Proof.
  intros Hso Hnd. revert st. induction n as [|n IH]; intros st.
  - exists []. simpl. by rewrite app_nil_r.
  - simpl. destruct (queue st) as [|c q] eqn:Hq.
    + rewrite (proj2 (visit_None _ st) Hq). exists []. by rewrite app_nil_r.
    + destruct (visit_fifo set_order cfg st c q Hso Hnd Hq) as (released & Hv & _).
      rewrite Hv. destruct (IH (KahnState
        (foldl relax (in_degree st, q)
           (default [] ((build_graph set_order cfg).1 !! c))).1
        (q ++ released) (sorted_list st ++ [c]))) as [rest Hrest].
      rewrite Hrest. simpl. rewrite take_app.
      exists (take (n - length q) released ++ rest).
      rewrite <- !app_assoc. done.
Qed.

(** X8. The build order of [_topological_sort] begins with the teams that
    have no defined team among their members, in the insertion order of
    the mapping. *)
Theorem leaf_teams_first set_order cfg l :
  (∀ l, set_order l ≡ₚ remove_dups l) → NoDup (keys cfg) →
  _topological_sort set_order cfg = Sorted l →
  ∃ rest, l = filter (λ k, deps cfg k = []) (keys cfg) ++ rest.
Proof.
  intros Hso Hnd Hs. apply sort_Sorted in Hs as (-> & _ & _); [|done..].
  unfold run_loop.
  destruct (loop_pops_queue set_order cfg (length cfg)
              (initial_state cfg (build_graph set_order cfg).2) Hso Hnd) as [rest Hr].
  assert (queue (initial_state cfg (build_graph set_order cfg).2)
          = filter (λ k, deps cfg k = []) (keys cfg)) as Hq.
  { unfold initial_state. simpl. apply filter_iff_elem. intros k Hk.
    rewrite (graph_deg set_order cfg) by done. split.
    - intros [= H]. destruct (deps cfg k); [done | simpl in H; lia].
    - by intros ->. }
  rewrite Hq in Hr. exists rest. rewrite Hr.
  rewrite take_ge; [done|].
  etrans; [apply length_filter|]. unfold keys. by rewrite length_fmap.
Qed.

Lemma leaf_teams_first_witness :
  ∃ rest, ["leaf"; "solo"; "mid"; "top"]%string
          = filter (λ k, deps nested_configs k = []) (keys nested_configs) ++ rest.
Proof.
  apply (leaf_teams_first remove_dups nested_configs).
  - exact remove_dups_order.
  - by_computation.
  - vm_compute. reflexivity.
Defined.

Lemma dependents_in_items cfg items d :
  Forall (λ it, dict_get cfg it.1 = Some it.2) items →
  dependents_in cfg items d = filter (λ t, d ∈ deps cfg t) (keys items).
Proof.
  unfold dependents_in, keys.
  induction 1 as [|[t c] items Hit _ IH]; [done|].
  rewrite filter_cons, fmap_cons, filter_cons. simpl in *.
  assert ((d ∈ members c ∧ d ∈ cfg.*1) ↔ d ∈ deps cfg t) as Hiff.
  { rewrite (elem_of_deps cfg). unfold depends. rewrite Hit. split.
    - intros [? ?]. by exists c.
    - intros (? & [= <-] & ? & ?). done. }
  destruct (decide (d ∈ members c ∧ d ∈ cfg.*1)) as [H|H].
  - rewrite decide_True by by apply Hiff. rewrite fmap_cons. simpl. by rewrite IH.
  - rewrite decide_False by (by rewrite <- Hiff). done.
Qed.

Lemma dependents_in_filter cfg d :
  NoDup (keys cfg) →
  dependents_in cfg cfg d = filter (λ t, d ∈ deps cfg t) (keys cfg).
Proof.
  intros Hnd. apply dependents_in_items, Forall_forall.
  intros [t c] Hin. by apply dict_get_elem.
Qed.

Lemma build_graph_team_edges so so' cfg cfg' :
  (∀ l, so l ≡ₚ remove_dups l) → (∀ l, so' l ≡ₚ remove_dups l) →
  NoDup (keys cfg) → keys cfg' = keys cfg →
  (∀ t d, depends cfg' t d ↔ depends cfg t d) →
  build_graph so' cfg' = build_graph so cfg.
Proof.
  intros Hso Hso' Hnd Hk Hdep.
  assert (Hnd' : NoDup (keys cfg')) by by rewrite Hk.
  assert (Hin : ∀ t d, d ∈ deps cfg' t ↔ d ∈ deps cfg t).
  { intros t d. by rewrite !elem_of_deps. }
  rewrite (surjective_pairing (build_graph so' cfg')),
    (surjective_pairing (build_graph so cfg)).
  f_equal; apply map_eq; intros k.
  - rewrite !build_graph_adj by done. rewrite Hk. case_decide; [|done].
    rewrite !dependents_in_filter by done. rewrite Hk. f_equal.
    apply list_filter_iff. intros t. apply Hin.
  - destruct (decide (k ∈ keys cfg)) as [Hin_k|Hout].
    + assert (k ∈ keys cfg') as Hin_k' by by rewrite Hk.
      rewrite (graph_deg so' cfg' Hso' Hnd' k Hin_k'), (graph_deg so cfg Hso Hnd k Hin_k).
      do 2 f_equal.
      apply Permutation_length, NoDup_Permutation; [apply NoDup_deps..|]. apply Hin.
    + rewrite !build_graph_deg by done.
      assert (dict_get cfg k = None) as -> by by apply dict_get_None.
      assert (dict_get cfg' k = None) as ->; [|done].
      apply dict_get_None. by rewrite Hk.
Qed.

(** X9. The result of [_topological_sort] (the order, or the error with its
    keys) depends only on the order of the keys and on which team has
    which defined team as a member: two mappings with the same keys in
    the same order and the same team-to-team member relation give the
    same result, whatever agents, undefined keys and repetitions their
    member lists hold and whatever the iteration order of the sets. *)
Theorem order_depends_on_team_edges set_order set_order' cfg cfg' :
  (∀ l, set_order l ≡ₚ remove_dups l) → (∀ l, set_order' l ≡ₚ remove_dups l) →
  NoDup (keys cfg) → keys cfg' = keys cfg →
  (∀ t d, depends cfg' t d ↔ depends cfg t d) →
  _topological_sort set_order' cfg' = _topological_sort set_order cfg.
Proof.
  intros Hso Hso' Hnd Hk Hdep.
  unfold _topological_sort, run_loop, initial_state.
  rewrite (build_graph_team_edges set_order set_order' cfg cfg') by done.
  assert (length cfg' = length cfg) as ->.
  { rewrite <- (length_fmap fst cfg), <- (length_fmap fst cfg').
    fold (keys cfg) (keys cfg'). by rewrite Hk. }
  by rewrite Hk.
Qed.

Lemma depends_by_deps cfg cfg' :
  keys cfg' = keys cfg →
  (∀ t, t ∈ keys cfg → deps cfg' t = deps cfg t) →
  ∀ t d, depends cfg' t d ↔ depends cfg t d.
Proof.
  intros Hk Hd t d. destruct (decide (t ∈ keys cfg)) as [Ht|Ht].
  - by rewrite <- !elem_of_deps, Hd.
  - split; intros H; apply depends_keys in H as [H _]; [by rewrite Hk in H | done].
Qed.

Lemma order_depends_on_team_edges_witness :
  _topological_sort reversed_order chain_configs_with_agents
  = _topological_sort remove_dups chain_configs.
Proof.
  apply (order_depends_on_team_edges remove_dups reversed_order
           chain_configs chain_configs_with_agents).
  - exact remove_dups_order.
  - intros l. apply reverse_Permutation.
  - by_computation.
  - reflexivity.
  - apply depends_by_deps; [reflexivity|]. intros t Ht.
    repeat (apply elem_of_cons in Ht as [->|Ht]); [..|by apply elem_of_nil in Ht];
      vm_compute; reflexivity.
Defined.

(** X10. With a factory and an acyclic mapping, [reinitialize_teams] returns
    [True], and every team of the new registry is built from its
    definition with these members and no others: the registry entry of
    each member that is a defined team, and the agent built for each
    member that is a defined agent and not a team key. *)
Theorem built_team_holds_defined_members set_order self f :
  (∀ l, set_order l ≡ₚ remove_dups l) →
  NoDup (keys (teams_config self)) →
  app_factory self = Some f →
  acyclic (teams_config self) →
  ∃ reg, reinitialize_teams set_order self = (true, set_teams self reg)
    ∧ ∀ t c p, dict_get (teams_config self) t = Some c → reg !! t = Some p →
        ∃ ms, p = team_of f c ms
          ∧ (∀ d, d ∈ members c → d ∈ keys (teams_config self) →
               ∃ q, reg !! d = Some q ∧ q ∈ ms)
          ∧ (∀ a agent_config, a ∈ members c → a ∉ keys (teams_config self) →
               agents self !! a = Some agent_config →
               make_agent f a agent_config ∈ ms)
          ∧ (∀ q, q ∈ ms →
               ∃ m, m ∈ members c
                 ∧ (m ∈ keys (teams_config self) ∧ reg !! m = Some q
                    ∨ (m ∉ keys (teams_config self))
                      ∧ ∃ agent_config, agents self !! m = Some agent_config
                          ∧ q = make_agent f m agent_config)).
Proof.
  intros Hso Hnd Hf Hac.
  destruct (sort_acyclic set_order _ Hso Hnd Hac) as [l Hl].
  destruct (reinitialize_teams_Sorted set_order self f Hso Hnd Hf l Hl)
    as (reg & Hr & Hb).
  exists reg. split; [done|]. intros t c p Hc Hp.
  pose proof (built_members self f Hf reg t c p Hb Hc Hp) as ->.
  eexists. split; [done|].
  assert (is_Some (reg !! t)) as Hs by eauto.
  apply (built_status self f Hf reg t c Hb Hc) in Hs as [Hdeps _].
  split; [|split].
  - intros d Hd Hk. destruct (Hdeps d) as [q Hq]; [by exists c|].
    exists q. split; [done|]. apply list_elem_of_omap. exists d. split; [done|].
    unfold resolve. simpl. by rewrite decide_True.
  - intros a ac Ha Hk Hag. apply list_elem_of_omap. exists a. split; [done|].
    unfold resolve. simpl. rewrite decide_False by done. by rewrite Hag.
  - intros q Hq. apply list_elem_of_omap in Hq as (m & Hm & Hres).
    exists m. split; [done|]. unfold resolve in Hres. simpl in Hres.
    case_decide as Hk; [by left|]. right. split; [done|].
    destruct (agents self !! m) as [ac|]; [|done].
    exists ac. split; [done|]. by injection Hres.
Qed.

Lemma built_team_holds_defined_members_witness :
  ∃ reg, reinitialize_teams remove_dups nested_app = (true, set_teams nested_app reg)
    ∧ ∀ t c p, dict_get nested_configs t = Some c → reg !! t = Some p →
        ∃ ms, p = team_of sample_factory c ms
          ∧ (∀ d, d ∈ members c → d ∈ keys nested_configs →
               ∃ q, reg !! d = Some q ∧ q ∈ ms)
          ∧ (∀ a agent_config, a ∈ members c → a ∉ keys nested_configs →
               agents nested_app !! a = Some agent_config →
               make_agent sample_factory a agent_config ∈ ms)
          ∧ (∀ q, q ∈ ms →
               ∃ m, m ∈ members c
                 ∧ (m ∈ keys nested_configs ∧ reg !! m = Some q
                    ∨ (m ∉ keys nested_configs)
                      ∧ ∃ agent_config, agents nested_app !! m = Some agent_config
                          ∧ q = make_agent sample_factory m agent_config)).
Proof.
  apply (built_team_holds_defined_members remove_dups nested_app sample_factory).
  - exact remove_dups_order.
  - by_computation.
  - reflexivity.
  - exact nested_configs_acyclic.
Defined.

(** X11. [reinitialize_teams] starts from the definitions: its return value
    does not depend on the registry it finds, with a factory the new
    registry does not either, and rebuilding twice gives what rebuilding
    once gives. *)
Theorem rebuild_ignores_previous_registry set_order self registry :
  (reinitialize_teams set_order (set_teams self registry)).1
  = (reinitialize_teams set_order self).1
  ∧ (is_Some (app_factory self) →
     reinitialize_teams set_order (set_teams self registry)
     = reinitialize_teams set_order self)
  ∧ reinitialize_teams set_order (reinitialize_teams set_order self).2
    = reinitialize_teams set_order self.
Proof.
  assert (Hset : ∀ t, is_Some (app_factory self) →
            reinitialize_teams set_order (set_teams self t)
            = reinitialize_teams set_order self).
  { intros t [f Hf]. unfold reinitialize_teams. simpl. by rewrite Hf. }
  split; [|split; [apply Hset|]].
  - destruct (app_factory self) as [f|] eqn:Hf; [by rewrite Hset|].
    unfold reinitialize_teams. simpl. by rewrite Hf.
  - destruct (app_factory self) as [f|] eqn:Hf.
    + assert (∃ b t, reinitialize_teams set_order self = (b, set_teams self t))
        as (b & t & E).
      { unfold reinitialize_teams. rewrite Hf.
        destruct (teams_config self); [eauto|].
        destruct (_topological_sort _ _); [|eauto].
        eexists _, _. by rewrite foldl_build_step_set_teams at 1. }
      rewrite E at 1. simpl. apply Hset. eauto.
    + unfold reinitialize_teams. rewrite Hf. simpl. by rewrite Hf.
Qed.

End TeamRegistry.

(** ** The team and agent tools *)

Module ToolsProofs.
Import Teams TeamsProofs Tools.

Lemma sort_Sorted_acyclic set_order cfg l :
  (∀ l, set_order l ≡ₚ remove_dups l) → NoDup (keys cfg) →
  _topological_sort set_order cfg = Sorted l → acyclic cfg.
Proof.
  intros Hso Hnd Hs k Hk.
  destruct (sort_cyclic set_order cfg Hso Hnd) as [nodes Hn]; [by exists k|].
  by rewrite Hs in Hn.
Qed.

Lemma sort_ValueError_cyclic set_order cfg nodes :
  (∀ l, set_order l ≡ₚ remove_dups l) → NoDup (keys cfg) →
  _topological_sort set_order cfg = ValueError nodes → cyclic cfg.
Proof.
  intros Hso Hnd Hs.
  destruct (run_loop_inv set_order cfg Hso Hnd) as [Hinv Hq].
  set (sorted := sorted_list (run_loop set_order cfg)) in *.
  destruct (decide (Forall (λ k, k ∈ sorted) (keys cfg))) as [Hall|Hex].
  - exfalso. revert Hs. unfold _topological_sort. cbv zeta. fold sorted.
    rewrite decide_True; [done|].
    replace (length cfg) with (length (keys cfg)) by apply length_fmap.
    pose proof (inv_nodup _ _ Hinv) as Hnd'. rewrite Hq, app_nil_r in Hnd'.
    apply Permutation_length, NoDup_Permutation; [done..|]. intros k. split.
    + intros Hk. apply (inv_keys _ _ Hinv). by rewrite Hq, app_nil_r.
    + intros Hk. by apply (proj1 (Forall_forall _ _) Hall).
  - apply not_Forall_Exists in Hex; [|apply _].
    apply Exists_exists in Hex as (k & Hk & Hn).
    destruct (unsorted_behind_cycle cfg _ k Hinv Hq Hk Hn) as (c & _ & Hc).
    by exists c.
Qed.

Lemma reinitialize_teams_cases set_order self f :
  (∀ l, set_order l ≡ₚ remove_dups l) → NoDup (keys (teams_config self)) →
  app_factory self = Some f →
  (acyclic (teams_config self)
   ∧ ∃ reg, reinitialize_teams set_order self = (true, set_teams self reg)
       ∧ built self reg)
  ∨ (cyclic (teams_config self)
     ∧ reinitialize_teams set_order self = (false, set_teams self ∅)).
Proof.
  intros Hso Hnd Hf.
  destruct (_topological_sort set_order (teams_config self)) as [l|nodes] eqn:Hs.
  - left. split; [by eapply sort_Sorted_acyclic|].
    by eapply reinitialize_teams_Sorted.
  - right. split; [by eapply sort_ValueError_cyclic|].
    by eapply reinitialize_teams_ValueError.
Qed.

Lemma reinitialize_teams_result set_order self :
  ∃ reg, (reinitialize_teams set_order self).2 = set_teams self reg.
Proof.
  unfold reinitialize_teams. destruct (app_factory self).
  - destruct (teams_config self); [by eexists|].
    destruct (_topological_sort _ _); [|by eexists]. simpl.
    eexists. by rewrite foldl_build_step_set_teams at 1.
  - exists (teams self). by rewrite set_teams_id.
Qed.

Lemma reinitialize_teams_no_factory set_order self :
  app_factory self = None → reinitialize_teams set_order self = (false, self).
Proof. intros Hf. unfold reinitialize_teams. by rewrite Hf. Qed.

Lemma reinitialize_teams_set_teams set_order self t :
  is_Some (app_factory self) →
  reinitialize_teams set_order (set_teams self t) = reinitialize_teams set_order self.
Proof. intros [f Hf]. unfold reinitialize_teams. simpl. by rewrite Hf. Qed.




Lemma reinitialize_teams_fields set_order self :
  teams_config (reinitialize_teams set_order self).2 = teams_config self
  ∧ agents (reinitialize_teams set_order self).2 = agents self
  ∧ app_factory (reinitialize_teams set_order self).2 = app_factory self.
Proof. by destruct (reinitialize_teams_result set_order self) as [reg ->]. Qed.

(** Induction along an order in which every team comes after the teams
    it depends on. *)
Lemma topological_induction cfg l (P : string → Prop) :
  topological cfg l →
  (∀ k, k ∈ l → (∀ d, depends cfg k d → P d) → P k) →
  ∀ k, k ∈ l → P k.
Proof.
  induction l as [|x l IH] using rev_ind; intros Htopo Hstep k Hk.
  - by apply elem_of_nil in Hk.
  - assert (Hl : ∀ y, y ∈ l → P y).
    { apply IH.
      - intros before t after E. apply (Htopo before t (after ++ [x])).
        rewrite E, <- app_assoc. done.
      - intros y Hy. apply Hstep, elem_of_app. by left. }
    apply elem_of_app in Hk as [Hk|Hk]; [by apply Hl|].
    apply list_elem_of_singleton in Hk as ->.
    apply Hstep; [apply elem_of_app; right; left|].
    intros d Hd. apply Hl. apply (Htopo l x []); [done|done].
Qed.

(** With the same team definitions and more agent definitions, every
    team that was built is built. *)
Lemma more_agents_more_teams self self' f reg reg' :
  NoDup (keys (teams_config self)) → acyclic (teams_config self) →
  app_factory self = Some f → app_factory self' = Some f →
  teams_config self' = teams_config self →
  (∀ m, is_Some (agents self !! m) → is_Some (agents self' !! m)) →
  built self reg → built self' reg' →
  ∀ k, is_Some (reg !! k) → is_Some (reg' !! k).
Proof.
  intros Hnd Hac Hf Hf' Hcfg Hag Hb Hb' k.
  destruct (decide (k ∈ keys (teams_config self))) as [Hk|Hk].
  2:{ destruct Hb as [_ Hb]. rewrite (Hb k Hk). by intros []. }
  destruct (sort_acyclic remove_dups _ remove_dups_order Hnd Hac) as [l Hl].
  apply sort_Sorted in Hl as (_ & Hperm & Htopo); [|exact remove_dups_order|done].
  rewrite <- Hperm in Hk. revert k Hk.
  apply (topological_induction (teams_config self) l
           (λ k, is_Some (reg !! k) → is_Some (reg' !! k)) Htopo).
  intros k Hk IH Hs. rewrite Hperm in Hk.
  apply dict_get_is_Some in Hk as [c Hc].
  apply (built_status self f Hf reg k c Hb Hc) in Hs as [Hdeps Hsome].
  apply (built_status self' f Hf' reg' k c Hb'); [by rewrite Hcfg|].
  rewrite Hcfg. split.
  - intros d Hd. apply IH; [done|]. by apply Hdeps.
  - destruct Hsome as [?|(m & Hm & Hd)]; [by left|]. right. exists m.
    split; [done|]. unfold defined in *. rewrite Hcfg.
    destruct Hd as [?|?]; [by left | right; by apply Hag].
Qed.

(** X19. [delete_agent] of an existing key, on a server with a factory, an
    acyclic mapping and a registry built from it: the reply is the
    success reply, the registry is rebuilt without the agent, and every
    team that is running after was running before (the call can only
    deactivate teams). *)
Theorem delete_agent_only_deactivates set_order s f agent_key agent :
  (∀ l, set_order l ≡ₚ remove_dups l) →
  NoDup (keys (teams_config (app s))) →
  app_factory (app s) = Some f →
  acyclic (teams_config (app s)) →
  built (app s) (teams (app s)) →
  agents (app s) !! agent_key = Some agent →
  let app1 := set_agents (app s) (delete agent_key (agents (app s))) in
  ∃ reg, delete_agent set_order s agent_key
         = (Success, Server (set_teams app1 reg) (teams_json s) (agents app1))
    ∧ built app1 reg
    ∧ ∀ t, is_Some (reg !! t) → is_Some (teams (app s) !! t).
Proof.
  intros Hso Hnd Hf Hac Hb Hsome app1.
  unfold delete_agent. rewrite Hsome. cbv zeta. fold app1.
  destruct (reinitialize_teams_cases set_order app1 f Hso Hnd Hf)
    as [(_ & reg & Hre & Hb1)|[[c Hc] _]]; [|by apply Hac in Hc].
  rewrite Hre. simpl. exists reg. split; [done|]. split; [done|].
  apply (more_agents_more_teams app1 (app s) f); try done.
  intros m. simpl. destruct (decide (agent_key = m)) as [->|Hne].
  - rewrite lookup_delete_eq. by intros [].
  - by rewrite lookup_delete_ne.
Qed.

Lemma rebuilt_registry_built set_order self f :
  (∀ l, set_order l ≡ₚ remove_dups l) → NoDup (keys (teams_config self)) →
  app_factory self = Some f → acyclic (teams_config self) →
  built (reinitialize_teams set_order self).2
        (teams (reinitialize_teams set_order self).2).
Proof.
  intros Hso Hnd Hf Hac.
  destruct (reinitialize_teams_cases set_order self f Hso Hnd Hf)
    as [(_ & reg & Hr & Hb)|[[c Hc] _]]; [|by apply Hac in Hc].
  rewrite Hr. exact Hb.
Qed.

Lemma sample_server_built : built (app sample_server) (teams (app sample_server)).
Proof.
  apply (rebuilt_registry_built remove_dups nested_app sample_factory).
  - exact remove_dups_order.
  - by_computation.
  - reflexivity.
  - exact nested_configs_acyclic.
Qed.


Lemma delete_agent_only_deactivates_witness :
  let app1 := set_agents (app sample_server)
                (delete "A1"%string (agents (app sample_server))) in
  ∃ reg, delete_agent remove_dups sample_server "A1"
         = (Success, Server (set_teams app1 reg) (teams_json sample_server) (agents app1))
    ∧ built app1 reg
    ∧ ∀ t, is_Some (reg !! t) → is_Some (teams (app sample_server) !! t).
Proof.
  apply (delete_agent_only_deactivates remove_dups sample_server sample_factory
           "A1" writer).
  - exact remove_dups_order.
  - by_computation.
  - reflexivity.
  - exact nested_configs_acyclic.
  - exact sample_server_built.
  - reflexivity.
Defined.



(** Before the rejected call the team [solo] was running. *)
Lemma sample_server_runs_solo :
  is_Some (get_running_team (app sample_server) "solo").
Proof. vm_compute. eauto. Qed.

End ToolsProofs.

(** ** The team and agent tools on unchecked data *)

Module UncheckedTools.
Import RawTools TeamsProofs.

(** ** Reading values *)

Lemma bind_inr {A B} (m : error + A) (k : A → error + B) a :
  m = inr a → bind m k = k a.
Proof. by intros ->. Qed.

Lemma read_strings_items items ms :
  mapM read_string items = Some ms → items = VStr <$> ms.
Proof.
  revert ms. induction items as [|v items IH]; intros ms H.
  - by injection H as <-.
  - simpl in H. destruct v; try done. simpl in H.
    destruct (mapM read_string items) as [ms'|] eqn:E; [|done].
    injection H as <-. simpl. f_equal. by apply IH.
Qed.

Lemma get_strings d key ms :
  read_strings (dict_get d key) = Some ms →
  get (VDict d) key (VList []) = inr (VList (VStr <$> ms)).
Proof.
  unfold get. destruct (dict_get d key) as [[]|]; simpl; try done.
  - intros H. by rewrite (read_strings_items _ _ H).
  - by intros [= <-].
Qed.

Lemma get_listed d key ms :
  read_strings (dict_get d key) = Some ms →
  ∃ v, get (VDict d) key VNull = inr v ∧ truthy v = bool_decide (ms ≠ []).
Proof.
  unfold get. destruct (dict_get d key) as [[]|]; simpl; try done.
  - intros H. eexists. split; [done|]. rewrite (read_strings_items _ _ H).
    by destruct ms.
  - intros [= <-]. by eexists.
Qed.

Lemma get_optional d key o :
  read_optional (dict_get d key) = Some o →
  get (VDict d) key VNull = inr (optional o).
Proof.
  unfold get. destruct (dict_get d key) as [[]|]; simpl; try done;
    by intros [= <-].
Qed.

Lemma read_team_config_fields v c :
  read_team_config v = Some c →
  ∃ d, v = VDict d
    ∧ read_optional (dict_get d "team_name") = Some (Teams.team_name c)
    ∧ read_optional (dict_get d "description") = Some (Teams.description c)
    ∧ read_strings (dict_get d "members") = Some (Teams.members c)
    ∧ read_optional (dict_get d "instructions") = Some (Teams.instructions c)
    ∧ read_optional (dict_get d "success_criteria") = Some (Teams.success_criteria c).
Proof.
  destruct v as [| | | | |d]; try done. intros H. exists d. split; [done|].
  unfold read_team_config in H. simplify_option_eq. done.
Qed.

Lemma team_keys_among_strings ks ms :
  team_keys_among ks (VStr <$> ms) = inr (filter (λ m, m ∈ ks) ms).
Proof.
  induction ms as [|m ms IH]; [done|].
  rewrite fmap_cons. simpl. rewrite IH. simpl. rewrite filter_cons.
  by destruct (decide (m ∈ ks)).
Qed.

Lemma dependencies_of_read ks v c :
  read_team_config v = Some c →
  dependencies_of ks v = inr (filter (λ m, m ∈ ks) (Teams.members c)).
Proof.
  intros (d & -> & _ & _ & Hm & _)%read_team_config_fields.
  unfold dependencies_of. rewrite (get_strings _ _ _ Hm). simpl.
  apply team_keys_among_strings.
Qed.

(** ** Stored definitions that read as typed ones *)

Lemma reads_as_teams_keys raw typed : reads_as_teams raw typed → keys raw = keys typed.
Proof.
  unfold keys. induction 1 as [|[k v] [k' c] raw typed [Hk _] _ IH]; [done|].
  rewrite !fmap_cons, IH. simpl in *. by subst.
Qed.

Lemma reads_as_teams_get raw typed k :
  reads_as_teams raw typed →
  option_Forall2 (λ v c, read_team_config v = Some c) (dict_get raw k) (dict_get typed k).
Proof.
  induction 1 as [|[k1 v] [k2 c] raw typed [Hk Hr] _ IH]; simpl in *; [constructor|].
  subst. case_decide; [by constructor | done].
Qed.

Lemma reads_as_teams_set raw typed k v c :
  reads_as_teams raw typed → read_team_config v = Some c →
  reads_as_teams (dict_set raw k v) (dict_set typed k c).
Proof.
  intros H Hv. induction H as [|[k1 v1] [k2 c1] raw typed [Hk Hr] H IH]; simpl in *.
  - by repeat constructor.
  - subst. case_decide; constructor; done.
Qed.

Lemma reads_as_teams_del raw typed k :
  reads_as_teams raw typed → reads_as_teams (dict_del raw k) (dict_del typed k).
Proof.
  unfold dict_del.
  induction 1 as [|[k1 v1] [k2 c1] raw typed [Hk Hr] H IH]; [constructor|].
  simpl in *. subst. rewrite !filter_cons. simpl.
  case_decide; [by constructor | done].
Qed.

Lemma reads_as_agents_insert raw typed k v c :
  reads_as_agents raw typed → read_agent_config v = Some c →
  reads_as_agents (<[k := v]> raw) (<[k := c]> typed).
Proof.
  intros H Hv k'. destruct (decide (k = k')) as [->|Hne].
  - rewrite !lookup_insert_eq. by constructor.
  - rewrite !lookup_insert_ne by done. apply H.
Qed.

Lemma reads_as_agents_delete raw typed k :
  reads_as_agents raw typed → reads_as_agents (delete k raw) (delete k typed).
Proof.
  intros H k'. destruct (decide (k = k')) as [->|Hne].
  - rewrite !lookup_delete_eq. constructor.
  - rewrite !lookup_delete_ne by done. apply H.
Qed.

(** ** The resolver on definitions that read as typed ones *)

Lemma topological_sort_team_edges set_order cfg cfg' :
  (∀ l, set_order l ≡ₚ remove_dups l) →
  NoDup (keys cfg) → keys cfg' = keys cfg →
  (∀ t d, Teams.depends cfg' t d ↔ Teams.depends cfg t d) →
  Teams._topological_sort set_order cfg' = Teams._topological_sort set_order cfg.
Proof.
  intros Hso Hnd Hk Hdep.
  unfold Teams._topological_sort, Teams.run_loop, Teams.initial_state.
  rewrite (TeamRegistry.build_graph_team_edges set_order set_order cfg cfg') by done.
  assert (length cfg' = length cfg) as ->.
  { rewrite <- (length_fmap fst cfg), <- (length_fmap fst cfg').
    fold (keys cfg) (keys cfg'). by rewrite Hk. }
  by rewrite Hk.
Qed.

Lemma collect_dependencies_read ks raw typed :
  reads_as_teams raw typed →
  collect_dependencies ks raw = inr (graph_of ks typed).
Proof.
  induction 1 as [|[k v] [k' c] raw typed [Hk Hr] _ IH]; [done|].
  simpl in *. subst. rewrite (dependencies_of_read ks v c Hr). simpl.
  rewrite IH. done.
Qed.

Lemma keys_graph_of ks typed : keys (graph_of ks typed) = keys typed.
Proof. unfold keys, graph_of. rewrite <- list_fmap_compose. done. Qed.

Lemma dict_get_graph_of ks typed t :
  dict_get (graph_of ks typed) t
  = (λ c, Teams.members_only (filter (λ m, m ∈ ks) (Teams.members c)))
    <$> dict_get typed t.
Proof.
  induction typed as [|[k c] typed IH]; [done|]. simpl. by case_decide.
Qed.

Lemma depends_graph_of typed t d :
  Teams.depends (graph_of (keys typed) typed) t d ↔ Teams.depends typed t d.
Proof.
  unfold Teams.depends. rewrite keys_graph_of, dict_get_graph_of. split.
  - intros (c & Hc & Hm & Hk). destruct (dict_get typed t) as [c'|]; [|done].
    injection Hc as <-. simpl in Hm. apply list_elem_of_filter in Hm as [_ Hm].
    by exists c'.
  - intros (c & Hc & Hm & Hk). rewrite Hc. eexists. split; [done|].
    split; [|done]. simpl. by apply list_elem_of_filter.
Qed.

Lemma topological_sort_read set_order raw typed :
  (∀ l, set_order l ≡ₚ remove_dups l) → NoDup (keys typed) →
  reads_as_teams raw typed →
  _topological_sort set_order raw = inr (Teams._topological_sort set_order typed).
Proof.
  intros Hso Hnd Hr. unfold _topological_sort.
  rewrite (reads_as_teams_keys _ _ Hr), (collect_dependencies_read _ _ _ Hr). simpl.
  f_equal. apply topological_sort_team_edges; [done..|apply keys_graph_of|].
  apply depends_graph_of.
Qed.

(** ** Building a team from definitions that read as typed ones *)

Lemma tool_objects_strings f ts :
  tool_objects f (VStr <$> ts) = inr (omap (λ t, Teams.tool_map f !! t) ts).
Proof.
  induction ts as [|t ts IH]; [done|]. rewrite fmap_cons. simpl. rewrite IH. simpl.
  by destruct (Teams.tool_map f !! t).
Qed.

Lemma read_agent_config_fields v c :
  read_agent_config v = Some c →
  ∃ d, v = VDict d
    ∧ (∀ k, get (VDict d) "name" (VStr k)
            = inr (VStr (default k (Teams.agent_name c))))
    ∧ dict_get d "role" = Some (VStr (Teams.role c))
    ∧ dict_get d "description" = Some (VStr (Teams.agent_description c))
    ∧ read_strings (dict_get d "tools") = Some (Teams.tools c)
    ∧ read_optional (dict_get d "instructions") = Some (Teams.agent_instructions c).
Proof.
  destruct v as [| | | | |d]; try done. intros H. exists d. split; [done|].
  unfold read_agent_config in H. unfold get.
  destruct (dict_get d "name") as [vn|] eqn:En.
  - destruct vn as [| | |n| |]; try done. simpl in H.
    destruct (dict_get d "role") as [[| | |r| |]|]; try done. simpl in H.
    destruct (dict_get d "description") as [[| | |de| |]|]; try done. simpl in H.
    destruct (read_strings (dict_get d "tools")) as [ts|]; [|done]. simpl in H.
    destruct (read_optional (dict_get d "instructions")) as [i|]; [|done].
    injection H as <-. done.
  - simpl in H.
    destruct (dict_get d "role") as [[| | |r| |]|]; try done. simpl in H.
    destruct (dict_get d "description") as [[| | |de| |]|]; try done. simpl in H.
    destruct (read_strings (dict_get d "tools")) as [ts|]; [|done]. simpl in H.
    destruct (read_optional (dict_get d "instructions")) as [i|]; [|done].
    injection H as <-. done.
Qed.

Lemma make_agent_read f k v c :
  read_agent_config v = Some c →
  make_agent f k v = inr (object_of (Teams.make_agent f k c)).
Proof.
  intros (d & -> & Hname & Hrole & Hdescr & Htools & Hinstr)%read_agent_config_fields.
  unfold make_agent.
  rewrite (get_strings d "tools" _ Htools). cbn [bind iterate].
  rewrite tool_objects_strings. cbn [bind]. rewrite Hname. cbn [bind].
  unfold getitem. rewrite Hrole, Hdescr. cbn [bind].
  by rewrite (get_optional d "instructions" _ Hinstr).
Qed.

Lemma resolve_members_read self typed f (ms : list string)
    (acc : list Teams.participant) :
  reads_as_context self typed →
  resolve_members self f (VStr <$> ms) (object_of <$> acc)
  = inr (fmap (M := list) object_of <$> Teams.resolve_members typed f ms acc).
Proof.
  intros (_ & Hag & Hcfg & Hreg). revert acc.
  induction ms as [|m ms IH]; intros acc; [done|].
  rewrite fmap_cons. cbn [resolve_members Teams.resolve_members as_key bind].
  rewrite (reads_as_teams_keys _ _ Hcfg).
  assert (teams self !! m = object_of <$> Teams.teams typed !! m) as ->
    by (by rewrite Hreg, lookup_fmap).
  destruct (decide (m ∈ keys (Teams.teams_config typed))) as [Hin|Hout].
  - destruct (Teams.teams typed !! m) as [t|]; [|done]. simpl.
    change [object_of t] with (object_of <$> [t]).
    rewrite <- fmap_app. apply IH.
  - specialize (Hag m).
    destruct (agents self !! m) as [v|], (Teams.agents typed !! m) as [c|];
      inversion Hag as [? ? Hv|]; subst; [|apply IH].
    rewrite (make_agent_read f m v c Hv). cbn [bind].
    change [object_of (Teams.make_agent f m c)]
      with (object_of <$> [Teams.make_agent f m c]).
    rewrite <- fmap_app. apply IH.
Qed.

Lemma create_team_instance_read self typed team_key :
  reads_as_context self typed →
  _create_team_instance self team_key
  = inr (object_of <$> Teams._create_team_instance typed team_key).
Proof.
  intros Hctx. pose proof Hctx as (Hf & Hag & Hcfg & Hreg).
  unfold _create_team_instance, Teams._create_team_instance. rewrite Hf.
  destruct (Teams.app_factory typed) as [f|]; [|done].
  assert (read_team_config (default (VDict []) (dict_get (teams_config self) team_key))
          = Some (default Teams.empty_config
                    (dict_get (Teams.teams_config typed) team_key))) as Hread.
  { pose proof (reads_as_teams_get _ _ team_key Hcfg) as H.
    inversion H as [? ? Hv|]; [done | done]. }
  cbv zeta.
  set (c := default Teams.empty_config (dict_get (Teams.teams_config typed) team_key))
    in *.
  apply read_team_config_fields in Hread
    as (d & -> & Hname & Hdescr & Hms & Hinstr & Hcrit).
  rewrite (get_strings d "members" _ Hms). cbn [bind iterate].
  pose proof (resolve_members_read self typed f (Teams.members c) [] Hctx) as Hres.
  rewrite fmap_nil in Hres. rewrite Hres. cbn [bind].
  destruct (Teams.resolve_members typed f (Teams.members c) []) as [ms|]; [|done].
  cbn [fmap option_fmap option_map].
  destruct (get_listed d "members" _ Hms) as (listed & -> & Ht). cbn [bind].
  rewrite Ht, (get_optional d "team_name" _ Hname),
    (get_optional d "description" _ Hdescr),
    (get_optional d "instructions" _ Hinstr),
    (get_optional d "success_criteria" _ Hcrit).
  cbn [bind].
  destruct ms as [|p ms]; [|done]. simpl.
  destruct (Teams.members c); done.
Qed.

Lemma reads_as_context_set_teams self typed reg :
  reads_as_context self typed →
  reads_as_context (set_teams self (object_of <$> reg)) (Teams.set_teams typed reg).
Proof. intros (? & ? & ? & ?). done. Qed.

Lemma build_teams_read self typed l :
  reads_as_context self typed →
  ∃ self', build_teams self l = (inr true, self')
    ∧ reads_as_context self' (foldl Teams.build_step typed l).
Proof.
  revert self typed. induction l as [|k l IH]; intros self typed Hctx.
  - by exists self.
  - cbn [build_teams foldl]. rewrite (create_team_instance_read self typed k Hctx).
    unfold Teams.build_step at 2.
    destruct (Teams._create_team_instance typed k) as [t|]; simpl.
    + apply IH. pose proof Hctx as (_ & _ & _ & ->).
      rewrite <- fmap_insert. by apply reads_as_context_set_teams.
    + by apply IH.
Qed.

Lemma reinitialize_teams_read set_order self typed :
  (∀ l, set_order l ≡ₚ remove_dups l) →
  NoDup (keys (Teams.teams_config typed)) →
  reads_as_context self typed →
  ∃ self', reinitialize_teams set_order self
           = (inr (Teams.reinitialize_teams set_order typed).1, self')
    ∧ reads_as_context self' (Teams.reinitialize_teams set_order typed).2.
Proof.
  intros Hso Hnd Hctx. pose proof Hctx as (Hf & Hag & Hcfg & Hreg).
  unfold reinitialize_teams, Teams.reinitialize_teams. rewrite Hf.
  destruct (Teams.app_factory typed) as [f|]; [|by exists self].
  cbv zeta.
  assert (reads_as_context (set_teams self ∅) (Teams.set_teams typed ∅)) as Hctx1.
  { rewrite <- (fmap_empty object_of). by apply reads_as_context_set_teams. }
  clear Hctx.
  destruct (teams_config self) as [|r raw'] eqn:Er,
    (Teams.teams_config typed) as [|t typed'] eqn:Et; try (by inversion Hcfg).
  - by eexists.
  - rewrite (topological_sort_read set_order (r :: raw') (t :: typed') Hso Hnd Hcfg).
    destruct (Teams._topological_sort set_order (t :: typed')) as [l|nodes].
    + destruct (build_teams_read (set_teams self ∅)
                  (Teams.set_teams typed ∅) l Hctx1) as (self' & -> & Hctx').
      by exists self'.
    + by eexists.
Qed.

(** ** Payloads that read as typed ones *)

Lemma read_given_absent {A} (read : option value → option A)
    (data : list (string * value)) (key : string) g :
  read_given read (dict_get data key) = Some g →
  (key ∈ keys data ↔ is_Some g).
Proof.
  rewrite <- dict_get_is_Some. destruct (dict_get data key) as [v|]; simpl.
  - destruct (read (Some v)); [|done]. intros [= <-]. split; eauto.
  - intros [= <-]. split; by intros [].
Qed.

Lemma read_given_stored {A} (read : option value → option A)
    (data : list (string * value)) (key : string) g a :
  read None = Some a →
  read_given read (dict_get data key) = Some g →
  read (dict_get data key) = Some (default a g).
Proof.
  intros Ha. destruct (dict_get data key) as [v|]; simpl.
  - destruct (read (Some v)); [|done]. by intros [= <-].
  - by intros [= <-].
Qed.

Lemma read_given_updated {A} (read : option value → option A)
    (orig data : list (string * value)) (key : string) g a :
  NoDup (keys data) →
  read (dict_get orig key) = Some a →
  read_given read (dict_get data key) = Some g →
  read (dict_get (dict_update orig data) key) = Some (default a g).
Proof.
  intros Hnd Ha. rewrite dict_get_update by done.
  destruct (dict_get data key) as [v|]; simpl.
  - destruct (read (Some v)); [|done]. by intros [= <-].
  - by intros [= <-].
Qed.

Lemma read_team_data_fields data d :
  read_team_data data = Some d →
  read_given read_optional (dict_get data "team_name") = Some (Tools.given_team_name d)
  ∧ read_given read_optional (dict_get data "description")
    = Some (Tools.given_description d)
  ∧ read_given read_strings (dict_get data "members") = Some (Tools.given_members d)
  ∧ read_given read_optional (dict_get data "instructions")
    = Some (Tools.given_instructions d)
  ∧ read_given read_optional (dict_get data "success_criteria")
    = Some (Tools.given_success_criteria d).
Proof.
  unfold read_team_data. intros H.
  destruct (read_given read_optional (dict_get data "team_name")); [|done].
  destruct (read_given read_optional (dict_get data "description")); [|done].
  destruct (read_given read_strings (dict_get data "members")); [|done].
  destruct (read_given read_optional (dict_get data "instructions")); [|done].
  destruct (read_given read_optional (dict_get data "success_criteria")); [|done].
  by injection H as <-.
Qed.

Lemma read_team_config_intro d n de ms i c :
  read_optional (dict_get d "team_name") = Some n →
  read_optional (dict_get d "description") = Some de →
  read_strings (dict_get d "members") = Some ms →
  read_optional (dict_get d "instructions") = Some i →
  read_optional (dict_get d "success_criteria") = Some c →
  read_team_config (VDict d) = Some (Teams.TeamConfig n de ms i c).
Proof. intros H1 H2 H3 H4 H5. unfold read_team_config. by rewrite H1, H2, H3, H4, H5. Qed.

Lemma default_mjoin {A} (g : option (option A)) : default None g = mjoin g.
Proof. by destruct g. Qed.

(** The definition that [create_team] stores reads as [team_of_data]. *)
Lemma read_team_config_data data d :
  read_team_data data = Some d →
  read_team_config (VDict data) = Some (Tools.team_of_data d).
Proof.
  intros (H1 & H2 & H3 & H4 & H5)%read_team_data_fields.
  unfold Tools.team_of_data. rewrite <- !default_mjoin.
  apply read_team_config_intro; by apply read_given_stored.
Qed.

(** The definition that [update_team] stores reads as
    [update_team_config]. *)
Lemma read_team_config_update orig c data d :
  NoDup (keys data) →
  read_team_config (VDict orig) = Some c →
  read_team_data data = Some d →
  read_team_config (VDict (dict_update orig data))
  = Some (Tools.update_team_config c d).
Proof.
  intros Hnd (d' & [= <-] & G1 & G2 & G3 & G4 & G5)%read_team_config_fields
    (H1 & H2 & H3 & H4 & H5)%read_team_data_fields.
  unfold Tools.update_team_config.
  apply read_team_config_intro; by apply read_given_updated.
Qed.

Lemma read_agent_data_fields data d :
  read_agent_data data = Some d →
  read_given read_required (dict_get data "name") = Some (Tools.given_name d)
  ∧ read_given read_required (dict_get data "role") = Some (Tools.given_role d)
  ∧ read_given read_required (dict_get data "description")
    = Some (Tools.given_agent_description d)
  ∧ read_given read_strings (dict_get data "tools") = Some (Tools.given_tools d)
  ∧ read_given read_optional (dict_get data "instructions")
    = Some (Tools.given_agent_instructions d).
Proof.
  unfold read_agent_data. intros H.
  destruct (read_given read_required (dict_get data "name")); [|done].
  destruct (read_given read_required (dict_get data "role")); [|done].
  destruct (read_given read_required (dict_get data "description")); [|done].
  destruct (read_given read_strings (dict_get data "tools")); [|done].
  destruct (read_given read_optional (dict_get data "instructions")); [|done].
  by injection H as <-.
Qed.

Lemma read_agent_config_intro d n r de ts i :
  read_name (dict_get d "name") = Some n →
  read_required (dict_get d "role") = Some r →
  read_required (dict_get d "description") = Some de →
  read_strings (dict_get d "tools") = Some ts →
  read_optional (dict_get d "instructions") = Some i →
  read_agent_config (VDict d) = Some (Teams.AgentConfig n r de ts i).
Proof.
  intros H1 H2 H3 H4 H5. unfold read_agent_config.
  by rewrite H1, H2, H3, H4, H5.
Qed.

Lemma read_agent_config_parts d c :
  read_agent_config (VDict d) = Some c →
  read_name (dict_get d "name") = Some (Teams.agent_name c)
  ∧ read_required (dict_get d "role") = Some (Teams.role c)
  ∧ read_required (dict_get d "description") = Some (Teams.agent_description c)
  ∧ read_strings (dict_get d "tools") = Some (Teams.tools c)
  ∧ read_optional (dict_get d "instructions") = Some (Teams.agent_instructions c).
Proof.
  unfold read_agent_config. intros H.
  destruct (read_name (dict_get d "name")); [|done].
  destruct (read_required (dict_get d "role")); [|done].
  destruct (read_required (dict_get d "description")); [|done].
  destruct (read_strings (dict_get d "tools")); [|done].
  destruct (read_optional (dict_get d "instructions")); [|done].
  by injection H as <-.
Qed.

(** The definition that [create_agent] stores. *)
Lemma read_agent_config_data data d n r de :
  read_agent_data data = Some d →
  Tools.given_name d = Some n → Tools.given_role d = Some r →
  Tools.given_agent_description d = Some de →
  read_agent_config (VDict data)
  = Some (Teams.AgentConfig (Some n) r de (default [] (Tools.given_tools d))
            (mjoin (Tools.given_agent_instructions d))).
Proof.
  intros (H1 & H2 & H3 & H4 & H5)%read_agent_data_fields Hn Hr Hd.
  rewrite Hn in H1. rewrite Hr in H2. rewrite Hd in H3.
  rewrite <- default_mjoin.
  apply read_agent_config_intro; [..|by apply read_given_stored|by apply read_given_stored].
  - destruct (dict_get data "name") as [v|]; simpl in *; [|done].
    unfold read_required in H1. simpl in H1.
    destruct (read_string v); [|done]. simpl in *. by injection H1 as ->.
  - destruct (dict_get data "role") as [v|]; simpl in *; [|done].
    unfold read_required in *. simpl in *.
    destruct (read_string v); [|done]. simpl in *. by injection H2 as ->.
  - destruct (dict_get data "description") as [v|]; simpl in *; [|done].
    unfold read_required in *. simpl in *.
    destruct (read_string v); [|done]. simpl in *. by injection H3 as ->.
Qed.

(** The definition that [update_agent] stores. *)
Lemma read_agent_config_update orig c data d :
  NoDup (keys data) →
  read_agent_config (VDict orig) = Some c →
  read_agent_data data = Some d →
  read_agent_config (VDict (dict_update orig data))
  = Some (Tools.update_agent_config c d).
Proof.
  intros Hnd (G1 & G2 & G3 & G4 & G5)%read_agent_config_parts
    (H1 & H2 & H3 & H4 & H5)%read_agent_data_fields.
  unfold Tools.update_agent_config.
  apply read_agent_config_intro; [| |
    |by apply read_given_updated|by apply read_given_updated].
  - rewrite dict_get_update by done.
    destruct (dict_get data "name") as [v|]; simpl in *.
    + unfold read_required in H1. simpl in H1.
      destruct (read_string v); [|done]. simpl in *. by injection H1 as <-.
    + by injection H1 as <-.
  - rewrite dict_get_update by done.
    destruct (dict_get data "role") as [v|]; simpl in *.
    + unfold read_required in *. simpl in *.
      destruct (read_string v); [|done]. simpl in *. by injection H2 as <-.
    + by injection H2 as <-.
  - rewrite dict_get_update by done.
    destruct (dict_get data "description") as [v|]; simpl in *.
    + unfold read_required in *. simpl in *.
      destruct (read_string v); [|done]. simpl in *. by injection H3 as <-.
    + by injection H3 as <-.
Qed.

(** ** The tools on definitions and payloads that read as typed ones *)

Lemma reads_as_context_set_config self typed raw cfg :
  reads_as_context self typed → reads_as_teams raw cfg →
  reads_as_context (set_teams_config self raw) (Tools.set_teams_config typed cfg).
Proof. intros (? & ? & ? & ?) ?. done. Qed.

Lemma reads_as_context_set_agents self typed raw a :
  reads_as_context self typed → reads_as_agents raw a →
  reads_as_context (set_agents self raw) (Tools.set_agents typed a).
Proof. intros (? & ? & ? & ?) ?. done. Qed.

Section Refinement.

Variable set_order : list string → list string.
Hypothesis set_order_perm : ∀ l, set_order l ≡ₚ remove_dups l.

Lemma create_team_read s typed team_key data d :
  reads_as s typed → NoDup (keys (Teams.teams_config (Tools.app typed))) →
  read_team_data data = Some d →
  ∃ s', create_team set_order s team_key data
        = (Answer (Tools.create_team set_order typed team_key d).1, s')
    ∧ reads_as s' (Tools.create_team set_order typed team_key d).2.
Proof.
  intros Hs Hnd Hd. pose proof Hs as (Hctx & Htj & Haj).
  pose proof Hctx as (Hf & Hag & Hcfg & Hreg).
  unfold create_team, Tools.create_team.
  rewrite (reads_as_teams_keys _ _ Hcfg).
  destruct (decide (team_key ∈ keys (Teams.teams_config (Tools.app typed))))
    as [Hin|Hnew]; [by exists s|].
  pose proof (read_team_data_fields _ _ Hd) as (H1 & _ & H3 & _).
  apply read_given_absent in H1, H3.
  destruct (Tools.given_team_name d) as [name|].
  2:{ rewrite decide_False; [by exists s|]. intros [Hin _]. apply H1 in Hin.
      by destruct Hin. }
  destruct (Tools.given_members d) as [ms|].
  2:{ rewrite decide_False; [by exists s|]. intros [_ Hin]. apply H3 in Hin.
      by destruct Hin. }
  rewrite decide_True by (split; [apply H1|apply H3]; eauto).
  cbv zeta.
  set (app1 := Tools.set_teams_config (Tools.app typed)
                 (dict_set (Teams.teams_config (Tools.app typed)) team_key
                    (Tools.team_of_data d))).
  assert (reads_as_teams (dict_set (teams_config (app s)) team_key (VDict data))
            (dict_set (Teams.teams_config (Tools.app typed)) team_key
               (Tools.team_of_data d))) as Hcfg1.
  { apply reads_as_teams_set; [done|]. by apply read_team_config_data. }
  destruct (reinitialize_teams_read set_order
              (set_teams_config (app s)
                 (dict_set (teams_config (app s)) team_key (VDict data))) app1)
    as (self' & -> & Hctx'); [done| |by apply reads_as_context_set_config|].
  { simpl. by apply NoDup_dict_set. }
  destruct (Teams.reinitialize_teams set_order app1) as [[] app2] eqn:Er;
    simpl in *.
  - eexists. split; [done|]. split; [done|]. split; done.
  - eexists. split; [done|]. pose proof Hctx' as (? & ? & Hc' & ?).
    assert (reads_as_teams (dict_del (teams_config self') team_key)
              (dict_del (Teams.teams_config app2) team_key)) as Hdel
      by by apply reads_as_teams_del.
    split; [|split; done].
    by apply reads_as_context_set_config.
Qed.

Lemma update_team_read s typed team_key data d :
  reads_as s typed → NoDup (keys (Teams.teams_config (Tools.app typed))) →
  NoDup (keys data) → read_team_data data = Some d →
  ∃ s', update_team set_order s team_key data
        = (Answer (Tools.update_team set_order typed team_key d).1, s')
    ∧ reads_as s' (Tools.update_team set_order typed team_key d).2.
Proof.
  intros Hs Hnd Hnd' Hd. pose proof Hs as (Hctx & Htj & Haj).
  pose proof Hctx as (Hf & Hag & Hcfg & Hreg).
  unfold update_team, Tools.update_team.
  pose proof (reads_as_teams_get _ _ team_key Hcfg) as Hget.
  destruct (dict_get (teams_config (app s)) team_key) as [v|],
    (dict_get (Teams.teams_config (Tools.app typed)) team_key) as [c|];
    inversion Hget as [? ? Hv|]; subst; [|by exists s].
  pose proof (read_team_config_fields _ _ Hv) as (orig & -> & _).
  cbv zeta.
  set (cfg1 := dict_set (Teams.teams_config (Tools.app typed)) team_key
                 (Tools.update_team_config c d)).
  set (raw1 := dict_set (teams_config (app s)) team_key
                 (VDict (dict_update orig data))).
  assert (reads_as_teams raw1 cfg1) as Hcfg1.
  { apply reads_as_teams_set; [done|]. by apply read_team_config_update. }
  destruct (reinitialize_teams_read set_order (set_teams_config (app s) raw1)
              (Tools.set_teams_config (Tools.app typed) cfg1))
    as (self' & -> & Hctx'); [done| |by apply reads_as_context_set_config|].
  { simpl. by apply NoDup_dict_set. }
  destruct (Teams.reinitialize_teams set_order
              (Tools.set_teams_config (Tools.app typed) cfg1)) as [[] app2] eqn:Er;
    simpl in *.
  - eexists. split; [done|]. pose proof Hctx' as (? & ? & ? & ?).
    split; [done|]. split; done.
  - pose proof Hctx' as (? & ? & Hc' & ?).
    assert (reads_as_teams (dict_set (teams_config self') team_key (VDict orig))
              (dict_set (Teams.teams_config app2) team_key c)) as Hback
      by by apply reads_as_teams_set.
    assert (Teams.teams_config app2 = cfg1) as Ecfg.
    { pose proof (ToolsProofs.reinitialize_teams_fields set_order
                    (Tools.set_teams_config (Tools.app typed) cfg1)) as (E & _).
      by rewrite Er in E. }
    destruct (reinitialize_teams_read set_order
                (set_teams_config self'
                   (dict_set (teams_config self') team_key (VDict orig)))
                (Tools.set_teams_config app2
                   (dict_set (Teams.teams_config app2) team_key c)))
      as (self'' & -> & Hctx''); [done| |by apply reads_as_context_set_config|].
    { simpl. rewrite Ecfg. unfold cfg1. by do 2 apply NoDup_dict_set. }
    eexists. split; [done|]. split; [done|]. split; done.
Qed.

Lemma delete_team_read s typed team_key :
  reads_as s typed → NoDup (keys (Teams.teams_config (Tools.app typed))) →
  ∃ s', delete_team set_order s team_key
        = (Answer (Tools.delete_team set_order typed team_key).1, s')
    ∧ reads_as s' (Tools.delete_team set_order typed team_key).2.
Proof.
  intros Hs Hnd. pose proof Hs as (Hctx & Htj & Haj).
  pose proof Hctx as (Hf & Hag & Hcfg & Hreg).
  unfold delete_team, Tools.delete_team.
  rewrite (reads_as_teams_keys _ _ Hcfg).
  destruct (decide (team_key ∈ keys (Teams.teams_config (Tools.app typed))))
    as [Hin|Hnew]; [|by exists s].
  cbv zeta.
  assert (reads_as_teams (dict_del (teams_config (app s)) team_key)
            (dict_del (Teams.teams_config (Tools.app typed)) team_key)) as Hcfg1
    by by apply reads_as_teams_del.
  destruct (reinitialize_teams_read set_order
              (set_teams_config (app s) (dict_del (teams_config (app s)) team_key))
              (Tools.set_teams_config (Tools.app typed)
                 (dict_del (Teams.teams_config (Tools.app typed)) team_key)))
    as (self' & -> & Hctx'); [done| |by apply reads_as_context_set_config|].
  { simpl. by apply NoDup_dict_del. }
  eexists. split; [done|]. split; [done|]. split; done.
Qed.

Lemma create_agent_read s typed agent_key data d :
  reads_as s typed → NoDup (keys (Teams.teams_config (Tools.app typed))) →
  read_agent_data data = Some d →
  ∃ s', create_agent set_order s agent_key data
        = (Answer (Tools.create_agent set_order typed agent_key d).1, s')
    ∧ reads_as s' (Tools.create_agent set_order typed agent_key d).2.
Proof.
  intros Hs Hnd Hd. pose proof Hs as (Hctx & Htj & Haj).
  pose proof Hctx as (Hf & Hag & Hcfg & Hreg).
  unfold create_agent, Tools.create_agent.
  pose proof (Hag agent_key) as Hget.
  destruct (agents (app s) !! agent_key) as [v|],
    (Teams.agents (Tools.app typed) !! agent_key) as [c|];
    inversion Hget as [? ? Hv|]; subst; [by exists s|].
  pose proof (read_agent_data_fields _ _ Hd) as (H1 & H2 & H3 & _).
  apply read_given_absent in H1, H2, H3.
  destruct (Tools.given_name d) as [name|] eqn:En.
  2:{ rewrite decide_False; [by exists s|]. intros (Hin & _ & _). apply H1 in Hin.
      by destruct Hin. }
  destruct (Tools.given_role d) as [role|] eqn:Er.
  2:{ rewrite decide_False; [by exists s|]. intros (_ & Hin & _). apply H2 in Hin.
      by destruct Hin. }
  destruct (Tools.given_agent_description d) as [description|] eqn:Ed.
  2:{ rewrite decide_False; [by exists s|]. intros (_ & _ & Hin). apply H3 in Hin.
      by destruct Hin. }
  rewrite decide_True by (split_and!; [apply H1|apply H2|apply H3]; eauto).
  cbv zeta.
  set (agent := Teams.AgentConfig (Some name) role description
                  (default [] (Tools.given_tools d))
                  (mjoin (Tools.given_agent_instructions d))).
  assert (reads_as_agents (<[agent_key := VDict data]> (agents (app s)))
            (<[agent_key := agent]> (Teams.agents (Tools.app typed)))) as Hag1.
  { apply reads_as_agents_insert; [done|]. by apply read_agent_config_data. }
  destruct (reinitialize_teams_read set_order
              (set_agents (app s) (<[agent_key := VDict data]> (agents (app s))))
              (Tools.set_agents (Tools.app typed)
                 (<[agent_key := agent]> (Teams.agents (Tools.app typed)))))
    as (self' & -> & Hctx'); [done|done|by apply reads_as_context_set_agents|].
  eexists. split; [done|]. split; [done|]. split; done.
Qed.

Lemma update_agent_read s typed agent_key data d :
  reads_as s typed → NoDup (keys (Teams.teams_config (Tools.app typed))) →
  NoDup (keys data) → read_agent_data data = Some d →
  ∃ s', update_agent set_order s agent_key data
        = (Answer (Tools.update_agent set_order typed agent_key d).1, s')
    ∧ reads_as s' (Tools.update_agent set_order typed agent_key d).2.
Proof.
  intros Hs Hnd Hnd' Hd. pose proof Hs as (Hctx & Htj & Haj).
  pose proof Hctx as (Hf & Hag & Hcfg & Hreg).
  unfold update_agent, Tools.update_agent.
  pose proof (Hag agent_key) as Hget.
  destruct (agents (app s) !! agent_key) as [v|],
    (Teams.agents (Tools.app typed) !! agent_key) as [c|];
    inversion Hget as [? ? Hv|]; subst; [|by exists s].
  destruct v as [| | | | |orig]; try done. cbv zeta.
  assert (reads_as_agents
            (<[agent_key := VDict (dict_update orig data)]> (agents (app s)))
            (<[agent_key := Tools.update_agent_config c d]>
               (Teams.agents (Tools.app typed)))) as Hag1.
  { apply reads_as_agents_insert; [done|]. by apply read_agent_config_update. }
  destruct (reinitialize_teams_read set_order
              (set_agents (app s)
                 (<[agent_key := VDict (dict_update orig data)]> (agents (app s))))
              (Tools.set_agents (Tools.app typed)
                 (<[agent_key := Tools.update_agent_config c d]>
                    (Teams.agents (Tools.app typed)))))
    as (self' & -> & Hctx'); [done|done|by apply reads_as_context_set_agents|].
  eexists. split; [done|]. split; [done|]. split; done.
Qed.

Lemma delete_agent_read s typed agent_key :
  reads_as s typed → NoDup (keys (Teams.teams_config (Tools.app typed))) →
  ∃ s', delete_agent set_order s agent_key
        = (Answer (Tools.delete_agent set_order typed agent_key).1, s')
    ∧ reads_as s' (Tools.delete_agent set_order typed agent_key).2.
Proof.
  intros Hs Hnd. pose proof Hs as (Hctx & Htj & Haj).
  pose proof Hctx as (Hf & Hag & Hcfg & Hreg).
  unfold delete_agent, Tools.delete_agent.
  pose proof (Hag agent_key) as Hget.
  destruct (agents (app s) !! agent_key) as [v|],
    (Teams.agents (Tools.app typed) !! agent_key) as [c|];
    inversion Hget as [? ? Hv|]; subst; [|by exists s].
  cbv zeta.
  assert (reads_as_agents (delete agent_key (agents (app s)))
            (delete agent_key (Teams.agents (Tools.app typed)))) as Hag1
    by by apply reads_as_agents_delete.
  destruct (reinitialize_teams_read set_order
              (set_agents (app s) (delete agent_key (agents (app s))))
              (Tools.set_agents (Tools.app typed)
                 (delete agent_key (Teams.agents (Tools.app typed)))))
    as (self' & -> & Hctx'); [done|done|by apply reads_as_context_set_agents|].
  eexists. split; [done|]. split; [done|]. split; done.
Qed.

Lemma run_read s typed c c' :
  reads_as s typed → NoDup (keys (Teams.teams_config (Tools.app typed))) →
  NoDup (keys (payload c)) → read_call c = Some c' →
  ∃ s', run set_order s c = (Answer (Tools.run set_order typed c').1, s')
    ∧ reads_as s' (Tools.run set_order typed c').2.
Proof.
  intros Hs Hnd Hnd' Hc. destruct c as [k d|k d|k|k d|k d|k]; simpl in *.
  - destruct (read_team_data d) as [td|] eqn:E; [|done]. injection Hc as <-.
    by apply create_team_read.
  - destruct (read_team_data d) as [td|] eqn:E; [|done]. injection Hc as <-.
    by apply update_team_read.
  - injection Hc as <-. by apply delete_team_read.
  - destruct (read_agent_data d) as [ad|] eqn:E; [|done]. injection Hc as <-.
    by apply create_agent_read.
  - destruct (read_agent_data d) as [ad|] eqn:E; [|done]. injection Hc as <-.
    by apply update_agent_read.
  - injection Hc as <-. by apply delete_agent_read.
Qed.

End Refinement.

(** ** The rebuild on any definitions *)

Lemma set_teams_teams (self : context) : set_teams self (teams self) = self.
Proof. by destruct self. Qed.

Lemma build_teams_registry self l :
  ∃ reg, (build_teams self l).2 = set_teams self reg.
Proof.
  revert self. induction l as [|k l IH]; intros self; simpl.
  - exists (teams self). by rewrite set_teams_teams.
  - destruct (_create_team_instance self k) as [e|[t|]].
    + exists (teams self). by rewrite set_teams_teams.
    + destruct (IH (set_teams self (<[k := t]> (teams self)))) as [reg ->].
      by exists reg.
    + apply IH.
Qed.

Lemma rebuild_registry set_order self :
  ∃ reg, (reinitialize_teams set_order self).2 = set_teams self reg.
Proof.
  unfold reinitialize_teams. destruct (app_factory self).
  2:{ exists (teams self). by rewrite set_teams_teams. }
  cbv zeta. destruct (teams_config self) as [|c cfg] eqn:Hcfg; [by exists ∅|].
  destruct (_topological_sort set_order (c :: cfg)) as [e|[l|nodes]];
    [by exists ∅| |by exists ∅].
  destruct (build_teams_registry (set_teams self ∅) l) as [reg ->]. by exists reg.
Qed.

Lemma rebuild_fields set_order self :
  teams_config (reinitialize_teams set_order self).2 = teams_config self
  ∧ agents (reinitialize_teams set_order self).2 = agents self
  ∧ app_factory (reinitialize_teams set_order self).2 = app_factory self.
Proof. by destruct (rebuild_registry set_order self) as [reg ->]. Qed.

Lemma rebuild_set_teams set_order self t :
  is_Some (app_factory self) →
  reinitialize_teams set_order (set_teams self t) = reinitialize_teams set_order self.
Proof. intros [f Hf]. unfold reinitialize_teams. simpl. by rewrite Hf. Qed.

Lemma rebuild_idem set_order self :
  reinitialize_teams set_order (reinitialize_teams set_order self).2
  = reinitialize_teams set_order self.
Proof.
  destruct (app_factory self) as [f|] eqn:Hf.
  - destruct (rebuild_registry set_order self) as [reg ->].
    apply rebuild_set_teams. by rewrite Hf.
  - unfold reinitialize_teams. rewrite Hf. simpl. by rewrite Hf.
Qed.

(** X15. A call of a team or agent tool that returns another reply than
    the success reply leaves the team definitions, the agent definitions
    and the factory as they were, whatever the stored definitions and the
    payload are; unless the reply is the one of a rollback, the whole
    server state, files included, is unchanged. *)
Theorem failed_call_keeps_definitions set_order s c r :
  (run set_order s c).1 = Answer r → r ≠ Tools.Success →
  teams_config (app (run set_order s c).2) = teams_config (app s)
  ∧ agents (app (run set_order s c).2) = agents (app s)
  ∧ app_factory (app (run set_order s c).2) = app_factory (app s)
  ∧ (r ≠ Tools.RolledBack → (run set_order s c).2 = s).
Proof.
  destruct c as [k d|k d|k|k d|k d|k]; simpl.
  - unfold create_team. case_decide as Hk; [by intros [= <-]|].
    case_decide; [|by intros [= <-]]. cbv zeta.
    destruct (rebuild_registry set_order
      (set_teams_config (app s) (dict_set (teams_config (app s)) k (VDict d))))
      as [reg Hr].
    destruct (reinitialize_teams _ _) as [[e|[]] app2]; simpl in *;
      [done|by intros [= <-]|].
    intros [= <-] _. subst app2. simpl. rewrite dict_del_set_absent by done. done.
  - unfold update_team.
    destruct (dict_get _ k) as [[| | | | |o]|] eqn:Hget; try done.
    cbv zeta.
    destruct (rebuild_registry set_order
      (set_teams_config (app s)
         (dict_set (teams_config (app s)) k (VDict (dict_update o d))))) as [reg Hr].
    destruct (reinitialize_teams _ _) as [[e|[]] app2]; simpl in *;
      [done|by intros [= <-]|].
    subst app2. simpl. rewrite dict_set_set_get by done.
    destruct (rebuild_registry set_order
      (set_teams_config (set_teams (set_teams_config (app s)
         (dict_set (teams_config (app s)) k (VDict (dict_update o d)))) reg)
         (teams_config (app s)))) as [reg' Hr'].
    destruct (reinitialize_teams _ _) as [[e|b] app4]; simpl in *; [done|].
    intros [= <-] _. subst app4. done.
  - unfold delete_team. case_decide; [|by intros [= <-]].
    cbv zeta. destruct (reinitialize_teams _ _) as [[e|b] app2]; simpl; [done|].
    by intros [= <-].
  - unfold create_agent. destruct (agents (app s) !! k); [by intros [= <-]|].
    case_decide; [|by intros [= <-]].
    cbv zeta. destruct (reinitialize_teams _ _) as [[e|b] app2]; simpl; [done|].
    by intros [= <-].
  - unfold update_agent.
    destruct (agents (app s) !! k) as [[| | | | |o]|]; try done.
    cbv zeta. destruct (reinitialize_teams _ _) as [[e|b] app2]; simpl; [done|].
    by intros [= <-].
  - unfold delete_agent. destruct (agents (app s) !! k); [|by intros [= <-]].
    cbv zeta. destruct (reinitialize_teams _ _) as [[e|b] app2]; simpl; [done|].
    by intros [= <-].
Qed.

(** X16. After a call of a team or agent tool, whether it returns or
    raises and whatever the stored definitions and the payload are, the
    registry is the one that [reinitialize_teams] leaves on the
    definitions then in force: always after a success reply and after a
    rolled back [update_team], and after any other call than a rolled
    back [create_team] if it was so before. *)
Theorem call_leaves_rebuilt_registry set_order s c :
  let r := run set_order s c in
  (r.1 = Answer Tools.Success
   ∨ (r.1 = Answer Tools.RolledBack ∧ ∃ k d, c = UpdateTeam k d)
   ∨ (r.1 ≠ Answer Tools.RolledBack ∧ up_to_date set_order s)) →
  up_to_date set_order r.2.
Proof.
  unfold up_to_date. simpl.
  assert (∀ self o self', reinitialize_teams set_order self = (o, self') →
            (reinitialize_teams set_order self').2 = self') as Hidem.
  { intros self o self' Hr. pose proof (rebuild_idem set_order self) as H.
    rewrite Hr in H. simpl in H. by rewrite H. }
  destruct c as [k d|k d|k|k d|k d|k]; simpl.
  - unfold create_team. case_decide; [intros [|[[? _]|[_ ?]]]; done|].
    case_decide; [|intros [|[[? _]|[_ ?]]]; done].
    cbv zeta.
    destruct (reinitialize_teams _ _) as [[e|[]] app2] eqn:Hr; simpl.
    + intros _. by eapply Hidem.
    + intros _. by eapply Hidem.
    + intros [|[[_ (? & ? & ?)]|[? _]]]; done.
  - unfold update_team.
    destruct (dict_get _ k) as [[| | | | |o]|];
      try (intros [|[[? _]|[_ ?]]]; done).
    cbv zeta.
    destruct (reinitialize_teams _ _) as [[e|[]] app2] eqn:Hr; simpl.
    + intros _. by eapply Hidem.
    + intros _. by eapply Hidem.
    + intros _.
      destruct (reinitialize_teams _ (set_teams_config app2 _)) as [[e|b] app4] eqn:Hr';
        simpl; by eapply Hidem.
  - unfold delete_team. case_decide; [|intros [|[[? _]|[_ ?]]]; done].
    cbv zeta.
    destruct (reinitialize_teams _ _) as [[e|b] app2] eqn:Hr; simpl;
      intros _; by eapply Hidem.
  - unfold create_agent. destruct (agents (app s) !! k);
      [intros [|[[? _]|[_ ?]]]; done|].
    case_decide; [|intros [|[[? _]|[_ ?]]]; done].
    cbv zeta.
    destruct (reinitialize_teams _ _) as [[e|b] app2] eqn:Hr; simpl;
      intros _; by eapply Hidem.
  - unfold update_agent.
    destruct (agents (app s) !! k) as [[| | | | |o]|];
      try (intros [|[[? _]|[_ ?]]]; done).
    cbv zeta.
    destruct (reinitialize_teams _ _) as [[e|b] app2] eqn:Hr; simpl;
      intros _; by eapply Hidem.
  - unfold delete_agent. destruct (agents (app s) !! k);
      [|intros [|[[? _]|[_ ?]]]; done].
    cbv zeta.
    destruct (reinitialize_teams _ _) as [[e|b] app2] eqn:Hr; simpl;
      intros _; by eapply Hidem.
Qed.

Lemma raw_run_keeps_sync set_order s c :
  in_sync s → NoDup (keys (teams_config (app s))) →
  in_sync (run set_order s c).2
  ∧ NoDup (keys (teams_config (app (run set_order s c).2)))
  ∧ app_factory (app (run set_order s c).2) = app_factory (app s).
Proof.
  intros [Ht Ha] Hnd. unfold in_sync.
  destruct c as [k d|k d|k|k d|k d|k]; simpl.
  - unfold create_team. case_decide as Hk; [done|]. case_decide; [|done].
    cbv zeta.
    destruct (rebuild_registry set_order
      (set_teams_config (app s) (dict_set (teams_config (app s)) k (VDict d))))
      as [reg Hr].
    destruct (reinitialize_teams _ _) as [[e|[]] app2]; simpl in *; subst app2;
      simpl.
    + split_and!; try done. by apply NoDup_dict_set.
    + split_and!; try done. by apply NoDup_dict_set.
    + split_and!; try done. by apply NoDup_dict_del, NoDup_dict_set.
  - unfold update_team. destruct (dict_get _ k) as [[| | | | |o]|]; try done.
    cbv zeta.
    destruct (rebuild_registry set_order
      (set_teams_config (app s)
         (dict_set (teams_config (app s)) k (VDict (dict_update o d))))) as [reg Hr].
    destruct (reinitialize_teams _ _) as [[e|[]] app2]; simpl in *; subst app2;
      simpl.
    + split_and!; try done. by apply NoDup_dict_set.
    + split_and!; try done. by apply NoDup_dict_set.
    + match goal with
      | |- context [reinitialize_teams set_order ?a] =>
          destruct (rebuild_registry set_order a) as [reg' Hr'];
          destruct (reinitialize_teams set_order a) as [[e|b] app4]
      end; simpl in *; subst app4; simpl;
        (split_and!; try done; by do 2 apply NoDup_dict_set).
  - unfold delete_team. case_decide; [|done]. cbv zeta.
    destruct (rebuild_registry set_order
      (set_teams_config (app s) (dict_del (teams_config (app s)) k))) as [reg Hr].
    destruct (reinitialize_teams _ _) as [[e|b] app2]; simpl in *; subst app2;
      simpl; (split_and!; try done; by apply NoDup_dict_del).
  - unfold create_agent. destruct (agents (app s) !! k); [done|].
    case_decide; [|done]. cbv zeta.
    destruct (rebuild_registry set_order
      (set_agents (app s) (<[k := VDict d]> (agents (app s))))) as [reg Hr].
    destruct (reinitialize_teams _ _) as [[e|b] app2]; simpl in *; subst app2;
      simpl; done.
  - unfold update_agent. destruct (agents (app s) !! k) as [[| | | | |o]|]; try done.
    cbv zeta.
    destruct (rebuild_registry set_order
      (set_agents (app s) (<[k := VDict (dict_update o d)]> (agents (app s)))))
      as [reg Hr].
    destruct (reinitialize_teams _ _) as [[e|b] app2]; simpl in *; subst app2;
      simpl; done.
  - unfold delete_agent. destruct (agents (app s) !! k); [|done]. cbv zeta.
    destruct (rebuild_registry set_order
      (set_agents (app s) (delete k (agents (app s))))) as [reg Hr].
    destruct (reinitialize_teams _ _) as [[e|b] app2]; simpl in *; subst app2;
      simpl; done.
Qed.

Lemma run_keeps_nodup set_order s c :
  NoDup (keys (teams_config (app s))) →
  NoDup (keys (teams_config (app (run set_order s c).2))).
Proof.
  intros Hnd.
  pose proof (raw_run_keeps_sync set_order
                (Server (app s) (teams_config (app s)) (agents (app s))) c) as H.
  destruct H as (_ & H & _); [done..|]. revert H.
  assert (∀ tj aj tj' aj',
            app (run set_order (Server (app s) tj aj) c).2
            = app (run set_order (Server (app s) tj' aj') c).2) as Hfiles.
  { intros tj aj tj' aj'.
    destruct c as [k d|k d|k|k d|k d|k]; simpl.
    - unfold create_team. simpl. case_decide; [done|]. case_decide; [|done].
      by destruct (reinitialize_teams _ _) as [[e|[]] app2].
    - unfold update_team. simpl.
      destruct (dict_get _ k) as [[| | | | |o]|]; try done.
      destruct (reinitialize_teams _ _) as [[e|[]] app2]; try done.
      by destruct (reinitialize_teams _ _) as [[e|b] app4].
    - unfold delete_team. simpl. case_decide; [|done].
      by destruct (reinitialize_teams _ _) as [[e|b] app2].
    - unfold create_agent. simpl. destruct (agents (app s) !! k); [done|].
      case_decide; [|done].
      by destruct (reinitialize_teams _ _) as [[e|b] app2].
    - unfold update_agent. simpl.
      destruct (agents (app s) !! k) as [[| | | | |o]|]; try done.
      by destruct (reinitialize_teams _ _) as [[e|b] app2].
    - unfold delete_agent. simpl. destruct (agents (app s) !! k); [|done].
      by destruct (reinitialize_teams _ _) as [[e|b] app2]. }
  destruct s as [a tj aj]. simpl. by rewrite (Hfiles _ _ tj aj).
Qed.

(** X17. After any sequence of calls of the six team and agent tools,
    each with any dictionary as payload and each returning or raising,
    [teams.json] and [agents.json] hold the mappings of the context, the
    keys of the team mapping are still unique and the factory is the one
    of the start, provided that files and mappings agreed at the
    start. *)
Theorem tools_keep_files_in_sync set_order s calls :
  in_sync s → NoDup (keys (teams_config (app s))) →
  in_sync (run_all set_order s calls)
  ∧ NoDup (keys (teams_config (app (run_all set_order s calls))))
  ∧ app_factory (app (run_all set_order s calls)) = app_factory (app s).
Proof.
  revert s. induction calls as [|c calls IH]; intros s Hs Hnd; [done|].
  unfold run_all. simpl. fold (run_all set_order (run set_order s c).2 calls).
  destruct (raw_run_keeps_sync set_order s c Hs Hnd) as (Hs' & Hnd' & Hf').
  destruct (IH _ Hs' Hnd') as (? & ? & ?). split_and!; try done. congruence.
Qed.

(** ** The team tools on definitions of the classes of the schemas *)

(** The rebuild of definitions that read as those of [typed]: it
    returns, with the boolean and the registry of the rebuild of
    [typed]. *)
Lemma rebuild_read set_order self typed f :
  (∀ l, set_order l ≡ₚ remove_dups l) →
  NoDup (keys (teams_config self)) →
  app_factory self = Some f →
  reads_as_context self typed →
  (Teams.acyclic (Teams.teams_config typed)
   ∧ ∃ reg, reinitialize_teams set_order self
            = (inr true, set_teams self (object_of <$> reg))
       ∧ Teams.built typed reg)
  ∨ (Teams.cyclic (Teams.teams_config typed)
     ∧ reinitialize_teams set_order self = (inr false, set_teams self ∅)).
Proof.
  intros Hso Hnd Hf Hctx. pose proof Hctx as (Hf' & _ & Hcfg & _).
  rewrite (reads_as_teams_keys _ _ Hcfg) in Hnd. rewrite Hf in Hf'.
  destruct (reinitialize_teams_read set_order self typed Hso Hnd Hctx)
    as (self' & Hr & Hctx').
  destruct (rebuild_registry set_order self) as [reg' Hreg'].
  rewrite Hr in Hreg'. simpl in Hreg'. subst self'.
  destruct Hctx' as (_ & _ & _ & Hreg). simpl in Hreg.
  destruct (ToolsProofs.reinitialize_teams_cases set_order typed f Hso Hnd)
    as [(Hac & reg & Ht & Hb)|[Hcyc Ht]]; [done| |]; rewrite Ht in Hr, Hreg;
    simpl in Hr, Hreg; subst reg'.
  - left. split; [done|]. by exists reg.
  - right. split; [done|]. by rewrite fmap_empty in Hr.
Qed.

(** X12. [create_team] with a new key and a payload with the keys
    [team_name] and [members], on a server with a factory, when the
    stored definitions and the payload are of the classes of the schemas
    (they read as team and agent definitions): the payload is appended to
    the mapping; if the extended mapping is acyclic the call returns the
    success reply, the new mapping is in [teams.json] and the registry is
    the one built from it; if it has a cycle the call returns the rollback
    error, mapping and file are the old ones and the registry is left
    empty. *)
Theorem create_team_outcome set_order s self f team_key data c :
  (∀ l, set_order l ≡ₚ remove_dups l) →
  reads_as_context (app s) self →
  NoDup (keys (teams_config (app s))) →
  app_factory (app s) = Some f →
  team_key ∉ keys (teams_config (app s)) →
  "team_name"%string ∈ keys data → "members"%string ∈ keys data →
  read_team_config (VDict data) = Some c →
  let cfg := teams_config (app s) in
  let cfg1 := cfg ++ [(team_key, VDict data)] in
  let typed1 := Tools.set_teams_config self
                  (Teams.teams_config self ++ [(team_key, c)]) in
  (Teams.acyclic (Teams.teams_config typed1)
   ∧ ∃ reg, create_team set_order s team_key data
            = (Answer Tools.Success,
               Server (set_teams (set_teams_config (app s) cfg1) (object_of <$> reg))
                 cfg1 (agents_json s))
       ∧ Teams.built typed1 reg)
  ∨ (Teams.cyclic (Teams.teams_config typed1)
     ∧ create_team set_order s team_key data
       = (Answer Tools.RolledBack, Server (set_teams (app s) ∅) cfg (agents_json s))).
Proof.
  intros Hso Hctx Hnd Hf Hfresh Hname Hms Hc cfg cfg1 typed1.
  pose proof Hctx as (Hf' & Hag & Hcfg & Hreg).
  unfold create_team. rewrite decide_False by done. rewrite decide_True by done.
  cbv zeta. rewrite dict_set_absent by done. fold cfg cfg1.
  assert (reads_as_context (set_teams_config (app s) cfg1) typed1) as Hctx1.
  { split; [done|]. split; [done|]. split; [|done]. simpl.
    apply Forall2_app; [done|]. by repeat constructor. }
  assert (NoDup (keys (teams_config (set_teams_config (app s) cfg1)))) as Hnd1.
  { simpl. unfold cfg1. rewrite <- (dict_set_absent cfg) by done.
    by apply NoDup_dict_set. }
  destruct (rebuild_read set_order (set_teams_config (app s) cfg1) typed1 f
              Hso Hnd1 Hf Hctx1) as [(Hac & reg & -> & Hb)|[Hcyc ->]].
  - left. split; [done|]. by exists reg.
  - right. split; [done|]. unfold save_teams_config, set_teams_config. simpl.
    unfold cfg1. rewrite <- (dict_set_absent cfg) by done.
    rewrite dict_del_set_absent by done. by destruct (app s).
Qed.

(** X13. [update_team] of a key whose stored definition is a dictionary,
    on a server with a factory, when the stored definitions and the
    merged definition are of the classes of the schemas: the merged
    definition takes the place of the old one (the keys and their order
    stay); if the new mapping is acyclic the call returns the success
    reply, the new mapping is in [teams.json] and the registry is built
    from it; if it has a cycle the call returns the rollback error,
    mapping and file are the old ones and the registry is rebuilt from
    the old mapping. *)
Theorem update_team_outcome set_order s self f team_key data original_config c :
  (∀ l, set_order l ≡ₚ remove_dups l) →
  reads_as_context (app s) self →
  NoDup (keys (teams_config (app s))) →
  app_factory (app s) = Some f →
  dict_get (teams_config (app s)) team_key = Some (VDict original_config) →
  read_team_config (VDict (dict_update original_config data)) = Some c →
  let cfg := teams_config (app s) in
  let cfg1 := dict_set cfg team_key (VDict (dict_update original_config data)) in
  let typed1 := Tools.set_teams_config self
                  (dict_set (Teams.teams_config self) team_key c) in
  keys cfg1 = keys cfg
  ∧ ((Teams.acyclic (Teams.teams_config typed1)
      ∧ ∃ reg, update_team set_order s team_key data
               = (Answer Tools.Success,
                  Server (set_teams (set_teams_config (app s) cfg1) (object_of <$> reg))
                    cfg1 (agents_json s))
          ∧ Teams.built typed1 reg)
     ∨ (Teams.cyclic (Teams.teams_config typed1)
        ∧ update_team set_order s team_key data
          = (Answer Tools.RolledBack,
             Server (reinitialize_teams set_order (app s)).2 cfg (agents_json s)))).
Proof.
  intros Hso Hctx Hnd Hf Hget Hc cfg cfg1 typed1.
  pose proof Hctx as (Hf' & Hag & Hcfg & Hreg).
  assert (Hkeys : keys cfg1 = keys cfg).
  { unfold cfg1. rewrite keys_dict_set. rewrite decide_True; [done|].
    apply dict_get_is_Some. eauto. }
  split; [done|]. unfold update_team. rewrite Hget. cbv zeta. fold cfg cfg1.
  assert (reads_as_context (set_teams_config (app s) cfg1) typed1) as Hctx1.
  { split; [done|]. split; [done|]. split; [|done]. simpl.
    by apply reads_as_teams_set. }
  assert (NoDup (keys (teams_config (set_teams_config (app s) cfg1)))) as Hnd1.
  { simpl. by rewrite Hkeys. }
  destruct (rebuild_read set_order (set_teams_config (app s) cfg1) typed1 f
              Hso Hnd1 Hf Hctx1) as [(Hac & reg & -> & Hb)|[Hcyc ->]].
  - left. split; [done|]. by exists reg.
  - right. split; [done|]. cbn [teams_config set_teams set_teams_config].
    unfold cfg1. rewrite dict_set_set_get by done. fold cfg.
    assert (is_Some (app_factory (app s))) as Hsome by eauto.
    pose proof (rebuild_set_teams set_order (app s) ∅ Hsome) as Hre.
    unfold set_teams in Hre. unfold set_teams_config at 1. simpl.
    unfold cfg. rewrite Hre.
    destruct (rebuild_read set_order (app s) self f Hso Hnd Hf Hctx)
      as [(_ & reg & -> & _)|[_ ->]]; done.
Qed.

(** X18. [create_agent] with a new key and a payload with the key
    [name], on a server with a factory, an acyclic mapping and a
    registry built from it, when the stored definitions and the payload
    are of the classes of the schemas: the call returns the success
    reply, the registry is rebuilt with the new agent, and every team
    that was running before is running after (the call can only activate
    teams). *)
Theorem create_agent_only_activates set_order s self f agent_key data agent :
  (∀ l, set_order l ≡ₚ remove_dups l) →
  reads_as_context (app s) self →
  NoDup (keys (teams_config (app s))) →
  app_factory (app s) = Some f →
  Teams.acyclic (Teams.teams_config self) →
  Teams.built self (Teams.teams self) →
  agents (app s) !! agent_key = None →
  "name"%string ∈ keys data →
  read_agent_config (VDict data) = Some agent →
  let app1 := set_agents (app s) (<[agent_key := VDict data]> (agents (app s))) in
  let typed1 := Tools.set_agents self (<[agent_key := agent]> (Teams.agents self)) in
  ∃ reg, create_agent set_order s agent_key data
         = (Answer Tools.Success,
            Server (set_teams app1 (object_of <$> reg)) (teams_json s) (agents app1))
    ∧ Teams.built typed1 reg
    ∧ ∀ t, is_Some (teams (app s) !! t) → is_Some (reg !! t).
Proof.
  intros Hso Hctx Hnd Hf Hac Hb Hnone Hname Hagent app1 typed1.
  pose proof Hctx as (Hf' & Hag & Hcfg & Hreg).
  pose proof (read_agent_config_parts _ _ Hagent) as (_ & Hrole & Hdescr & _).
  unfold create_agent. rewrite Hnone. rewrite decide_True.
  2:{ split; [done|]. split; apply dict_get_is_Some.
      - by destruct (dict_get data "role").
      - by destruct (dict_get data "description"). }
  cbv zeta. fold app1.
  assert (reads_as_context app1 typed1) as Hctx1.
  { split; [done|]. split; [|done]. simpl. by apply reads_as_agents_insert. }
  destruct (rebuild_read set_order app1 typed1 f Hso Hnd Hf Hctx1)
    as [(_ & reg & -> & Hb1)|[[k Hk] _]]; [|by apply Hac in Hk].
  exists reg. split; [done|]. split; [done|].
  intros t. rewrite Hreg, lookup_fmap, fmap_is_Some.
  rewrite Hf in Hf'. rewrite (reads_as_teams_keys _ _ Hcfg) in Hnd.
  apply (ToolsProofs.more_agents_more_teams self typed1 f); try done.
  intros m Hm. simpl. destruct (decide (agent_key = m)) as [->|Hne].
  - rewrite lookup_insert_eq. eauto.
  - by rewrite lookup_insert_ne.
Qed.

(** ** Payloads of other classes *)

Lemma collect_dependencies_app ks a b :
  collect_dependencies ks (a ++ b)
  = bind (collect_dependencies ks a) (λ ga,
      bind (collect_dependencies ks b) (λ gb, inr (ga ++ gb))).
Proof.
  induction a as [|[k v] a IH]; simpl.
  - by destruct (collect_dependencies ks b).
  - destruct (dependencies_of ks v); [done|]. simpl. rewrite IH.
    destruct (collect_dependencies ks a); [done|]. simpl.
    by destruct (collect_dependencies ks b).
Qed.

(** The rebuild stops at line 184 on a definition with members that
    cannot be iterated, when the definitions before it can be read. *)
Lemma rebuild_raises set_order self f readable typed team_key data members rest :
  app_factory self = Some f →
  teams_config self = readable ++ (team_key, VDict data) :: rest →
  reads_as_teams readable typed →
  dict_get data "members" = Some members →
  iterate members = inl TypeError →
  reinitialize_teams set_order self = (inl TypeError, set_teams self ∅).
Proof.
  intros Hf Hcfg Hr Hm Hit. unfold reinitialize_teams. rewrite Hf. cbv zeta.
  assert (_topological_sort set_order (teams_config self) = inl TypeError) as Hs.
  { unfold _topological_sort. rewrite Hcfg at 2.
    rewrite collect_dependencies_app, (collect_dependencies_read _ _ _ Hr).
    cbn [bind collect_dependencies]. unfold dependencies_of, get. rewrite Hm.
    cbn [from_option id bind]. by rewrite Hit. }
  rewrite Hs. rewrite Hcfg. by destruct readable.
Qed.

(** X28. [create_team] with a new key and a payload with the keys
    [team_name] and [members] whose [members] cannot be iterated
    ([null], a number, a boolean), on a server with a factory and team
    definitions of the classes of the schema: the payload is stored and
    written to [teams.json], the registry is emptied, and [TypeError]
    leaves the tool from line 184; nothing is rolled back. *)
Theorem create_team_unchecked_members_raises set_order s f typed team_key data members :
  app_factory (app s) = Some f →
  reads_as_teams (teams_config (app s)) typed →
  team_key ∉ keys (teams_config (app s)) →
  "team_name"%string ∈ keys data →
  dict_get data "members" = Some members →
  iterate members = inl TypeError →
  let cfg1 := teams_config (app s) ++ [(team_key, VDict data)] in
  create_team set_order s team_key data
  = (Raises TypeError,
     Server (Context (Some f) (agents (app s)) cfg1 ∅) cfg1 (agents_json s)).
Proof.
  intros Hf Hr Hfresh Hname Hm Hit cfg1.
  unfold create_team. rewrite decide_False by done. rewrite decide_True.
  2:{ split; [done|]. apply dict_get_is_Some. eauto. }
  cbv zeta. rewrite dict_set_absent by done. fold cfg1.
  rewrite (rebuild_raises set_order (set_teams_config (app s) cfg1) f
             (teams_config (app s)) typed team_key data members []); try done.
  unfold cfg1. destruct s as [[fa ag cfg reg] tj aj]. simpl in *. by subst.
Qed.

(** ** An agent definition with tools that cannot be iterated *)

Section UncheckedAgent.

Variables (f : Teams.factory) (typed : list (string * Teams.team_config)).
Variables (agent_key : string) (data : list (string * value)) (tools : value).

Hypothesis tools_given : dict_get data "tools" = Some tools.
Hypothesis tools_raise : iterate tools = inl TypeError.

Local Abbreviation unchecked := (one_unchecked_agent f typed agent_key data).

Lemma one_unchecked_agent_set_teams self reg :
  unchecked self → unchecked (set_teams self reg).
Proof. by intros (? & ? & ? & ?). Qed.

Lemma make_agent_raises : make_agent f agent_key (VDict data) = inl TypeError.
Proof.
  unfold make_agent, get. rewrite tools_given. cbn [from_option id bind].
  by rewrite tools_raise.
Qed.

Lemma resolve_members_type_error self (ms : list string) (acc : list object) :
  unchecked self →
  resolve_members self f (VStr <$> ms) acc = inl TypeError
  ∨ ∃ r, resolve_members self f (VStr <$> ms) acc = inr r.
Proof.
  intros (Hf & Hcfg & Hagent & Hothers). revert acc.
  induction ms as [|m ms IH]; intros acc; [right; by eexists|].
  rewrite fmap_cons. cbn [resolve_members as_key bind].
  case_decide.
  - destruct (teams self !! m); [apply IH | right; by eexists].
  - destruct (agents self !! m) as [v|] eqn:Hv; [|apply IH].
    destruct (decide (m = agent_key)) as [->|Hne].
    + rewrite Hagent in Hv. injection Hv as <-. rewrite make_agent_raises.
      by left.
    + destruct (Hothers m v Hne Hv) as [c Hc].
      rewrite (make_agent_read f m v c Hc). cbn [bind]. apply IH.
Qed.

Lemma resolve_members_raises self (before rest : list string) (acc : list object) :
  unchecked self →
  agent_key ∉ keys (teams_config self) →
  Forall (λ m, m ∉ keys (teams_config self)) before →
  resolve_members self f (VStr <$> (before ++ agent_key :: rest)) acc = inl TypeError.
Proof.
  intros (Hf & Hcfg & Hagent & Hothers) Hkey Hbefore. revert acc.
  induction Hbefore as [|m before Hm _ IH]; intros acc.
  - rewrite app_nil_l, fmap_cons. cbn [resolve_members as_key bind].
    rewrite decide_False by done. by rewrite Hagent, make_agent_raises.
  - rewrite <- app_comm_cons, fmap_cons. cbn [resolve_members as_key bind].
    rewrite decide_False by done.
    destruct (agents self !! m) as [v|] eqn:Hv; [|apply IH].
    destruct (decide (m = agent_key)) as [->|Hne].
    + rewrite Hagent in Hv. injection Hv as <-. by rewrite make_agent_raises.
    + destruct (Hothers m v Hne Hv) as [c Hc].
      rewrite (make_agent_read f m v c Hc). cbn [bind]. apply IH.
Qed.

(** The stored definition of a team, or the empty dictionary, with its
    members. *)
Lemma team_config_members self team_key :
  unchecked self →
  ∃ d, default (VDict []) (dict_get (teams_config self) team_key) = VDict d
    ∧ get (VDict d) "members" (VList [])
      = inr (VList (VStr <$> Teams.members
               (default Teams.empty_config (dict_get typed team_key)))).
Proof.
  intros (_ & Hcfg & _ & _).
  assert (read_team_config (default (VDict []) (dict_get (teams_config self) team_key))
          = Some (default Teams.empty_config (dict_get typed team_key))) as Hread.
  { pose proof (reads_as_teams_get _ _ team_key Hcfg) as H.
    inversion H as [? ? Hv|]; [done | done]. }
  apply read_team_config_fields in Hread as (d & Hd & _ & _ & Hms & _).
  exists d. split; [done|]. by apply get_strings.
Qed.

Lemma create_team_instance_type_error self team_key :
  unchecked self →
  _create_team_instance self team_key = inl TypeError
  ∨ ∃ r, _create_team_instance self team_key = inr r.
Proof.
  intros Hself. pose proof Hself as (Hf & _).
  destruct (team_config_members self team_key Hself) as (d & Hd & Hget).
  unfold _create_team_instance. rewrite Hf. cbv zeta. rewrite Hd, Hget.
  cbn [bind iterate].
  destruct (resolve_members_type_error self
              (Teams.members (default Teams.empty_config (dict_get typed team_key)))
              [] Hself) as [->|[[members|] ->]]; [by left| |right; by eexists].
  cbn [bind get from_option id]. right.
  destruct (bool_decide (members = []) && _); by eexists.
Qed.

Lemma create_team_instance_raises self team_key c before rest :
  unchecked self →
  agent_key ∉ keys (teams_config self) →
  dict_get typed team_key = Some c →
  Teams.members c = before ++ agent_key :: rest →
  Forall (λ m, m ∉ keys (teams_config self)) before →
  _create_team_instance self team_key = inl TypeError.
Proof.
  intros Hself Hkey Hc Hms Hbefore. pose proof Hself as (Hf & _).
  destruct (team_config_members self team_key Hself) as (d & Hd & Hget).
  unfold _create_team_instance. rewrite Hf. cbv zeta. rewrite Hd, Hget.
  cbn [bind iterate]. rewrite Hc. cbn [default from_option id]. rewrite Hms.
  by rewrite resolve_members_raises.
Qed.

Lemma build_teams_raises self l team_key c before rest :
  unchecked self →
  agent_key ∉ keys (teams_config self) →
  dict_get typed team_key = Some c →
  Teams.members c = before ++ agent_key :: rest →
  Forall (λ m, m ∉ keys (teams_config self)) before →
  ∃ reg, (build_teams self l = (inl TypeError, set_teams self reg)
          ∨ (build_teams self l = (inr true, set_teams self reg) ∧ team_key ∉ l))
    ∧ (teams self !! team_key = None → reg !! team_key = None).
Proof.
  intros Hself Hkey Hc Hms Hbefore. revert self Hself Hkey Hbefore.
  induction l as [|k l IH]; intros self Hself Hkey Hbefore.
  - exists (teams self). rewrite set_teams_teams. split; [|done]. right.
    split; [done|]. apply not_elem_of_nil.
  - cbn [build_teams].
    destruct (decide (k = team_key)) as [->|Hne].
    { rewrite (create_team_instance_raises self team_key c before rest); try done.
      exists (teams self). rewrite set_teams_teams. split; [by left | done]. }
    destruct (create_team_instance_type_error self k Hself) as [->|[[t|] ->]].
    + exists (teams self). rewrite set_teams_teams. split; [by left | done].
    + destruct (IH (set_teams self (<[k := t]> (teams self)))) as (reg & Hb & Hreg);
        [by apply one_unchecked_agent_set_teams | done | done |].
      exists reg. split.
      * destruct Hb as [->|[-> Hl]]; [by left | right]. split; [done|].
        by apply not_elem_of_cons.
      * intros Hnone. apply Hreg. simpl. by rewrite lookup_insert_ne.
    + destruct (IH self) as (reg & Hb & Hreg); [done..|].
      exists reg. split; [|done].
      destruct Hb as [->|[-> Hl]]; [by left | right]. split; [done|].
      by apply not_elem_of_cons.
Qed.

End UncheckedAgent.

Lemma rebuild_sorted set_order self f l :
  app_factory self = Some f → teams_config self ≠ [] →
  _topological_sort set_order (teams_config self) = inr (Teams.Sorted l) →
  reinitialize_teams set_order self = build_teams (set_teams self ∅) l.
Proof.
  intros Hf Hne Hs. unfold reinitialize_teams. rewrite Hf, Hs.
  by destruct (teams_config self).
Qed.

(** X29. [create_agent] with a new key that is not a team key and a
    payload with the required fields whose [tools] cannot be iterated
    ([null], a number, a boolean), on a server with a factory, an acyclic
    mapping and stored definitions of the classes of the schemas, when a
    team lists the key after members that are no team keys: the payload
    is stored and written to [agents.json], and [TypeError] leaves the
    tool from line 135 during the rebuild; the registry holds the teams
    that were built before the exception, and the team that lists the
    key is not among them. *)
Theorem create_agent_unchecked_tools_raises set_order s self f agent_key data tools
    team_key c before rest :
  (∀ l, set_order l ≡ₚ remove_dups l) →
  reads_as_context (app s) self →
  NoDup (keys (teams_config (app s))) →
  app_factory (app s) = Some f →
  Teams.acyclic (Teams.teams_config self) →
  agents (app s) !! agent_key = None →
  agent_key ∉ keys (teams_config (app s)) →
  "name"%string ∈ keys data → "role"%string ∈ keys data →
  "description"%string ∈ keys data →
  dict_get data "tools" = Some tools →
  iterate tools = inl TypeError →
  dict_get (Teams.teams_config self) team_key = Some c →
  Teams.members c = before ++ agent_key :: rest →
  Forall (λ m, m ∉ keys (teams_config (app s))) before →
  let app1 := set_agents (app s) (<[agent_key := VDict data]> (agents (app s))) in
  ∃ reg, create_agent set_order s agent_key data
         = (Raises TypeError,
            Server (set_teams app1 reg) (teams_json s) (agents app1))
    ∧ reg !! team_key = None.
Proof.
  intros Hso Hctx Hnd Hf Hac Hnone Hkey Hname Hrole Hdescr Htools Hraise Hc Hms
    Hbefore app1.
  pose proof Hctx as (Hf' & Hag & Hcfg & Hreg).
  unfold create_agent. rewrite Hnone. rewrite decide_True by done.
  cbv zeta. fold app1.
  assert (one_unchecked_agent f (Teams.teams_config self) agent_key data
            (set_teams app1 ∅)) as Hself.
  { split; [done|]. split; [done|]. split; [apply lookup_insert_eq|].
    intros m v Hne. simpl. rewrite lookup_insert_ne by done. intros Hv.
    pose proof (Hag m) as H. rewrite Hv in H. inversion H. eauto. }
  pose proof Hnd as Hnd'. rewrite (reads_as_teams_keys _ _ Hcfg) in Hnd'.
  destruct (sort_acyclic set_order _ Hso Hnd' Hac) as [l Hl].
  pose proof (sort_Sorted set_order _ Hso Hnd' l Hl) as (_ & Hperm & _).
  assert (team_key ∈ l) as Hin.
  { rewrite Hperm. apply dict_get_is_Some. eauto. }
  destruct (build_teams_raises f (Teams.teams_config self) agent_key data tools
              Htools Hraise (set_teams app1 ∅) l team_key c before rest)
    as (reg & Hb & Hnew); try done.
  destruct Hb as [Hb|[_ Hl']]; [|done].
  exists reg. split; [|apply Hnew, lookup_empty].
  rewrite (rebuild_sorted set_order app1 f l); [by rewrite Hb|done| |].
  - simpl. intros E. rewrite E in Hcfg. apply Forall2_nil_inv_l in Hcfg.
    by rewrite Hcfg in Hc.
  - simpl. by rewrite (topological_sort_read set_order _ _ Hso Hnd' Hcfg), Hl.
Qed.

(** ** The tools of [Tools] as the reading of the tools on unchecked data *)

Lemma checked_calls_run set_order s typed calls calls' :
  (∀ l, set_order l ≡ₚ remove_dups l) →
  reads_as s typed →
  NoDup (keys (teams_config (app s))) →
  Forall2 (λ c c', NoDup (keys (payload c)) ∧ read_call c = Some c') calls calls' →
  reads_as (run_all set_order s calls) (Tools.run_all set_order typed calls')
  ∧ NoDup (keys (teams_config (app (run_all set_order s calls))))
  ∧ ∀ c c', NoDup (keys (payload c)) → read_call c = Some c' →
      (run set_order (run_all set_order s calls) c).1
      = Answer (Tools.run set_order (Tools.run_all set_order typed calls') c').1.
Proof.
  intros Hso Hs Hnd Hcalls. revert s typed Hs Hnd.
  assert (∀ s typed c c',
            reads_as s typed → NoDup (keys (teams_config (app s))) →
            NoDup (keys (payload c)) → read_call c = Some c' →
            (run set_order s c).1 = Answer (Tools.run set_order typed c').1
            ∧ reads_as (run set_order s c).2 (Tools.run set_order typed c').2
            ∧ NoDup (keys (teams_config (app (run set_order s c).2)))) as Hstep.
  { intros s typed c c' Hs Hnd Hp Hc. pose proof Hs as ((_ & _ & Hcfg & _) & _).
    pose proof Hnd as Hnd'. rewrite (reads_as_teams_keys _ _ Hcfg) in Hnd'.
    destruct (run_read set_order Hso s typed c c' Hs Hnd' Hp Hc) as (s' & Hr & Hs').
    rewrite Hr. simpl. split; [done|]. split; [done|].
    pose proof (run_keeps_nodup set_order s c Hnd) as H. by rewrite Hr in H. }
  induction Hcalls as [|c c' calls calls' [Hp Hc] _ IH]; intros s typed Hs Hnd.
  - split; [done|]. split; [done|]. intros c c' Hp Hc.
    exact (proj1 (Hstep s typed c c' Hs Hnd Hp Hc)).
  - destruct (Hstep s typed c c' Hs Hnd Hp Hc) as (_ & Hs' & Hnd').
    exact (IH _ _ Hs' Hnd').
Qed.

(** X30. On a server whose stored definitions are of the classes of the
    schemas, a sequence of calls whose payloads are of these classes
    raises no exception: every call returns a reply.  The server that
    the sequence leaves reads as the one that the same calls of [Tools]
    leave, so that its stored definitions are again of the classes of
    the schemas; the team keys stay unique; and a further such call
    returns the reply that [Tools] gives. *)
Theorem checked_calls_read set_order s typed calls calls' :
  (∀ l, set_order l ≡ₚ remove_dups l) →
  reads_as s typed →
  NoDup (keys (teams_config (app s))) →
  Forall2 (λ c c', NoDup (keys (payload c)) ∧ read_call c = Some c') calls calls' →
  (∀ before c after, calls = before ++ c :: after →
     ∃ r, (run set_order (run_all set_order s before) c).1 = Answer r)
  ∧ reads_as (run_all set_order s calls) (Tools.run_all set_order typed calls')
  ∧ NoDup (keys (teams_config (app (run_all set_order s calls))))
  ∧ ∀ c c', NoDup (keys (payload c)) → read_call c = Some c' →
      (run set_order (run_all set_order s calls) c).1
      = Answer (Tools.run set_order (Tools.run_all set_order typed calls') c').1.
Proof.
  intros Hso Hs Hnd Hcalls.
  split; [|by apply checked_calls_run].
  intros before c after ->.
  apply Forall2_app_inv_l in Hcalls as (before' & rest' & Hbefore & Hrest & _).
  apply Forall2_cons_inv_l in Hrest as (c' & after' & [Hp Hc] & _ & _).
  destruct (checked_calls_run set_order s typed before before' Hso Hs Hnd Hbefore)
    as (_ & _ & Hnext).
  rewrite (Hnext c c' Hp Hc). by eexists.
Qed.

(** ** Concrete servers *)

Lemma nested_app_reads : reads_as_context nested_app Teams.nested_app.
Proof.
  split; [done|]. split; [|split].
  - apply reads_as_agents_insert; [|done]. intros k. rewrite !lookup_empty.
    constructor.
  - by repeat constructor.
  - simpl. by rewrite fmap_empty.
Qed.

Lemma nested_configs_nodup : NoDup (keys Teams.nested_configs).
Proof. by_computation. Qed.

Lemma sample_server_reads : reads_as sample_server Tools.sample_server.
Proof.
  destruct (reinitialize_teams_read remove_dups nested_app Teams.nested_app
              remove_dups_order nested_configs_nodup nested_app_reads)
    as (self' & Hr & Hctx).
  unfold sample_server, Tools.sample_server. rewrite Hr. simpl.
  split; [done|]. split.
  - by repeat constructor.
  - apply nested_app_reads.
Qed.

Lemma sample_server_nodup : NoDup (keys (teams_config (app sample_server))).
Proof.
  pose proof sample_server_reads as ((_ & _ & Hcfg & _) & _).
  rewrite (reads_as_teams_keys _ _ Hcfg). apply nested_configs_nodup.
Qed.

Lemma sample_server_factory : app_factory (app sample_server) = Some Teams.sample_factory.
Proof.
  pose proof sample_server_reads as ((Hf & _) & _). by rewrite Hf.
Qed.

Lemma sample_server_configs : teams_config (app sample_server) = nested_configs.
Proof. apply (rebuild_fields remove_dups nested_app). Qed.

Lemma sample_server_agents : agents (app sample_server) = agents nested_app.
Proof. apply (rebuild_fields remove_dups nested_app). Qed.

Lemma sample_server_synced : in_sync sample_server.
Proof. split; [by rewrite sample_server_configs | by rewrite sample_server_agents]. Qed.

Lemma sample_server_up_to_date : up_to_date remove_dups sample_server.
Proof.
  unfold up_to_date, sample_server. simpl.
  by rewrite (rebuild_idem remove_dups nested_app).
Qed.

Local Open Scope string_scope.

Lemma create_team_outcome_witness :
  let s := sample_server in
  let self := Tools.app Tools.sample_server in
  let cfg := teams_config (app s) in
  let cfg1 := (cfg ++ [("review", VDict review_team)])%list in
  let typed1 := Tools.set_teams_config self
                  (Teams.teams_config self
                   ++ [("review", Teams.TeamConfig (Some "Review") None ["solo"; "A1"]
                                    None None)])%list in
  (Teams.acyclic (Teams.teams_config typed1)
   ∧ ∃ reg, create_team remove_dups s "review" review_team
            = (Answer Tools.Success,
               Server (set_teams (set_teams_config (app s) cfg1) (object_of <$> reg))
                 cfg1 (agents_json s))
       ∧ Teams.built typed1 reg)
  ∨ (Teams.cyclic (Teams.teams_config typed1)
     ∧ create_team remove_dups s "review" review_team
       = (Answer Tools.RolledBack, Server (set_teams (app s) ∅) cfg (agents_json s))).
Proof.
  apply (create_team_outcome remove_dups sample_server
           (Tools.app Tools.sample_server) Teams.sample_factory "review" review_team
           (Teams.TeamConfig (Some "Review") None ["solo"; "A1"] None None)).
  - exact remove_dups_order.
  - apply sample_server_reads.
  - exact sample_server_nodup.
  - exact sample_server_factory.
  - rewrite sample_server_configs. by_computation.
  - by_computation.
  - by_computation.
  - reflexivity.
Defined.

Lemma update_team_outcome_witness :
  let s := sample_server in
  let self := Tools.app Tools.sample_server in
  let cfg := teams_config (app s) in
  let cfg1 := dict_set cfg "leaf"
                (VDict (dict_update [("members", strings ["ghost"])] leaf_on_top)) in
  let typed1 := Tools.set_teams_config self
                  (dict_set (Teams.teams_config self) "leaf"
                     (Teams.members_only ["top"])) in
  keys cfg1 = keys cfg
  ∧ ((Teams.acyclic (Teams.teams_config typed1)
      ∧ ∃ reg, update_team remove_dups s "leaf" leaf_on_top
               = (Answer Tools.Success,
                  Server (set_teams (set_teams_config (app s) cfg1) (object_of <$> reg))
                    cfg1 (agents_json s))
          ∧ Teams.built typed1 reg)
     ∨ (Teams.cyclic (Teams.teams_config typed1)
        ∧ update_team remove_dups s "leaf" leaf_on_top
          = (Answer Tools.RolledBack,
             Server (reinitialize_teams remove_dups (app s)).2 cfg (agents_json s)))).
Proof.
  apply (update_team_outcome remove_dups sample_server
           (Tools.app Tools.sample_server) Teams.sample_factory "leaf" leaf_on_top
           [("members", strings ["ghost"])] (Teams.members_only ["top"])).
  - exact remove_dups_order.
  - apply sample_server_reads.
  - exact sample_server_nodup.
  - exact sample_server_factory.
  - by rewrite sample_server_configs.
  - reflexivity.
Defined.

Lemma failed_call_keeps_definitions_witness :
  let r := run remove_dups sample_server (UpdateTeam "leaf" leaf_on_top) in
  teams_config (app r.2) = teams_config (app sample_server)
  ∧ agents (app r.2) = agents (app sample_server)
  ∧ app_factory (app r.2) = app_factory (app sample_server)
  ∧ (Tools.RolledBack ≠ Tools.RolledBack → r.2 = sample_server).
Proof.
  apply (failed_call_keeps_definitions remove_dups sample_server
           (UpdateTeam "leaf" leaf_on_top) Tools.RolledBack).
  - vm_compute. reflexivity.
  - discriminate.
Defined.

Lemma call_leaves_rebuilt_registry_witness :
  up_to_date remove_dups
    (run remove_dups sample_server (CreateTeam "broken" broken_team)).2.
Proof.
  apply (call_leaves_rebuilt_registry remove_dups sample_server
           (CreateTeam "broken" broken_team)).
  right. right. split.
  - vm_compute. discriminate.
  - exact sample_server_up_to_date.
Defined.

Lemma tools_keep_files_in_sync_witness :
  let calls := [CreateTeam "broken" broken_team; DeleteTeam "solo";
                UpdateTeam "broken" [("members", strings ["A1"])];
                CreateTeam "review" review_team; UpdateTeam "leaf" leaf_on_top;
                CreateAgent "ghost" broken_agent; DeleteAgent "A1";
                UpdateAgent "ghost" [("tools", VNum 5)]] in
  in_sync (run_all remove_dups sample_server calls)
  ∧ NoDup (keys (teams_config (app (run_all remove_dups sample_server calls))))
  ∧ app_factory (app (run_all remove_dups sample_server calls))
    = app_factory (app sample_server).
Proof.
  apply (tools_keep_files_in_sync remove_dups sample_server).
  - exact sample_server_synced.
  - exact sample_server_nodup.
Defined.

Lemma create_agent_only_activates_witness :
  let s := sample_server in
  let self := Tools.app Tools.sample_server in
  let agent := Teams.AgentConfig (Some "Ghost") "reviewer" "reads the drafts" [] None in
  let app1 := set_agents (app s) (<["ghost" := VDict ghost_agent]> (agents (app s))) in
  let typed1 := Tools.set_agents self (<["ghost" := agent]> (Teams.agents self)) in
  ∃ reg, create_agent remove_dups s "ghost" ghost_agent
         = (Answer Tools.Success,
            Server (set_teams app1 (object_of <$> reg)) (teams_json s) (agents app1))
    ∧ Teams.built typed1 reg
    ∧ ∀ t, is_Some (teams (app s) !! t) → is_Some (reg !! t).
Proof.
  apply (create_agent_only_activates remove_dups sample_server
           (Tools.app Tools.sample_server) Teams.sample_factory "ghost" ghost_agent
           (Teams.AgentConfig (Some "Ghost") "reviewer" "reads the drafts" [] None)).
  - exact remove_dups_order.
  - apply sample_server_reads.
  - exact sample_server_nodup.
  - exact sample_server_factory.
  - exact nested_configs_acyclic.
  - exact ToolsProofs.sample_server_built.
  - by rewrite sample_server_agents.
  - by_computation.
  - reflexivity.
Defined.

Lemma create_team_unchecked_members_raises_witness :
  let s := sample_server in
  let cfg1 := (teams_config (app s) ++ [("broken", VDict broken_team)])%list in
  create_team remove_dups s "broken" broken_team
  = (Raises TypeError,
     Server (Context (Some Teams.sample_factory) (agents (app s)) cfg1 ∅) cfg1
       (agents_json s)).
Proof.
  apply (create_team_unchecked_members_raises remove_dups sample_server
           Teams.sample_factory Teams.nested_configs "broken" broken_team VNull).
  - exact sample_server_factory.
  - apply sample_server_reads.
  - rewrite sample_server_configs. by_computation.
  - by_computation.
  - reflexivity.
  - reflexivity.
Defined.

Lemma create_agent_unchecked_tools_raises_witness :
  let s := sample_server in
  let app1 := set_agents (app s) (<["ghost" := VDict broken_agent]> (agents (app s))) in
  ∃ reg, create_agent remove_dups s "ghost" broken_agent
         = (Raises TypeError,
            Server (set_teams app1 reg) (teams_json s) (agents app1))
    ∧ reg !! "solo" = None.
Proof.
  apply (create_agent_unchecked_tools_raises remove_dups sample_server
           (Tools.app Tools.sample_server) Teams.sample_factory "ghost" broken_agent
           VNull "solo" (Teams.members_only ["A1"; "ghost"]) ["A1"] []).
  - exact remove_dups_order.
  - apply sample_server_reads.
  - exact sample_server_nodup.
  - exact sample_server_factory.
  - exact nested_configs_acyclic.
  - by rewrite sample_server_agents.
  - rewrite sample_server_configs. by_computation.
  - by_computation.
  - by_computation.
  - by_computation.
  - reflexivity.
  - reflexivity.
  - reflexivity.
  - reflexivity.
  - rewrite sample_server_configs. by_computation.
Defined.

(** Before the call that raises the team [solo] was running. *)
Lemma sample_server_solo_running : is_Some (teams (app sample_server) !! "solo").
Proof. vm_compute. eauto. Qed.

Lemma checked_calls_read_witness :
  let calls := [CreateTeam "review" review_team; UpdateTeam "leaf" leaf_on_top;
                DeleteAgent "A1"; CreateAgent "ghost" ghost_agent;
                DeleteTeam "solo"] in
  let calls' := [Tools.CreateTeam "review" Tools.review_team;
                 Tools.UpdateTeam "leaf" Tools.leaf_on_top;
                 Tools.DeleteAgent "A1"; Tools.CreateAgent "ghost" Tools.ghost_agent;
                 Tools.DeleteTeam "solo"] in
  (∀ before c after, calls = (before ++ c :: after)%list →
     ∃ r, (run remove_dups (run_all remove_dups sample_server before) c).1 = Answer r)
  ∧ reads_as (run_all remove_dups sample_server calls)
      (Tools.run_all remove_dups Tools.sample_server calls')
  ∧ NoDup (keys (teams_config (app (run_all remove_dups sample_server calls))))
  ∧ ∀ c c', NoDup (keys (payload c)) → read_call c = Some c' →
      (run remove_dups (run_all remove_dups sample_server calls) c).1
      = Answer (Tools.run remove_dups
                  (Tools.run_all remove_dups Tools.sample_server calls') c').1.
Proof.
  apply (checked_calls_read remove_dups sample_server Tools.sample_server).
  - exact remove_dups_order.
  - exact sample_server_reads.
  - exact sample_server_nodup.
  - repeat constructor; by_computation.
Defined.

End UncheckedTools.

(** ** The persona tools *)

Module PersonasProofs.
Import TeamsProofs Sessions Personas.

Lemma check_types_None items schema :
  check_types items schema = None ↔
  ∀ k v t, (k, v) ∈ items → dict_get schema k = Some t → isinstance v t = true.
Proof.
  induction items as [|[k v] items IH]; simpl.
  - split; [|done]. intros _ k v t Hin. by apply elem_of_nil in Hin.
  - destruct (dict_get schema k) as [t|] eqn:Hs.
    + destruct (isinstance v t) eqn:Hi.
      * rewrite IH. split.
        -- intros H k' v' t' [[= -> ->]|Hin]%elem_of_cons Hs'; [congruence|eauto].
        -- intros H k' v' t' Hin. apply H. by right.
      * split; [done|]. intros H. rewrite (H k v t) in Hi; [done|by left|done].
    + rewrite IH. split.
      * intros H k' v' t' [[= -> ->]|Hin]%elem_of_cons Hs'; [congruence|eauto].
      * intros H k' v' t' Hin. apply H. by right.
Qed.

Lemma check_types_Some items schema e :
  check_types items schema = Some e →
  ∃ k v t, e = WrongType k t (type_of v) ∧ (k, v) ∈ items
    ∧ dict_get schema k = Some t ∧ isinstance v t = false.
Proof.
  induction items as [|[k v] items IH]; simpl; [done|].
  destruct (dict_get schema k) as [t|] eqn:Hs.
  - destruct (isinstance v t) eqn:Hi.
    + intros (k' & v' & t' & -> & Hin & ?)%IH. exists k', v', t'.
      split; [done|]. split; [by right|done].
    + intros [= <-]. exists k, v, t. split; [done|]. split; [by left|done].
  - intros (k' & v' & t' & -> & Hin & ?)%IH. exists k', v', t'.
    split; [done|]. split; [by right|done].
Qed.

Lemma missing_fields_empty (data : list (str * json)) (req : gset str) :
  req ∖ list_to_set (keys data) = ∅ ↔ ∀ f, f ∈ req → f ∈ keys data.
Proof.
  split.
  - intros H f Hf. destruct (decide (f ∈ keys data)) as [|Hn]; [done|].
    assert (f ∈ req ∖ list_to_set (keys data)) as Hin.
    { apply elem_of_difference. split; [done|]. by rewrite elem_of_list_to_set. }
    rewrite H in Hin. by apply not_elem_of_empty in Hin.
  - intros H. apply leibniz_equiv. apply elem_of_equiv_empty. intros f.
    rewrite elem_of_difference, elem_of_list_to_set. intros [Hf Hn]. auto.
Qed.

Lemma validate_data_None data schema required_fields :
  validate_data data schema required_fields = None ↔
  (∀ f, f ∈ required_fields → f ∈ keys data)
  ∧ ∀ k v t, (k, v) ∈ data → dict_get schema k = Some t → isinstance v t = true.
Proof.
  unfold validate_data.
  destruct (missing_fields_empty data required_fields) as [Hall Hnone].
  case_decide as Hm.
  - rewrite check_types_None. specialize (Hall Hm). tauto.
  - split; [done|]. intros [H _]. by apply Hnone in H.
Qed.

(** X21. [validate_data] returns [None] exactly when every required field is
    a key of the data and every entry whose key is in the schema has the
    schema's class; it reports missing fields exactly when some required
    field is absent, and then the set of all absent required fields; and
    a type error is reported only when no required field is absent, for
    an entry of the data that is not of the schema's class, with that
    class and the entry's own. *)
Theorem validate_data_result data schema required_fields :
  (validate_data data schema required_fields = None ↔
     (∀ f, f ∈ required_fields → f ∈ keys data)
     ∧ ∀ k v t, (k, v) ∈ data → dict_get schema k = Some t → isinstance v t = true)
  ∧ (∀ m, validate_data data schema required_fields = Some (MissingFields m) ↔
       m ≠ ∅ ∧ ∀ f, f ∈ m ↔ f ∈ required_fields ∧ f ∉ keys data)
  ∧ (∀ k t a, validate_data data schema required_fields = Some (WrongType k t a) →
       (∀ f, f ∈ required_fields → f ∈ keys data)
       ∧ ∃ v, (k, v) ∈ data ∧ dict_get schema k = Some t
           ∧ isinstance v t = false ∧ a = type_of v).
Proof.
  split; [apply validate_data_None|]. unfold validate_data.
  destruct (missing_fields_empty data required_fields) as [Hall Hnone].
  split.
  - intros m. case_decide as Hm.
    + split.
      * intros (k & v & t & [=] & _)%check_types_Some.
      * intros [Hne H]. exfalso. apply Hne. apply leibniz_equiv, elem_of_equiv_empty.
        intros f [Hf Hn]%H. by apply Hn, Hall.
    + split.
      * intros [= <-]. split; [done|]. intros f.
        by rewrite elem_of_difference, elem_of_list_to_set.
      * intros [_ H]. do 2 f_equal. apply leibniz_equiv. intros f.
        by rewrite elem_of_difference, elem_of_list_to_set, H.
  - intros k t a. case_decide as Hm; [|done].
    intros (k' & v & t' & [= -> -> ->] & Hin & Hs & Hi)%check_types_Some.
    split; [by apply Hall|]. by exists v.
Qed.

Lemma check_update_None data : check_persona_update data = None ↔ accepted data.
Proof.
  unfold accepted. induction data as [|[k v] data IH]; cbn [check_persona_update].
  - split; [|done]. intros _ f v Hin. by apply elem_of_nil in Hin.
  - destruct (dict_get persona_schema k) as [t|] eqn:Hs.
    + destruct (isinstance v t) eqn:Hi.
      * rewrite IH. split.
        -- intros H f v' [[= -> ->]|Hin]%elem_of_cons; [by exists t|eauto].
        -- intros H f v' Hin. apply H. by right.
      * split; [done|]. intros H. destruct (H k v) as (t' & Ht' & Hi'); [by left|].
        congruence.
    + split; [done|]. intros H. destruct (H k v) as (t' & Ht' & _); [by left|].
      congruence.
Qed.

Lemma check_update_not_Success data : check_persona_update data ≠ Some Success.
Proof.
  induction data as [|[k v] data IH]; cbn [check_persona_update]; [done|].
  destruct (dict_get persona_schema k) as [t|]; [|done]. by destruct (isinstance v t).
Qed.

Lemma validate_update fields data :
  validate_data fields persona_schema persona_required_fields = None →
  accepted data →
  validate_data (dict_update fields data) persona_schema persona_required_fields = None.
Proof.
  intros [Hreq Hty]%validate_data_None Hacc. apply validate_data_None. split.
  - intros f Hf. by apply keys_dict_update_mono, Hreq.
  - intros k v t [Hin|Hin]%elem_of_dict_update Hs; [eauto|].
    destruct (Hacc k v Hin) as (t' & Ht' & Hi). congruence.
Qed.

Lemma valid_persona_truthy v : valid_persona v → truthy v = true.
Proof.
  intros (data & -> & [Hreq _]%validate_data_None).
  destruct data as [|it data]; [|done].
  specialize (Hreq (lit "name")). unfold keys in Hreq. simpl in Hreq.
  exfalso. eapply not_elem_of_nil. apply Hreq. unfold persona_required_fields.
  set_solver.
Qed.

(** X22. [create_persona] then [get_persona]: for a new key and data that
    [validate_data] accepts, the reply is the success reply,
    [get_persona] returns the data for the new key and what it returned
    before for every other key, the new key is the last of the mapping,
    and [personas.json] holds the mapping. *)
Theorem create_then_get_persona s persona_key data :
  persona_key ∉ keys (personas s) →
  validate_data data persona_schema persona_required_fields = None →
  ∃ s', create_persona s persona_key data = (Success, s')
    ∧ get_persona s' persona_key = Some (JObj data)
    ∧ (∀ k, k ≠ persona_key → get_persona s' k = get_persona s k)
    ∧ keys (personas s') = keys (personas s) ++ [persona_key]
    ∧ personas_json s' = personas s'.
Proof.
  intros Hk Hv. unfold create_persona. rewrite decide_False, Hv by done.
  eexists. split; [done|]. unfold get_persona, save_personas. simpl.
  split; [|split; [|split]].
  - rewrite dict_get_set, decide_True by done.
    rewrite valid_persona_truthy; [done|]. by exists data.
  - intros k Hne. by rewrite dict_get_set, decide_False.
  - by rewrite keys_dict_set, decide_False.
  - done.
Qed.

(** X23. [update_persona] of a stored persona: the reply is the success
    reply exactly when every entry of the data has a key of the persona
    schema and a value of its class; otherwise nothing changes.  After a
    success the stored persona has the given value for each key of the
    data and its old value for every other key, its old keys keep their
    order and the new keys follow, and no other persona is touched. *)
Theorem update_persona_outcome s persona_key fields data :
  dict_get (personas s) persona_key = Some (JObj fields) →
  NoDup (keys data) →
  let r := update_persona s persona_key data in
  (r.1 = Success ↔ accepted data)
  ∧ (r.1 ≠ Success → r.2 = s)
  ∧ (r.1 = Success →
     ∃ fields', dict_get (personas r.2) persona_key = Some (JObj fields')
       ∧ (∀ f, dict_get fields' f
               = match dict_get data f with
                 | Some v => Some v
                 | None => dict_get fields f
                 end)
       ∧ keys fields' = keys fields ++ filter (λ f, f ∉ keys fields) (keys data)
       ∧ keys (personas r.2) = keys (personas s)
       ∧ (∀ k, k ≠ persona_key → dict_get (personas r.2) k = dict_get (personas s) k)
       ∧ personas_json r.2 = personas r.2).
Proof.
  intros Hget Hnd r. subst r. unfold update_persona. rewrite Hget.
  destruct (check_persona_update data) as [e|] eqn:Hc;
    cbn [fst snd save_personas personas personas_json].
  - split; [|split; [done|]].
    + split.
      * intros ->. by apply check_update_not_Success in Hc.
      * intros Ha%check_update_None. congruence.
    + intros ->. by apply check_update_not_Success in Hc.
  - apply check_update_None in Hc. split; [done|]. split; [done|]. intros _.
    exists (dict_update fields data). rewrite dict_get_set, decide_True by done.
    split; [done|]. split; [intros f; by apply dict_get_update|].
    split; [by apply keys_dict_update|]. split; [|split; [|done]].
    + rewrite keys_dict_set, decide_True; [done|].
      apply dict_get_is_Some. by rewrite Hget.
    + intros k Hne. by rewrite dict_get_set, decide_False.
Qed.

Lemma run_keeps_valid s c : valid_store s → valid_store (run_persona_tool s c).2.
Proof.
  intros (Hf & Hnd & Hv). destruct c as [k data|k data|k]; simpl.
  - unfold create_persona. case_decide as Hk; [done|].
    destruct (validate_data _ _ _) eqn:Hval; [done|]. unfold valid_store. simpl.
    split; [done|]. split; [by apply NoDup_dict_set|].
    intros k' v. rewrite dict_get_set. case_decide; [|by apply Hv].
    intros [= <-]. by exists data.
  - unfold update_persona. destruct (dict_get (personas s) k) as [v|] eqn:Hget; [|done].
    destruct (check_persona_update data) eqn:Hc; [done|].
    destruct (Hv k v Hget) as (fields & -> & Hval). unfold valid_store. simpl.
    split; [done|]. split; [by apply NoDup_dict_set|].
    intros k' v. rewrite dict_get_set. case_decide; [|by apply Hv].
    intros [= <-]. eexists. split; [done|].
    apply validate_update; [done|]. by apply check_update_None.
  - unfold delete_persona. case_decide as Hk; [|done]. unfold valid_store. simpl.
    split; [done|]. split; [by apply NoDup_dict_del|].
    intros k' v. rewrite dict_get_del. case_decide; [done|]. apply Hv.
Qed.

(** X24. Invariant of the persona tools: if every stored persona is a
    dictionary that [validate_data] accepts, the keys are unique and
    [personas.json] holds the mapping, then this is so after any
    sequence of [create_persona], [update_persona] and [delete_persona]
    calls, whatever their arguments and replies. *)
Theorem persona_tools_keep_store_valid s calls :
  valid_store s → valid_store (run_persona_tools s calls).
Proof.
  unfold run_persona_tools. revert s. induction calls as [|c calls IH]; intros s Hs; [done|].
  simpl. by apply IH, run_keeps_valid.
Qed.

Lemma isinstance_type_of v t :
  t = PStr ∨ t = PList → isinstance v t = true → type_of v = t.
Proof.
  intros Ht. unfold isinstance.
  by destruct v; destruct Ht as [-> | ->].
Qed.

Lemma valid_field data f t :
  validate_data data persona_schema persona_required_fields = None →
  f ∈ persona_required_fields → dict_get persona_schema f = Some t →
  t = PStr ∨ t = PList →
  ∃ v, dict_get data f = Some v ∧ get_or_na data f = v ∧ type_of v = t.
Proof.
  intros [Hreq Hty]%validate_data_None Hf Hs Ht.
  destruct (dict_get data f) as [v|] eqn:Hget.
  - exists v. unfold get_or_na. rewrite Hget. split; [done|]. split; [done|].
    apply isinstance_type_of; [done|]. eapply Hty; [|done].
    by apply dict_get_Some_elem.
  - apply dict_get_None in Hget. by apply Hreq in Hf.
Qed.

(** X25. In a store of valid personas [get_persona] finds every stored key
    (the test for an empty document never hides one), and
    [list_personas] succeeds with one entry per persona in the order of
    the mapping, with the stored name, role (strings) and goals (a list)
    in place of the default [N/A]. *)
Theorem valid_store_is_listed s :
  valid_store s →
  (∀ k, get_persona s k = dict_get (personas s) k)
  ∧ ∃ l, list_personas s = Some l
      ∧ summary_key <$> l = keys (personas s)
      ∧ ∀ e, e ∈ l →
          ∃ data, dict_get (personas s) (summary_key e) = Some (JObj data)
            ∧ dict_get data (lit "name") = Some (summary_name e)
            ∧ type_of (summary_name e) = PStr
            ∧ dict_get data (lit "role") = Some (summary_role e)
            ∧ type_of (summary_role e) = PStr
            ∧ dict_get data (lit "goals") = Some (summary_goals e)
            ∧ type_of (summary_goals e) = PList
            ∧ profile_summary e = get_or_na data (lit "background").
Proof.
  intros (_ & Hnd & Hv). split.
  - intros k. unfold get_persona. destruct (dict_get (personas s) k) as [v|] eqn:Hget; [|done].
    by rewrite (valid_persona_truthy v (Hv k v Hget)).
  - unfold list_personas.
    assert (∀ k v, (k, v) ∈ personas s → valid_persona v) as Hall.
    { intros k v Hin. apply (Hv k). by apply dict_get_elem. }
    assert (∀ k v, (k, v) ∈ personas s → dict_get (personas s) k = Some v) as Hgets.
    { intros k v Hin. by apply dict_get_elem. }
    revert Hall Hgets. generalize (dict_get (personas s)). clear Hnd Hv.
    induction (personas s) as [|[k v] p IH]; intros get Hall Hgets.
    + exists []. split; [done|]. split; [done|]. intros e He. by apply elem_of_nil in He.
    + destruct (Hall k v) as (data & -> & Hval); [by left|].
      destruct (IH get) as (l & Hl & Hkeys & Hl'); [intros; eapply Hall; by right|
        intros; apply Hgets; by right|].
      eexists (_ :: l). split; [|split].
      * cbn [mapM]. simpl. rewrite Hl. reflexivity.
      * unfold keys in *. rewrite !fmap_cons. by f_equal.
      * intros e [->|He]%elem_of_cons; [|by apply Hl'].
        exists data. simpl. split; [apply Hgets; by left|].
        destruct (valid_field data (lit "name") PStr) as (v1 & H1 & <- & T1);
          [done|unfold persona_required_fields; set_solver|done|by left|].
        destruct (valid_field data (lit "role") PStr) as (v2 & H2 & <- & T2);
          [done|unfold persona_required_fields; set_solver|done|by left|].
        destruct (valid_field data (lit "goals") PList) as (v3 & H3 & <- & T3);
          [done|unfold persona_required_fields; set_solver|done|by right|].
        done.
Qed.

Lemma ada_valid : validate_data ada persona_schema persona_required_fields = None.
Proof. vm_compute. reflexivity. Qed.

Lemma bob_valid : validate_data bob persona_schema persona_required_fields = None.
Proof. vm_compute. reflexivity. Qed.

Lemma sample_store_valid : valid_store sample_store.
Proof.
  split; [done|]. split; [by_computation|].
  intros k v. simpl. case_decide; [|done]. intros [= <-].
  exists ada. split; [done|exact ada_valid].
Qed.

Lemma promotion_accepted : accepted promotion.
Proof. apply check_update_None. vm_compute. reflexivity. Qed.

Lemma create_then_get_persona_witness :
  ∃ s', create_persona sample_store (lit "bob") bob = (Success, s')
    ∧ get_persona s' (lit "bob") = Some (JObj bob)
    ∧ (∀ k, k ≠ lit "bob" → get_persona s' k = get_persona sample_store k)
    ∧ keys (personas s') = keys (personas sample_store) ++ [lit "bob"]
    ∧ personas_json s' = personas s'.
Proof.
  apply (create_then_get_persona sample_store (lit "bob") bob).
  - by_computation.
  - exact bob_valid.
Defined.

Lemma update_persona_outcome_witness :
  let r := update_persona sample_store (lit "ada") promotion in
  (r.1 = Success ↔ accepted promotion)
  ∧ (r.1 ≠ Success → r.2 = sample_store)
  ∧ (r.1 = Success →
     ∃ fields', dict_get (personas r.2) (lit "ada") = Some (JObj fields')
       ∧ (∀ f, dict_get fields' f
               = match dict_get promotion f with
                 | Some v => Some v
                 | None => dict_get ada f
                 end)
       ∧ keys fields' = keys ada ++ filter (λ f, f ∉ keys ada) (keys promotion)
       ∧ keys (personas r.2) = keys (personas sample_store)
       ∧ (∀ k, k ≠ lit "ada" →
            dict_get (personas r.2) k = dict_get (personas sample_store) k)
       ∧ personas_json r.2 = personas r.2).
Proof.
  apply (update_persona_outcome sample_store (lit "ada") ada promotion).
  - reflexivity.
  - by_computation.
Defined.

Lemma persona_tools_keep_store_valid_witness :
  valid_store
    (run_persona_tools sample_store
       [CreatePersona (lit "bob") bob; UpdatePersona (lit "ada") promotion;
        UpdatePersona (lit "bob") demotion; DeletePersona (lit "ada");
        CreatePersona (lit "ada") promotion]).
Proof.
  apply (persona_tools_keep_store_valid sample_store).
  exact sample_store_valid.
Defined.

Lemma valid_store_is_listed_witness :
  (∀ k, get_persona sample_store k = dict_get (personas sample_store) k)
  ∧ ∃ l, list_personas sample_store = Some l
      ∧ summary_key <$> l = keys (personas sample_store)
      ∧ ∀ e, e ∈ l →
          ∃ data, dict_get (personas sample_store) (summary_key e) = Some (JObj data)
            ∧ dict_get data (lit "name") = Some (summary_name e)
            ∧ type_of (summary_name e) = PStr
            ∧ dict_get data (lit "role") = Some (summary_role e)
            ∧ type_of (summary_role e) = PStr
            ∧ dict_get data (lit "goals") = Some (summary_goals e)
            ∧ type_of (summary_goals e) = PList
            ∧ profile_summary e = get_or_na data (lit "background").
Proof.
  apply (valid_store_is_listed sample_store). exact sample_store_valid.
Defined.

End PersonasProofs.

(** ** The product tools *)

Module ProductsProofs.
Import TeamsProofs Sessions Personas PersonasProofs Products.

Lemma complete_product_truthy v : complete_product v → truthy v = true.
Proof.
  intros (data & -> & Hreq). destruct data as [|it data]; [|done].
  specialize (Hreq (lit "product_name")). unfold keys in Hreq. simpl in Hreq.
  exfalso. eapply not_elem_of_nil. apply Hreq. unfold product_required_fields.
  set_solver.
Qed.

(** X26. [create_product] answers with the success reply exactly when the
    key is new and the three required fields are keys of the data (the
    classes of the values are not checked); otherwise nothing changes.
    After a success [get_product] returns the data for the new key and
    what it returned before for every other key, and [products.json]
    holds the mapping. *)
Theorem create_product_outcome s product_key data :
  let r := create_product s product_key data in
  (r.1 = Success ↔
     (product_key ∉ keys (products s))
     ∧ ∀ f, f ∈ product_required_fields → f ∈ keys data)
  ∧ (r.1 ≠ Success → r.2 = s)
  ∧ (r.1 = Success →
       get_product r.2 product_key = Some (JObj data)
       ∧ (∀ k, k ≠ product_key → get_product r.2 k = get_product s k)
       ∧ products_json r.2 = products r.2).
Proof.
  unfold create_product.
  destruct (missing_fields_empty data product_required_fields) as [Hall Hnone].
  case_decide as Hk; [|case_decide as Hm]; simpl.
  - split; [|done]. split; [done|]. by intros [? _].
  - split; [split; [by auto|done]|]. split; [done|]. intros _.
    unfold get_product. simpl.
    split; [|split; [|done]].
    + rewrite dict_get_set, decide_True by done.
      rewrite complete_product_truthy; [done|]. exists data. auto.
    + intros k Hne. by rewrite dict_get_set, decide_False.
  - split; [|done]. split; [done|]. intros [_ H]. by apply Hnone in H.
Qed.

Lemma run_keeps_complete s c : complete_store s → complete_store (run_product_tool s c).2.
Proof.
  intros (Hf & Hnd & Hv). destruct c as [k data|k data|k]; simpl.
  - unfold create_product. case_decide as Hk; [done|].
    destruct (missing_fields_empty data product_required_fields) as [Hall _].
    case_decide as Hm; [|done]. unfold complete_store. simpl.
    split; [done|]. split; [by apply NoDup_dict_set|].
    intros k' v. rewrite dict_get_set. case_decide; [|by apply Hv].
    intros [= <-]. exists data. auto.
  - unfold update_product. destruct (dict_get (products s) k) as [v|] eqn:Hget; [|done].
    destruct (check_product_update data) eqn:Hc; [done|].
    destruct (Hv k v Hget) as (fields & -> & Hreq). unfold complete_store. simpl.
    split; [done|]. split; [by apply NoDup_dict_set|].
    intros k' v. rewrite dict_get_set. case_decide; [|by apply Hv].
    intros [= <-]. eexists. split; [done|].
    intros f Hf'. by apply keys_dict_update_mono, Hreq.
  - unfold delete_product. case_decide as Hk; [|done]. unfold complete_store. simpl.
    split; [done|]. split; [by apply NoDup_dict_del|].
    intros k' v. rewrite dict_get_del. case_decide; [done|]. apply Hv.
Qed.

(** X27. Invariant of the product tools: if every stored product is a
    dictionary with the three required fields, the keys are unique and
    [products.json] holds the mapping, then this is so after any
    sequence of [create_product], [update_product] and [delete_product]
    calls, and [get_product] finds every stored key. *)
Theorem product_tools_keep_required_fields s calls :
  complete_store s →
  complete_store (run_product_tools s calls)
  ∧ ∀ k, get_product (run_product_tools s calls) k = dict_get (products (run_product_tools s calls)) k.
Proof.
  intros Hs.
  assert (complete_store (run_product_tools s calls)) as Hc.
  { unfold run_product_tools. revert s Hs. induction calls as [|c calls IH]; intros s Hs; [done|].
    simpl. by apply IH, run_keeps_complete. }
  split; [done|]. intros k. unfold get_product.
  destruct (dict_get _ k) as [v|] eqn:Hget; [|done].
  destruct Hc as (_ & _ & Hv). by rewrite (complete_product_truthy v (Hv k v Hget)).
Qed.

Lemma sample_store_complete : complete_store sample_catalog.
Proof.
  split; [done|]. split; [by_computation|].
  intros k v. simpl. case_decide; [|done]. intros [= <-].
  exists kettle. split; [done|]. apply missing_fields_empty. vm_compute. reflexivity.
Qed.

Lemma product_tools_keep_required_fields_witness :
  let calls := [CreateProduct (lit "lamp") lamp; UpdateProduct (lit "kettle") relabel;
                UpdateProduct (lit "lamp") kettle; DeleteProduct (lit "kettle");
                CreateProduct (lit "kettle") relabel] in
  complete_store (run_product_tools sample_catalog calls)
  ∧ ∀ k, get_product (run_product_tools sample_catalog calls) k
         = dict_get (products (run_product_tools sample_catalog calls)) k.
Proof.
  apply (product_tools_keep_required_fields sample_catalog).
  exact sample_store_complete.
Defined.

End ProductsProofs.
